(** * bowie-tracker: the crawl, merge and lookup pipeline

    A shallow embedding of [fetch_bowie_data.py], [generate_lookup.py],
    [process_lookup.py] and [supervisor_fetch.py].

    Conventions of the embedding:
    - a Python [dict] is an insertion-ordered association list ([odict]):
      assigning to an existing key keeps its position, a new key goes last;
    - the Python [set] of processed release ids is a [gset string];
    - JSON objects are records over the keys the program reads; a key that
      may be absent is an [option]; Python truthiness ([if x], [not x]) is
      written out with [str_truthy] and friends;
    - integers are [Z]; sleeps are counted in milliseconds so that the
      pacing delay of 1.1 s is the integer 1100;
    - the network and the file system are explicit: an HTTP attempt is
      answered by an [outcome], file writes are [fs_op]s applied to a file
      store. *)

From Stdlib Require Import ZArith String Ascii List Bool Lia Permutation Sorted.
From stdpp Require Import base gmap strings list.
Import ListNotations.

Local Open Scope string_scope.
Local Open Scope list_scope.

(* ===================================================================== *)
(** ** Python values                                                       *)
(* ===================================================================== *)

Module Py.

(** Truthiness of a [str]: the empty string is falsy. *)
Definition str_truthy (s : string) : bool := negb (String.eqb s EmptyString).

(** Truthiness of the result of [d.get(key)] for a string-valued key:
    [None] (key absent) and the empty string are falsy. *)
Definition opt_truthy (o : option string) : bool :=
  match o with
  | Some s => str_truthy s
  | None => false
  end.

(** Truthiness of an [int]. *)
Definition int_truthy (z : Z) : bool := negb (z =? 0)%Z.

(** [a or b] on integers where the left operand may be [None]. *)
Definition or_int (a : option Z) (b : Z) : Z :=
  match a with
  | Some z => if int_truthy z then z else b
  | None => b
  end.

(** [str.lower()] on ASCII text. *)
Definition ascii_lower (c : ascii) : ascii :=
  let n := N_of_ascii c in
  if ((65 <=? n) && (n <=? 90))%N then ascii_of_N (n + 32) else c.

Fixpoint lower (s : string) : string :=
  match s with
  | EmptyString => EmptyString
  | String c s' => String (ascii_lower c) (lower s')
  end.

(** [needle in hay] for two strings: substring test. *)
Fixpoint str_in (needle hay : string) : bool :=
  String.prefix needle hay ||
  match hay with
  | EmptyString => false
  | String _ hay' => str_in needle hay'
  end.

(** [len(s)]: the number of characters, bytes here, which is the same
    on ASCII text. *)
Definition len (s : string) : Z := Z.of_nat (String.length s).

(** *** Insertion-ordered dictionaries with string keys *)

Definition odict (V : Type) : Type := list (string * V).

Definition od_empty {V : Type} : odict V := [].

(** [d.get(k)] / [d[k]] *)
Fixpoint od_get {V : Type} (k : string) (d : odict V) : option V :=
  match d with
  | [] => None
  | (k', v) :: d' => if String.eqb k' k then Some v else od_get k d'
  end.

(** [k in d] *)
Definition od_mem {V : Type} (k : string) (d : odict V) : bool :=
  match od_get k d with Some _ => true | None => false end.

(** [d[k] = v] *)
Fixpoint od_set {V : Type} (k : string) (v : V) (d : odict V) : odict V :=
  match d with
  | [] => [(k, v)]
  | (k', v') :: d' =>
      if String.eqb k' k then (k, v) :: d' else (k', v') :: od_set k v d'
  end.

(** [d.keys()] *)
Definition od_keys {V : Type} (d : odict V) : list string := map fst d.

(** A list of items is the [items()] of a dict when no key repeats. *)
Definition od_wf {V : Type} (d : odict V) : Prop := NoDup (od_keys d).

(** Two dicts are equal as maps when every key reads the same. *)
Definition od_equiv {V : Type} (d1 d2 : odict V) : Prop :=
  forall k, od_get k d1 = od_get k d2.

End Py.
Import Py.

(* ===================================================================== *)
(** ** Data model                                                          *)
(* ===================================================================== *)

(** One entry of the tracks list of a release group. *)
Record TrackEntry := {
  te_id : string;
  te_title : option string;    (* null when neither source has a title *)
  te_duration_ms : Z
}.

(** One value of [final_db], keyed by release-group id. *)
Record ReleaseGroupRecord := {
  rgr_title : string;
  rgr_type : option string;
  rgr_track_count : Z;
  rgr_image_url : option string;
  rgr_tracks : list TrackEntry
}.

Definition Database : Type := odict ReleaseGroupRecord.

(* ===================================================================== *)
(** ** generate_lookup.py                                                  *)
(* ===================================================================== *)

Module GenerateLookup.

(** The double-quote character (code 34) of the title of Heroes. *)
Definition dquote : string := String "034"%char EmptyString.

Definition CANONICAL_ALBUMS : list string :=
  [ "david bowie"; "space oddity"; "the man who sold the world"; "hunky dory";
    "the rise and fall of ziggy stardust and the spiders from mars"; "aladdin sane";
    "pin ups"; "diamond dogs"; "young americans"; "station to station"; "low";
    String.append dquote (String.append "heroes" dquote); "lodger"; "scary monsters (and super creeps)";
    "let's dance"; "tonight"; "never let me down"; "black tie white noise";
    "the buddha of suburbia"; "outside"; "earthling"; "hours"; "heathen";
    "reality"; "the next day"; "blackstar"; "toy" ].

(** The loop [for canon in CANONICAL_ALBUMS: if canon in title: ...; break] *)
Definition is_canonical (title : string) : bool :=
  existsb (fun canon => str_in canon title) CANONICAL_ALBUMS.

Definition penalty (word title : string) (p : Z) : Z :=
  if str_in word title then p else 0%Z.

Definition rg_score (rg_id : string) (data : ReleaseGroupRecord) : Z :=
  let title := lower (rgr_title data) in
  let score :=
    if is_canonical title then (1000 - len title)%Z
    else
      (0 - penalty "live" title 200
         - penalty "collection" title 100
         - penalty "best of" title 100
         - penalty "anthology" title 100
         - penalty "greatest hits" title 100
         - (if String.eqb "best" title then 500 else 0)
         - len title)%Z in
  if opt_truthy (rgr_image_url data) then (score + 50)%Z else score.

(** [sorted(items, key=..., reverse=True)]: Python's sort is stable, and with
    [reverse=True] items of equal key keep their input order.  Sortedness
    and stability fix the result, so a stable insertion sort computes the
    same list as Python's own algorithm. *)
Fixpoint insert_desc {A : Type} (key : A -> Z) (x : A) (l : list A) : list A :=
  match l with
  | [] => [x]
  | y :: l' => if (key x <? key y)%Z then y :: insert_desc key x l' else x :: y :: l'
  end.

Fixpoint sorted_desc {A : Type} (key : A -> Z) (l : list A) : list A :=
  match l with
  | [] => []
  | x :: l' => insert_desc key x (sorted_desc key l')
  end.

Definition item_score (x : string * ReleaseGroupRecord) : Z := rg_score (fst x) (snd x).

Definition sorted_rgs (full_db : Database) : list (string * ReleaseGroupRecord) :=
  sorted_desc item_score full_db.

(** A value of [release_groups]: the list [title, image, count, rg_type]. *)
Definition RGEntry : Type := (string * option string * Z * option string)%type.

Record Lookup := {
  recordings : odict string;
  release_groups : odict RGEntry;
  track_durations : odict Z
}.

Definition empty_lookup : Lookup :=
  {| recordings := od_empty; release_groups := od_empty; track_durations := od_empty |}.

(** Body of [for track in data.get(tracks, [])]. *)
Definition track_step (rg_id : string) (lookup : Lookup) (track : TrackEntry) : Lookup :=
  let rec_id := te_id track in
  if negb (str_truthy rec_id) then lookup
  else
    let duration := te_duration_ms track in
    let durations' :=
      if int_truthy duration
      then od_set rec_id duration (track_durations lookup)
      else track_durations lookup in
    let recordings' :=
      if negb (od_mem rec_id (recordings lookup))
      then od_set rec_id rg_id (recordings lookup)
      else recordings lookup in
    {| recordings := recordings';
       release_groups := release_groups lookup;
       track_durations := durations' |}.

(** Body of [for rg_id, data in sorted_rgs].  The record type has every key,
    so the defaults of [data.get] (11 for the track count) never apply. *)
Definition group_step (lookup : Lookup) (item : string * ReleaseGroupRecord) : Lookup :=
  let rg_id := fst item in
  let data := snd item in
  let title := rgr_title data in
  let image := rgr_image_url data in
  let rg_type := rgr_type data in
  let count := rgr_track_count data in
  let lookup1 :=
    {| recordings := recordings lookup;
       release_groups := od_set rg_id (title, image, count, rg_type) (release_groups lookup);
       track_durations := track_durations lookup |} in
  fold_left (track_step rg_id) (rgr_tracks data) lookup1.

(** The loop of lines 60-78 over a given iteration order. *)
Definition populate (items : list (string * ReleaseGroupRecord)) (lookup : Lookup) : Lookup :=
  fold_left group_step items lookup.

Definition build_lookup (full_db : Database) : Lookup :=
  populate (sorted_rgs full_db) empty_lookup.

End GenerateLookup.

(* ===================================================================== *)
(** ** process_lookup.py                                                   *)
(* ===================================================================== *)

Module ProcessLookup.

Definition NameMap : Type := odict (list (string * string)).

Definition entry_eqb (a b : string * string) : bool :=
  String.eqb (fst a) (fst b) && String.eqb (snd a) (snd b).

(** [entry in l] for a list of pairs. *)
Definition entry_in (entry : string * string) (l : list (string * string)) : bool :=
  existsb (entry_eqb entry) l.

(** [name_map[k]] where the key is known to be present. *)
Definition candidates (k : string) (name_map : NameMap) : list (string * string) :=
  match od_get k name_map with
  | Some l => l
  | None => []
  end.

(** Body of [for track in data.get(tracks, [])]. *)
Definition name_step (rg_id : string) (name_map : NameMap) (track : TrackEntry) : NameMap :=
  let rec_id := te_id track in
  match te_title track with
  | None => name_map
  | Some rec_name =>
      if negb (str_truthy rec_id) || negb (str_truthy rec_name) then name_map
      else
        let norm_name := lower rec_name in
        let name_map1 :=
          if negb (od_mem norm_name name_map)
          then od_set norm_name [] name_map
          else name_map in
        let entry := (rec_id, rg_id) in
        if negb (entry_in entry (candidates norm_name name_map1))
        then od_set norm_name (candidates norm_name name_map1 ++ [entry]) name_map1
        else name_map1
  end.

Definition name_group_step (name_map : NameMap) (item : string * ReleaseGroupRecord) : NameMap :=
  fold_left (name_step (fst item)) (rgr_tracks (snd item)) name_map.

(** [name_map] as [process_metadata] stores it under the lookup's key
    of that name. *)
Definition process_metadata (full_db : Database) : NameMap :=
  fold_left name_group_step full_db od_empty.

End ProcessLookup.


(* ===================================================================== *)
(** ** fetch_bowie_data.py                                                 *)
(* ===================================================================== *)

Module FetchBowieData.

Definition OUTPUT_FILE : string := "bowie_metadata.json".
Definition PROGRESS_FILE : string := ".processed_releases.json".

(** *** The catalog's JSON, as the crawler reads it *)

(** The recording object of a track; a track without one reads as the
    empty object, all of whose keys are absent. *)
Record Recording := {
  rec_id : option string;
  rec_title : option string;
  rec_length : option Z          (* absent or null: [None] *)
}.

Record Track := {
  trk_title : option string;
  trk_length : option Z;         (* absent or null: [None] *)
  trk_recording : Recording
}.

Record Medium := {
  med_tracks : list Track        (* absent: the empty list *)
}.

(** A release-detail body.  [det_other_keys] tells whether the object has
    keys besides media (the program reads none of them, but they make the
    object truthy). *)
Record Details := {
  det_media : option (list Medium);
  det_other_keys : bool
}.

Record ReleaseGroupRef := {
  rg_id : option string;
  rg_title : option string;
  rg_primary_type : option string
}.

Record SourceRelease := {
  rel_id : string;
  rel_title : string;
  rel_release_group : ReleaseGroupRef;   (* absent: all keys absent *)
  rel_front : bool                       (* cover-art-archive.front is truthy *)
}.

(** Truthiness of a details object: a dict is truthy when it has a key. *)
Definition details_truthy (d : Details) : bool :=
  match det_media d with
  | Some _ => true
  | None => det_other_keys d
  end.

(** *** fetch_json *)

(** What one [session.get] of [fetch_json] meets: a response with a status
    code, whose body [resp.json()] parses ([Some]) or rejects by raising
    ([None]); or an exception raised by the request itself. *)
Inductive outcome (B : Type) : Type :=
  | Response (status : Z) (body : option B)
  | Raised.
Arguments Response {B} status body.
Arguments Raised {B}.

Inductive effect : Type :=
  | Sleep (ms : Z)
  | Get.

Definition is_get (e : effect) : bool :=
  match e with Get => true | Sleep _ => false end.

(** The number of requests among some effects. *)
Definition gets (es : list effect) : nat := length (filter (fun e => is_get e = true) es).

(** The loop [for attempt in ...] over the attempt numbers still to run;
    [net attempt] answers the request of that attempt.  Returns the value
    returned and the sleeps and requests performed. *)
Fixpoint fetch_loop {B : Type} (net : nat -> outcome B) (attempts : list nat)
  : option B * list effect :=
  match attempts with
  | [] => (None, [])
  | attempt :: rest =>
      let retry (pause : Z) :=
        let r := fetch_loop net rest in
        (fst r, Sleep 1100 :: Get :: Sleep pause :: snd r) in
      match net attempt with
      | Response status body =>
          if (status =? 200)%Z then
            match body with
            | Some b => (Some b, [Sleep 1100; Get])
            | None => retry (3000 * (Z.of_nat attempt + 1))%Z
            end
          else if (status =? 503)%Z then retry 15000%Z
          else retry 5000%Z
      | Raised => retry (3000 * (Z.of_nat attempt + 1))%Z
      end
  end.

Definition fetch_json {B : Type} (net : nat -> outcome B) : option B * list effect :=
  fetch_loop net (seq 0 5).

(** *** The merge of one release into the database (lines 94-123) *)

Definition new_record (rel : SourceRelease) : ReleaseGroupRecord :=
  let rg := rel_release_group rel in
  {| rgr_title := match rg_title rg with Some t => t | None => rel_title rel end;
     rgr_type := rg_primary_type rg;
     rgr_track_count := 0;
     rgr_image_url := None;
     rgr_tracks := [] |}.

Definition image_of (rel_id : string) : string :=
  String.append "https://coverartarchive.org/release/" (String.append rel_id "/front-250").

Definition set_image (rel : SourceRelease) (r : ReleaseGroupRecord) : ReleaseGroupRecord :=
  if negb (opt_truthy (rgr_image_url r)) && rel_front rel
  then {| rgr_title := rgr_title r;
          rgr_type := rgr_type r;
          rgr_track_count := rgr_track_count r;
          rgr_image_url := Some (image_of (rel_id rel));
          rgr_tracks := rgr_tracks r |}
  else r.

(** The entry appended for a track whose recording id is [id]. *)
Definition entry_of (id : string) (track : Track) : TrackEntry :=
  let rec := trk_recording track in
  {| te_id := id;
     te_title := match trk_title track with Some t => Some t | None => rec_title rec end;
     te_duration_ms := or_int (trk_length track) (or_int (rec_length rec) 0) |}.

(** The variables the two nested loops update. *)
Record merge_acc := {
  acc_tracks : list TrackEntry;           (* final_db[rg_id][tracks] *)
  existing_track_ids : gset string;
  current_rel_track_count : Z
}.

(** Body of [for track in medium.get(tracks, [])]. *)
Definition merge_track (acc : merge_acc) (track : Track) : merge_acc :=
  let count := (current_rel_track_count acc + 1)%Z in
  match rec_id (trk_recording track) with
  | Some id =>
      if str_truthy id && negb (bool_decide (id ∈ existing_track_ids acc))
      then {| acc_tracks := acc_tracks acc ++ [entry_of id track];
              existing_track_ids := {[ id ]} ∪ existing_track_ids acc;
              current_rel_track_count := count |}
      else {| acc_tracks := acc_tracks acc;
              existing_track_ids := existing_track_ids acc;
              current_rel_track_count := count |}
  | None => {| acc_tracks := acc_tracks acc;
               existing_track_ids := existing_track_ids acc;
               current_rel_track_count := count |}
  end.

Definition merge_medium (acc : merge_acc) (medium : Medium) : merge_acc :=
  fold_left merge_track (med_tracks medium) acc.

Definition details_media (details : Details) : list Medium :=
  match det_media details with Some ms => ms | None => [] end.

(** The record of group [rg_id] after lines 94-123, from the record it had
    ([None] when the group is new). *)
Definition merge_record (old : option ReleaseGroupRecord) (rel : SourceRelease)
    (details : Details) : ReleaseGroupRecord :=
  let r0 := match old with Some r => r | None => new_record rel end in
  let r1 := set_image rel r0 in
  let acc0 := {| acc_tracks := rgr_tracks r1;
                 existing_track_ids := list_to_set (map te_id (rgr_tracks r1));
                 current_rel_track_count := 0 |} in
  let acc := fold_left merge_medium (details_media details) acc0 in
  {| rgr_title := rgr_title r1;
     rgr_type := rgr_type r1;
     rgr_track_count := Z.max (rgr_track_count r1) (current_rel_track_count acc);
     rgr_image_url := rgr_image_url r1;
     rgr_tracks := acc_tracks acc |}.

Definition merge_release (final_db : Database) (rg_id : string) (rel : SourceRelease)
    (details : Details) : Database :=
  od_set rg_id (merge_record (od_get rg_id final_db) rel details) final_db.

(** *** The detail phase and the final write (lines 69-137) *)

(** The discovery loop of lines 47-65 is modelled apart, in
    [CrawlerStartup]: the list [all_releases] it collects is a parameter of
    the detail phase, and the answers of the network are numbered from the
    first request of the detail phase on. *)

Inductive event : Type :=
  | Fetch (rel_id : string) (details : option Details)
      (* the call of fetch_json for a release, with what it returned *)
  | Checkpoint (db : Database) (processed : gset string)
      (* lines 128-132 *)
  | FinalWrite (db : Database) (processed : gset string).
      (* lines 134-137 *)

Record crawl_state := {
  final_db : Database;
  processed_rel_ids : gset string;
  processed_this_run : Z;
  requests : nat;          (* requests sent so far: the next one is [net requests] *)
  trace : list event       (* oldest first *)
}.

(** [if not details] *)
Definition fetch_ok (details : option Details) : bool :=
  match details with
  | Some d => details_truthy d
  | None => false
  end.

(** Body of [for i, rel in enumerate(all_releases)].  The elapsed time and
    the ETA only feed the progress line and are left out. *)
Definition crawl_step (net : nat -> outcome Details) (st : crawl_state)
    (rel : SourceRelease) : crawl_state :=
  let rg := rel_release_group rel in
  if bool_decide (rel_id rel ∈ processed_rel_ids st) then st
  else
    match rg_id rg with
    | None => st
    | Some g =>
        if negb (str_truthy g) then st
        else
          let n := (processed_this_run st + 1)%Z in
          let r := fetch_json (fun k => net (requests st + k)) in
          let reqs := requests st + gets (snd r) in
          let tr := trace st ++ [Fetch (rel_id rel) (fst r)] in
          match fst r with
          | Some details =>
              if details_truthy details then
                let db := merge_release (final_db st) g rel details in
                let ps := {[ rel_id rel ]} ∪ processed_rel_ids st in
                {| final_db := db;
                   processed_rel_ids := ps;
                   processed_this_run := n;
                   requests := reqs;
                   trace := if (n mod 10 =? 0)%Z then tr ++ [Checkpoint db ps] else tr |}
              else
                {| final_db := final_db st;
                   processed_rel_ids := processed_rel_ids st;
                   processed_this_run := n;
                   requests := reqs;
                   trace := tr |}
          | None =>
              {| final_db := final_db st;
                 processed_rel_ids := processed_rel_ids st;
                 processed_this_run := n;
                 requests := reqs;
                 trace := tr |}
          end
    end.

Definition detail_phase (net : nat -> outcome Details) (all_releases : list SourceRelease)
    (st : crawl_state) : crawl_state :=
  fold_left (crawl_step net) all_releases st.

(** The state the detail phase starts from: the database and the processed
    ids as loaded from the two files. *)
Definition initial_state (db : Database) (processed : gset string) : crawl_state :=
  {| final_db := db;
     processed_rel_ids := processed;
     processed_this_run := 0;
     requests := 0;
     trace := [] |}.

(** [get_all_recordings] from the discovered releases on: the detail phase
    and then the final write. *)
Definition get_all_recordings (net : nat -> outcome Details) (db : Database)
    (processed : gset string) (all_releases : list SourceRelease) : crawl_state :=
  let st := detail_phase net all_releases (initial_state db processed) in
  {| final_db := final_db st;
     processed_rel_ids := processed_rel_ids st;
     processed_this_run := processed_this_run st;
     requests := requests st;
     trace := trace st ++ [FinalWrite (final_db st) (processed_rel_ids st)] |}.

(** *** The file writes of a checkpoint and of the final write *)

Inductive content : Type :=
  | DbJson (db : Database)
  | IdsJson (ids : list string).

(** A file is whole (a finished dump) or torn: opened for writing, hence
    truncated, with its dump not finished. *)
Inductive file : Type :=
  | Whole (c : content)
  | Torn.

Inductive fs_op : Type :=
  | OpenW (path : string)                  (* open(path, w): creates or truncates *)
  | DumpClose (path : string) (c : content)  (* json.dump ran to its end, file closed *)
  | Replace (src dst : string).            (* os.replace(src, dst) *)

Definition apply_op (fs : gmap string file) (op : fs_op) : gmap string file :=
  match op with
  | OpenW path => <[ path := Torn ]> fs
  | DumpClose path c => <[ path := Whole c ]> fs
  | Replace src dst =>
      match fs !! src with
      | Some f => <[ dst := f ]> (delete src fs)
      | None => fs
      end
  end.

Definition tmp_file : string := String.append OUTPUT_FILE ".tmp".

(** Lines 128-132. *)
Definition checkpoint_ops (db : Database) (processed : gset string) : list fs_op :=
  [ OpenW tmp_file;
    DumpClose tmp_file (DbJson db);
    Replace tmp_file OUTPUT_FILE;
    OpenW PROGRESS_FILE;
    DumpClose PROGRESS_FILE (IdsJson (elements processed)) ].

(** Lines 134-137. *)
Definition final_ops (db : Database) (processed : gset string) : list fs_op :=
  [ OpenW OUTPUT_FILE;
    DumpClose OUTPUT_FILE (DbJson db);
    OpenW PROGRESS_FILE;
    DumpClose PROGRESS_FILE (IdsJson (elements processed)) ].

(** The file store when the process dies after [k] of the operations. *)
Definition crash_after (k : nat) (ops : list fs_op) (fs : gmap string file) : gmap string file :=
  fold_left apply_op (take k ops) fs.

End FetchBowieData.

(* ===================================================================== *)
(** ** fetch_bowie_data.py: start-up and discovery                         *)
(* ===================================================================== *)

Module CrawlerStartup.
Import FetchBowieData.

(** *** Loading the two files (lines 35-45) *)

(** What [json.load] gives for a file: a value, a [JSONDecodeError] for a
    torn file, or a value of a shape the crawler's data model does not have
    (a list where the database is expected). *)
Inductive loaded (A : Type) : Type :=
  | Value (a : A)
  | JsonError
  | OtherShape.
Arguments Value {A} a.
Arguments JsonError {A}.
Arguments OtherShape {A}.

(** Lines 35-39: the database, empty when the file does not exist. *)
Definition load_db (fs : gmap string file) : loaded Database :=
  match fs !! OUTPUT_FILE with
  | None => Value od_empty
  | Some Torn => JsonError
  | Some (Whole (DbJson db)) => Value db
  | Some (Whole (IdsJson _)) => OtherShape
  end.

(** Lines 41-45: [set(json.load(f))], the empty set when the file does not
    exist.  The set of a dict is the set of its keys. *)
Definition load_processed (fs : gmap string file) : loaded (gset string) :=
  match fs !! PROGRESS_FILE with
  | None => Value ∅
  | Some Torn => JsonError
  | Some (Whole (IdsJson ids)) => Value (list_to_set ids)
  | Some (Whole (DbJson db)) => Value (list_to_set (od_keys db))
  end.

(** The file writes of an event of the crawl. *)
Definition event_ops (e : event) : list fs_op :=
  match e with
  | Fetch _ _ => []
  | Checkpoint db processed => checkpoint_ops db processed
  | FinalWrite db processed => final_ops db processed
  end.

(** The store after the writes of a trace, all run to their end. *)
Definition store_after (tr : list event) (fs : gmap string file) : gmap string file :=
  fold_left apply_op (flat_map event_ops tr) fs.

(** *** The discovery loop (lines 47-65) *)

(** A body of the list endpoint; [pg_other_keys] as for [Details]. *)
Record Page := {
  pg_releases : option (list SourceRelease);
  pg_other_keys : bool
}.

Definition page_truthy (data : Page) : bool :=
  match pg_releases data with
  | Some _ => true
  | None => pg_other_keys data
  end.

(** [data.get(releases)] is truthy: the key is there with a non-empty list. *)
Definition releases_truthy (data : Page) : bool :=
  match pg_releases data with
  | Some (_ :: _) => true
  | _ => false
  end.

(** [data[releases]] once the test of line 58 has passed. *)
Definition page_batch (data : Page) : list SourceRelease :=
  match pg_releases data with
  | Some batch => batch
  | None => []
  end.

Record discovery_state := {
  ds_all_releases : list SourceRelease;
  ds_offset : Z;
  ds_requests : nat;          (* requests sent so far *)
  ds_offsets : list Z         (* the offsets asked for, oldest first *)
}.

Definition discovery_start : discovery_state :=
  {| ds_all_releases := []; ds_offset := 0; ds_requests := 0; ds_offsets := [] |}.

(** The loop [while True] of lines 50-65, for at most [fuel] rounds:
    [None] when the loop has not ended by then. *)
Fixpoint discover (fuel : nat) (net : nat -> outcome Page) (st : discovery_state)
  : option discovery_state :=
  match fuel with
  | O => None
  | S fuel' =>
      let r := fetch_json (fun k => net (ds_requests st + k)) in
      let reqs := ds_requests st + gets (snd r) in
      let sent := ds_offsets st ++ [ds_offset st] in
      match fst r with
      | Some data =>
          if negb (page_truthy data) || negb (releases_truthy data) then
            Some {| ds_all_releases := ds_all_releases st; ds_offset := ds_offset st;
                    ds_requests := reqs; ds_offsets := sent |}
          else
            let batch := page_batch data in
            let all := ds_all_releases st ++ batch in
            if (Z.of_nat (length batch) <? 100)%Z then
              Some {| ds_all_releases := all; ds_offset := ds_offset st;
                      ds_requests := reqs; ds_offsets := sent |}
            else
              discover fuel' net
                {| ds_all_releases := all; ds_offset := (ds_offset st + 100)%Z;
                   ds_requests := reqs; ds_offsets := sent |}
      | None =>
          Some {| ds_all_releases := ds_all_releases st; ds_offset := ds_offset st;
                  ds_requests := reqs; ds_offsets := sent |}
      end
  end.

End CrawlerStartup.

(* ===================================================================== *)
(** ** supervisor_fetch.py                                                 *)
(* ===================================================================== *)

Module SupervisorFetch.

(** The text the supervisor looks for in the output of the script. *)
Definition COMPLETION_MARKER : string := "Exhaustive fetch complete".

(** How the reading of a run's output ends: the script closes its output
    and exits with a code, or a [KeyboardInterrupt] reaches the supervisor
    while it reads. *)
Inductive run_end : Type :=
  | Exited (return_code : Z)
  | Interrupted.

(** One run of the script: the lines read from it, and how the reading
    ended. *)
Record script_run := {
  run_lines : list string;
  run_ending : run_end
}.

Inductive sup_event : Type :=
  | Launch                    (* subprocess.Popen *)
  | Echo (line : string)      (* sys.stdout.write(line) *)
  | Terminate                 (* process.terminate() *)
  | Pause (seconds : Z).      (* time.sleep *)

(** How [main] ends: [sys.exit] with a code, or by leaving the loop. *)
Inductive sup_exit : Type :=
  | SysExit (code : Z)
  | Returned.

(** [is_complete] after the reading loop of lines 27-34. *)
Definition is_complete (lines : list string) : bool :=
  existsb (fun line => str_in COMPLETION_MARKER line) lines.

(** The loop [while True] of lines 16-45 from its [i]-th round on, for at
    most [fuel] rounds; [runs i] is the [i]-th run of the script.  The
    supervisor's own messages, which carry the time of day, are left out of
    the events. *)
Fixpoint supervise (fuel : nat) (runs : nat -> script_run) (i : nat)
  : option (sup_exit * list sup_event) :=
  match fuel with
  | O => None
  | S fuel' =>
      let run := runs i in
      let read := Launch :: map Echo (run_lines run) in
      match run_ending run with
      | Interrupted => Some (SysExit 0, read ++ [Terminate])
      | Exited _ =>
          if is_complete (run_lines run) then Some (Returned, read)
          else
            match supervise fuel' runs (S i) with
            | Some (e, rest) => Some (e, read ++ Pause 30 :: rest)
            | None => None
            end
      end
  end.

(** [main]: [venv_exists] is the test of line 10. *)
Definition main (venv_exists : bool) (fuel : nat) (runs : nat -> script_run)
  : option (sup_exit * list sup_event) :=
  if negb venv_exists then Some (SysExit 1, [])
  else supervise fuel runs 0.

End SupervisorFetch.

(* ===================================================================== *)
(** * Vocabulary of the statements                                         *)
(* ===================================================================== *)

Import GenerateLookup ProcessLookup FetchBowieData CrawlerStartup SupervisorFetch.

(** ** Ranking and the lookup builder *)

(** [a] comes before [b] in descending order of the key. *)
Definition desc {A : Type} (key : A -> Z) (a b : A) : Prop := (key b <= key a)%Z.

(** The record [r] under the title [t]. *)
Definition retitled (t : string) (r : ReleaseGroupRecord) : ReleaseGroupRecord :=
  {| rgr_title := t;
     rgr_type := rgr_type r;
     rgr_track_count := rgr_track_count r;
     rgr_image_url := rgr_image_url r;
     rgr_tracks := rgr_tracks r |}.

(** The score of a title without the bonus for an image. *)
Definition title_score (t : string) : Z :=
  rg_score EmptyString (retitled t {| rgr_title := t; rgr_type := None; rgr_track_count := 0;
                                      rgr_image_url := None; rgr_tracks := [] |}).

(** The group [data] has a track of recording [r]. *)
Definition contains (r : string) (data : ReleaseGroupRecord) : bool :=
  existsb (fun t => String.eqb (te_id t) r) (rgr_tracks data).

(** The value stored in [release_groups] for a group. *)
Definition rg_entry (data : ReleaseGroupRecord) : RGEntry :=
  (rgr_title data, rgr_image_url data, rgr_track_count data, rgr_type data).

(** The first item of an iteration order whose group contains [r]. *)
Definition first_claim (r : string) (items : list (string * ReleaseGroupRecord))
  : option (string * ReleaseGroupRecord) :=
  List.find (fun item => contains r (snd item)) items.

(** ** Track durations *)

(** The tracks of all groups, in iteration order. *)
Definition all_tracks (items : list (string * ReleaseGroupRecord)) : list TrackEntry :=
  flat_map (fun item => rgr_tracks (snd item)) items.

(** What one track does to [track_durations]. *)
Definition dur_step (d : odict Z) (t : TrackEntry) : odict Z :=
  if str_truthy (te_id t) && int_truthy (te_duration_ms t)
  then od_set (te_id t) (te_duration_ms t) d
  else d.

(** The track is a sighting of recording [r] with a non-zero duration. *)
Definition timed (r : string) (t : TrackEntry) : bool :=
  String.eqb (te_id t) r && int_truthy (te_duration_ms t).

(** The duration of the last timed sighting of [r] among some tracks. *)
Fixpoint last_duration (r : string) (ts : list TrackEntry) : option Z :=
  match ts with
  | [] => None
  | t :: ts' =>
      match last_duration r ts' with
      | Some z => Some z
      | None => if timed r t then Some (te_duration_ms t) else None
      end
  end.

(** The order-independence of the durations map, as C9 words it: whatever
    order the groups are iterated in, the map is the same. *)
Definition durations_order_independent : Prop :=
  forall (full_db : Database) (items : list (string * ReleaseGroupRecord)),
    od_wf full_db ->
    Permutation (sorted_rgs full_db) items ->
    od_equiv (track_durations (build_lookup full_db))
             (track_durations (populate items empty_lookup)).

(** ** The name index *)

(** The key under which a track is indexed: its lower-cased title, when it
    has both a recording id and a title. *)
Definition name_key (t : TrackEntry) : option string :=
  match te_title t with
  | Some name =>
      if str_truthy (te_id t) && str_truthy name then Some (lower name) else None
  | None => None
  end.

(** The (release-group id, track) pairs of a database, in scan order. *)
Definition tagged_tracks (items : list (string * ReleaseGroupRecord))
  : list (string * TrackEntry) :=
  flat_map (fun item => map (fun t => (fst item, t)) (rgr_tracks (snd item))) items.

Definition name_scan (ps : list (string * TrackEntry)) (name_map : NameMap) : NameMap :=
  fold_left (fun nm p => name_step (fst p) nm (snd p)) ps name_map.

(** How often a pair occurs in a candidate list. *)
Definition occurrences (entry : string * string) (l : list (string * string)) : nat :=
  length (List.filter (entry_eqb entry) l).

(** The candidate list a track's key has after the step. *)
Definition extended (e : string * string) (l : list (string * string)) : list (string * string) :=
  if entry_in e l then l else l ++ [e].

Definition lists_distinct (nm : NameMap) : Prop :=
  forall k l, od_get k nm = Some l -> NoDup l.

(** ** The fetcher *)

(** The body an attempt hands back: the response has status 200 and its
    body parses. *)
Definition good_body {B : Type} (o : outcome B) : option B :=
  match o with
  | Response status (Some b) => if (status =? 200)%Z then Some b else None
  | _ => None
  end.

(** The status of the answer is 200. *)
Definition status_200 {B : Type} (o : outcome B) : bool :=
  match o with
  | Response status _ => (status =? 200)%Z
  | Raised => false
  end.

(** What [resp.json()] would give for the answer, [None] when it raises. *)
Definition parsed_body {B : Type} (o : outcome B) : option B :=
  match o with
  | Response _ body => body
  | Raised => None
  end.

(** The result of [fetch_json] as C8 words it: the parsed body of the first
    attempt answered with status 200. *)
Definition returns_body_of_first_200 : Prop :=
  forall (net : nat -> outcome Z) (i : nat),
    i < 5 ->
    status_200 (net i) = true ->
    (forall j, j < i -> status_200 (net j) = false) ->
    fst (fetch_json net) = parsed_body (net i).

(** ** The merge *)

(** The tracks of a detail payload, medium after medium. *)
Definition details_tracks (details : Details) : list Track :=
  flat_map med_tracks (details_media details).

(** The recording ids of a track list. *)
Definition track_ids (tracks : list TrackEntry) : list string := map te_id tracks.

(** The track list after one more track of the release, with the
    membership test read on the list itself. *)
Definition append_track (tracks : list TrackEntry) (track : Track) : list TrackEntry :=
  match rec_id (trk_recording track) with
  | Some id =>
      if str_truthy id && negb (bool_decide (id ∈ track_ids tracks))
      then tracks ++ [entry_of id track]
      else tracks
  | None => tracks
  end.

Definition append_tracks (tracks : list TrackEntry) (ts : list Track) : list TrackEntry :=
  fold_left append_track ts tracks.

(** The set of seen ids is the set of ids of the list being built. *)
Definition acc_consistent (acc : merge_acc) : Prop :=
  existing_track_ids acc = list_to_set (track_ids (acc_tracks acc)).

(** The entries of recording [id] in a track list. *)
Definition sightings (id : string) (tracks : list TrackEntry) : list TrackEntry :=
  List.filter (fun e => String.eqb (te_id e) id) tracks.

(** The track list a group has before a merge: empty when the group is new. *)
Definition tracks_before (old : option ReleaseGroupRecord) : list TrackEntry :=
  match old with
  | Some r => rgr_tracks r
  | None => []
  end.

Definition unique_tracks (db : Database) : Prop :=
  forall g r, od_get g db = Some r -> NoDup (track_ids (rgr_tracks r)).

(** ** The detail phase and its checkpoints *)

(** The release has a release-group id. *)
Definition has_group (rel : SourceRelease) : bool :=
  opt_truthy (rg_id (rel_release_group rel)).

(** What the call of [fetch_json] made in state [st] returns. *)
Definition fetched (net : nat -> outcome Details) (st : crawl_state) : option Details * list effect :=
  fetch_json (fun k => net (requests st + k)).

(** The events one release adds to the trace, from the state before it. *)
Definition step_events (net : nat -> outcome Details) (st : crawl_state) (rel : SourceRelease) : list event :=
  if bool_decide (rel_id rel ∈ processed_rel_ids st) || negb (has_group rel) then []
  else
    let st' := crawl_step net st rel in
    Fetch (rel_id rel) (fst (fetched net st)) ::
    (if fetch_ok (fst (fetched net st)) && (processed_this_run st' mod 10 =? 0)%Z
     then [Checkpoint (final_db st') (processed_rel_ids st')]
     else []).

(** The kind of an event; a fetch with whether it gave a usable body. *)
Inductive tag : Type :=
  | TFetch (ok : bool)
  | TCheckpoint
  | TFinal.

Definition tag_of (e : event) : tag :=
  match e with
  | Fetch _ d => TFetch (fetch_ok d)
  | Checkpoint _ _ => TCheckpoint
  | FinalWrite _ _ => TFinal
  end.

(** The results of the fetches of a trace, in order. *)
Definition outcomes (tr : list event) : list bool :=
  flat_map (fun e => match e with Fetch _ d => [fetch_ok d] | _ => [] end) tr.

Definition is_checkpoint (e : event) : bool :=
  match e with Checkpoint _ _ => true | _ => false end.

Definition is_final (e : event) : bool :=
  match e with FinalWrite _ _ => true | _ => false end.

Definition count_events (p : event -> bool) (tr : list event) : Z :=
  Z.of_nat (length (List.filter p tr)).

(** The kinds of the events of a detail phase whose fetches have the
    results [oks], after [n] earlier fetches: a checkpoint follows a fetch
    when that fetch succeeded and the number of fetches so far, failed ones
    included, is a multiple of 10. *)
Fixpoint periodic (n : Z) (oks : list bool) : list tag :=
  match oks with
  | [] => []
  | ok :: rest =>
      TFetch ok ::
      (if ok && ((n + 1) mod 10 =? 0)%Z then [TCheckpoint] else []) ++
      periodic (n + 1) rest
  end.

(** The successful fetches counted span by span: [fst] holds the spans
    closed by a periodic checkpoint, [snd] the span still open. *)
Definition span_step (s : list Z * Z) (t : tag) : list Z * Z :=
  match t with
  | TFetch ok => (fst s, if ok then (snd s + 1)%Z else snd s)
  | TCheckpoint => (fst s ++ [snd s], 0%Z)
  | TFinal => s
  end.

Definition spans (tr : list event) : list Z :=
  fst (fold_left span_step (map tag_of tr) ([], 0%Z)).

(** The trace of a state has the periodic shape and the counter counts
    its fetches. *)
Definition periodic_state (st : crawl_state) : Prop :=
  processed_this_run st = Z.of_nat (length (outcomes (trace st))) /\
  map tag_of (trace st) = periodic 0 (outcomes (trace st)).

(** The claim of C7 on the spacing of checkpoints, as stated: every span
    closed by a periodic checkpoint holds exactly 10 successful fetches,
    whatever the network does. *)
Definition checkpoint_every_10_successes : Prop :=
  forall (net : nat -> outcome Details) (db : Database) (ps : gset string)
         (releases : list SourceRelease),
    Forall (eq 10%Z) (spans (trace (get_all_recordings net db ps releases))).

(** ** Sample data *)

Definition demo_track (id : string) (ms : Z) : TrackEntry :=
  {| te_id := id; te_title := Some id; te_duration_ms := ms |}.

Definition demo_group (t : string) (tracks : list TrackEntry) : ReleaseGroupRecord :=
  {| rgr_title := t; rgr_type := Some "Album"; rgr_track_count := 0;
     rgr_image_url := None; rgr_tracks := tracks |}.

(** A database whose input order is the reverse of its ranking, with one
    recording shared by both groups under two durations. *)
Definition demo_db : Database :=
  [ ("rg-live", demo_group "Live" [demo_track "rec-1" 2000]);
    ("rg-low", demo_group "Low" [demo_track "rec-1" 1000; demo_track "rec-2" 3000]) ].

Definition named_track (id title : string) : TrackEntry :=
  {| te_id := id; te_title := Some title; te_duration_ms := 0 |}.

(** Two groups with a track named alike up to case, one of them listing
    its recording twice. *)
Definition names_group_a : ReleaseGroupRecord :=
  demo_group "Low" [ named_track "rec-1" "Sound and Vision";
                     named_track "rec-1" "Sound And Vision" ].

Definition names_group_b : ReleaseGroupRecord :=
  demo_group "Best" [ named_track "rec-2" "SOUND AND VISION" ].

Definition names_db : Database := [ ("rg-a", names_group_a); ("rg-b", names_group_b) ].

(** A first answer with status 200 whose body does not parse, then a
    proper one. *)
Definition net_bad_then_good : nat -> outcome Z :=
  fun k => match k with
           | 0 => Response 200 None
           | _ => Response 200 (Some 7%Z)
           end.

Definition digit (n : nat) : ascii := ascii_of_nat (48 + n mod 10).

(** The release ids r001, r002, ... *)
Definition release_name (n : nat) : string :=
  String "r" (String (digit (n / 100)) (String (digit (n / 10)) (String (digit n) EmptyString))).

Definition demo_release (n : nat) : SourceRelease :=
  {| rel_id := release_name n;
     rel_title := "Low";
     rel_release_group := {| rg_id := Some "rg-low"; rg_title := Some "Low";
                             rg_primary_type := Some "Album" |};
     rel_front := true |}.

Definition demo_details : Details :=
  {| det_media :=
       Some [ {| med_tracks :=
                   [ {| trk_title := Some "Speed of Life"; trk_length := Some 167000%Z;
                        trk_recording := {| rec_id := Some "rec-1"; rec_title := None;
                                            rec_length := None |} |} ] |} ];
     det_other_keys := true |}.

(** A network on which every request succeeds. *)
Definition net_ok : nat -> outcome Details :=
  fun _ => Response 200 (Some demo_details).

(** A network whose first five requests fail. *)
Definition net_flaky : nat -> outcome Details :=
  fun k => if Nat.ltb k 5 then Raised else Response 200 (Some demo_details).

Definition demo_releases (n : nat) : list SourceRelease := map demo_release (seq 1 n).

(** Two releases of one group sharing the recording rec-1 under two titles
    and lengths. *)
Definition first_track : Track :=
  {| trk_title := Some "Speed of Life"; trk_length := Some 167000%Z;
     trk_recording := {| rec_id := Some "rec-1"; rec_title := None; rec_length := None |} |}.

Definition later_track : Track :=
  {| trk_title := Some "Speed of Life (2017 remaster)"; trk_length := Some 168000%Z;
     trk_recording := {| rec_id := Some "rec-1"; rec_title := None; rec_length := None |} |}.

Definition details_with (ts : list Track) : Details :=
  {| det_media := Some [ {| med_tracks := ts |} ]; det_other_keys := true |}.

(** ** Fetches that return an empty object *)

(** The fetcher's own success: [fetch_json] returned a body, whatever it
    holds; [None] is its value for unavailable. *)
Definition fetch_returned (details : option Details) : bool :=
  match details with
  | Some _ => true
  | None => false
  end.

(** The claim of C3 on additions, with success read as the fetcher has it:
    a new id is in the processed set after the step of its release exactly
    when the release has a release-group id and [fetch_json] returned a
    body. *)
Definition added_exactly_when_fetched : Prop :=
  forall (net : nat -> outcome Details) (st : crawl_state) (rel : SourceRelease),
    rel_id rel ∉ processed_rel_ids st ->
    (rel_id rel ∈ processed_rel_ids (crawl_step net st rel) <->
     has_group rel = true /\ fetch_returned (fst (fetched net st)) = true).

(** The JSON object without a key. *)
Definition empty_details : Details := {| det_media := None; det_other_keys := false |}.

(** A network that answers every request with status 200 and the empty
    object. *)
Definition net_empty_body : nat -> outcome Details :=
  fun _ => Response 200 (Some empty_details).

(** ** Failed fetches and the checkpoint counter *)

(** The number of successful fetches of a trace: the releases merged. *)
Definition successes (tr : list event) : Z :=
  Z.of_nat (length (List.filter (fun ok : bool => ok) (outcomes tr))).

(** A network on which nine releases in a row are fetched at the first
    request and the five requests for the tenth all fail, again and
    again. *)
Definition net_tenth_fails : nat -> outcome Details :=
  fun k => if Nat.leb 9 (k mod 14) then Raised else Response 200 (Some demo_details).

(** ** Sleeps of the fetcher *)

(** The time slept in some effects, in milliseconds. *)
Definition total_sleep (es : list effect) : Z :=
  fold_right (fun e acc => match e with Sleep ms => (ms + acc)%Z | Get => acc end) 0%Z es.

(** Effects made of rounds: the pacing sleep, the request and, unless the
    round is the last and has no sleep after it, a pause of 3 to 15
    seconds. *)
Inductive paced : list effect -> Prop :=
  | paced_nil : paced []
  | paced_last : paced [Sleep 1100; Get]
  | paced_retry (p : Z) (rest : list effect) :
      (3000 <= p <= 15000)%Z -> paced rest ->
      paced (Sleep 1100 :: Get :: Sleep p :: rest).

(** ** Scores *)

(** The sum of the penalties of a title outside the canonical tier. *)
Definition penalties (title : string) : Z :=
  (penalty "live" title 200 + penalty "collection" title 100 +
   penalty "best of" title 100 + penalty "anthology" title 100 +
   penalty "greatest hits" title 100 +
   (if String.eqb "best" title then 500 else 0))%Z.

(** The bonus for an image. *)
Definition image_bonus (data : ReleaseGroupRecord) : Z :=
  if opt_truthy (rgr_image_url data) then 50%Z else 0%Z.

(** The pause after a failed attempt, by what the attempt met. *)
Definition backoff {B : Type} (attempt : nat) (o : outcome B) : Z :=
  match o with
  | Response status _ =>
      if (status =? 200)%Z then (3000 * (Z.of_nat attempt + 1))%Z
      else if (status =? 503)%Z then 15000%Z
      else 5000%Z
  | Raised => (3000 * (Z.of_nat attempt + 1))%Z
  end.

(** The effects of the round of an attempt. *)
Definition round_effects {B : Type} (net : nat -> outcome B) (attempt : nat) : list effect :=
  Sleep 1100 :: Get ::
  match good_body (net attempt) with
  | Some _ => []
  | None => [Sleep (backoff attempt (net attempt))]
  end.

(** ** The name index, from the database *)

(** Every pair of a list comes from a track among those that [Q] holds of,
    indexed under the key of the list; and no list is empty. *)
Definition name_map_from (Q : string * TrackEntry -> Prop) (nm : NameMap) : Prop :=
  forall k l, od_get k nm = Some l ->
    l <> [] /\
    forall r g, In (r, g) l ->
      exists t, Q (g, t) /\ name_key t = Some k /\ te_id t = r.

(** ** How a record grows *)

(** The track count a group has before a merge: 0 when the group is new. *)
Definition count_before (old : option ReleaseGroupRecord) : Z :=
  match old with
  | Some r => rgr_track_count r
  | None => 0%Z
  end.

(** [r] is [r0] grown: the same title and type, the image of [r0] when it
    had one, the tracks of [r0] with more after them, and a track count
    that is no smaller. *)
Definition grown (r0 r : ReleaseGroupRecord) : Prop :=
  rgr_title r = rgr_title r0 /\
  rgr_type r = rgr_type r0 /\
  (opt_truthy (rgr_image_url r0) = true -> rgr_image_url r = rgr_image_url r0) /\
  (exists added, rgr_tracks r = rgr_tracks r0 ++ added) /\
  (rgr_track_count r0 <= rgr_track_count r)%Z.

(** The ids of the groups of [db] are the first ids of [db'], in the same
    order, and each group of [db] has grown in [db']. *)
Definition db_grown (db db' : Database) : Prop :=
  (exists more, od_keys db' = od_keys db ++ more) /\
  forall g r0, od_get g db = Some r0 -> exists r, od_get g db' = Some r /\ grown r0 r.

(** ** Runs and reruns *)

(** The events the detail phase adds to the trace, from the state it
    starts in. *)
Fixpoint phase_events (net : nat -> outcome Details) (releases : list SourceRelease)
    (st : crawl_state) : list event :=
  match releases with
  | [] => []
  | rel :: rest => step_events net st rel ++ phase_events net rest (crawl_step net st rel)
  end.

(** ** Pages of the discovery *)

(** The number of requests sent before the [i]-th call of [fetch_json]
    of the discovery loop. *)
Fixpoint page_start (net : nat -> outcome Page) (i : nat) : nat :=
  match i with
  | O => 0
  | S j => page_start net j + gets (snd (fetch_json (fun k => net (page_start net j + k))))
  end.

(** What the [i]-th call returns. *)
Definition page_result (net : nat -> outcome Page) (i : nat) : option Page :=
  fst (fetch_json (fun k => net (page_start net i + k))).

(** The page has releases: the test of line 58 lets it through. *)
Definition page_usable (data : option Page) : bool :=
  match data with
  | Some p => page_truthy p && releases_truthy p
  | None => false
  end.

(** The releases the page adds to the collection. *)
Definition page_yield (data : option Page) : list SourceRelease :=
  match data with
  | Some p => if page_truthy p && releases_truthy p then page_batch p else []
  | None => []
  end.

(** The loop goes on after the page: it has releases, 100 or more. *)
Definition page_full (data : option Page) : bool :=
  page_usable data && negb (Z.of_nat (length (page_yield data)) <? 100)%Z.

(** The state of the loop before its [i]-th round, the rounds before
    having gone on. *)
Definition discovery_before (net : nat -> outcome Page) (i : nat) : discovery_state :=
  {| ds_all_releases := flat_map (fun j => page_yield (page_result net j)) (seq 0 i);
     ds_offset := (100 * Z.of_nat i)%Z;
     ds_requests := page_start net i;
     ds_offsets := map (fun j => (100 * Z.of_nat j)%Z) (seq 0 i) |}.

(** The state the loop ends in when its [i]-th round is the last. *)
Definition discovery_end (net : nat -> outcome Page) (i : nat) : discovery_state :=
  {| ds_all_releases := flat_map (fun j => page_yield (page_result net j)) (seq 0 (S i));
     ds_offset := (100 * Z.of_nat i)%Z;
     ds_requests := page_start net (S i);
     ds_offsets := map (fun j => (100 * Z.of_nat j)%Z) (seq 0 (S i)) |}.

(** ** Runs under the supervisor *)

(** The supervisor starts the script again after the run. *)
Definition restarts (run : script_run) : bool :=
  match run_ending run with
  | Exited _ => negb (is_complete (run_lines run))
  | Interrupted => false
  end.

(** The events of reading a run: the launch, and its lines echoed. *)
Definition read_events (run : script_run) : list sup_event :=
  Launch :: map Echo (run_lines run).

(** The events and the exit of the run the supervisor ends with. *)
Definition last_events (run : script_run) : list sup_event :=
  match run_ending run with
  | Exited _ => read_events run
  | Interrupted => read_events run ++ [Terminate]
  end.

Definition exit_after (run : script_run) : sup_exit :=
  match run_ending run with
  | Exited _ => Returned
  | Interrupted => SysExit 0
  end.

(** Two runs that differ in their return code at most. *)
Definition same_but_code (r1 r2 : script_run) : Prop :=
  run_lines r1 = run_lines r2 /\
  (run_ending r1 = Interrupted <-> run_ending r2 = Interrupted).

(** ** Sample runs of the script *)

(** A run that dies before its end, with an exit code. *)
Definition crashed_run : script_run :=
  {| run_lines := ["Fetching all releases for David Bowie (with release-groups)..."];
     run_ending := Exited 1 |}.

(** A run that reaches its last line, the one of line 139 of the crawler. *)
Definition finished_run : script_run :=
  {| run_lines := ["Processing 150 releases to extract all possible MBIDs and Art...";
                   "Exhaustive fetch complete."];
     run_ending := Exited 0 |}.

Definition two_crashes_then_done : nat -> script_run :=
  fun i => if Nat.ltb i 2 then crashed_run else finished_run.

(** ** Sample pages *)

(** A page with the releases number [first] to [first + n - 1]. *)
Definition page_of (first n : nat) : Page :=
  {| pg_releases := Some (map demo_release (seq first n)); pg_other_keys := true |}.

(** A catalog of 150 releases: a page of 100, then a page of 50. *)
Definition net_two_pages : nat -> outcome Page :=
  fun k => match k with
           | 0 => Response 200 (Some (page_of 1 100))
           | _ => Response 200 (Some (page_of 101 50))
           end.

(** A catalog that answers every request with a page of 100. *)
Definition net_full_pages : nat -> outcome Page :=
  fun _ => Response 200 (Some (page_of 1 100)).

(* ===================================================================== *)
(** * Properties                                                           *)
(* ===================================================================== *)

(** ** Dictionaries *)

Section OdictFacts.
Context {V : Type}.
Implicit Types (d : odict V) (k : string) (v : V).

Lemma od_get_set_eq k v d : od_get k (od_set k v d) = Some v.
Proof.
  induction d as [|[k' v'] d IH]; simpl.
  - by rewrite String.eqb_refl.
  - destruct (String.eqb k' k) eqn:E; simpl.
    + by rewrite String.eqb_refl.
    + by rewrite E.
Qed.

Lemma od_get_set_ne k k' v d : k <> k' -> od_get k' (od_set k v d) = od_get k' d.
Proof.
  intros Hne. induction d as [|[k0 v0] d IH]; simpl.
  - apply String.eqb_neq in Hne. by rewrite Hne.
  - destruct (String.eqb k0 k) eqn:E; simpl.
    + apply String.eqb_eq in E. subst k0.
      apply String.eqb_neq in Hne. by rewrite Hne.
    + by rewrite IH.
Qed.

Lemma od_get_set k k' v d :
  od_get k' (od_set k v d) = if String.eqb k k' then Some v else od_get k' d.
Proof.
  destruct (String.eqb k k') eqn:E.
  - apply String.eqb_eq in E. subst. apply od_get_set_eq.
  - apply String.eqb_neq in E. by apply od_get_set_ne.
Qed.

Lemma od_set_set k v w d : od_set k v (od_set k w d) = od_set k v d.
Proof.
  induction d as [|[k' v'] d IH]; simpl.
  - by rewrite String.eqb_refl.
  - destruct (String.eqb k' k) eqn:E; simpl.
    + by rewrite String.eqb_refl.
    + by rewrite E, IH.
Qed.

Lemma od_get_None_keys k d : od_get k d = None <-> ~ In k (od_keys d).
Proof.
  induction d as [|[k' v'] d IH]; simpl.
  - tauto.
  - destruct (String.eqb k' k) eqn:E.
    + apply String.eqb_eq in E. subst. split; [done | tauto].
    + apply String.eqb_neq in E. rewrite IH. tauto.
Qed.

Lemma od_get_In k v d : od_get k d = Some v -> In (k, v) d.
Proof.
  induction d as [|[k' v'] d IH]; simpl; [done|].
  destruct (String.eqb k' k) eqn:E.
  - apply String.eqb_eq in E. intros [= ->]. subst. by left.
  - intros H. right. by apply IH.
Qed.

Lemma od_set_fresh k v d : ~ In k (od_keys d) -> od_set k v d = d ++ [(k, v)].
Proof.
  induction d as [|[k' v'] d IH]; simpl; [done|].
  intros Hn. destruct (String.eqb k' k) eqn:E.
  - apply String.eqb_eq in E. tauto.
  - rewrite IH; [done | tauto].
Qed.

End OdictFacts.

(** ** Truthiness *)

Lemma str_truthy_true s : str_truthy s = true <-> s <> EmptyString.
Proof.
  unfold str_truthy. rewrite negb_true_iff. apply String.eqb_neq.
Qed.

Lemma int_truthy_true z : int_truthy z = true <-> z <> 0%Z.
Proof.
  unfold int_truthy. rewrite negb_true_iff. apply Z.eqb_neq.
Qed.

(** ** The stable descending sort *)

Section SortFacts.
Context {A : Type} (key : A -> Z).

Lemma insert_desc_perm x l : Permutation (x :: l) (insert_desc key x l).
Proof.
  induction l as [|y l IH]; simpl; [done|].
  destruct (key x <? key y)%Z; [|done].
  rewrite perm_swap. by constructor.
Qed.

Lemma sorted_desc_perm l : Permutation l (sorted_desc key l).
Proof.
  induction l as [|x l IH]; simpl; [done|].
  rewrite <- insert_desc_perm. by constructor.
Qed.

Lemma insert_desc_sorted x l :
  StronglySorted (desc key) l -> StronglySorted (desc key) (insert_desc key x l).
Proof.
  induction 1 as [|y l Hl IH Hy]; simpl.
  - repeat constructor.
  - destruct (Z.ltb_spec (key x) (key y)) as [Hlt|Hge].
    + constructor; [done|].
      rewrite <- insert_desc_perm. constructor; [|done].
      unfold desc. lia.
    + constructor; [by constructor|].
      constructor; [done|].
      eapply Forall_impl; [exact Hy|].
      unfold desc. simpl. intros. lia.
Qed.

Lemma sorted_desc_sorted l : StronglySorted (desc key) (sorted_desc key l).
Proof.
  induction l as [|x l IH]; simpl; [constructor|].
  by apply insert_desc_sorted.
Qed.

End SortFacts.

(** ** Canonical ranking *)

Lemma rg_score_retitled i t r :
  rg_score i (retitled t r) =
  (title_score t + if opt_truthy (rgr_image_url r) then 50 else 0)%Z.
Proof.
  unfold title_score, rg_score, retitled. simpl.
  destruct (opt_truthy (rgr_image_url r)); lia.
Qed.

(** C6, as the code has it: with everything but the title alike, Low
    scores above Greatest Hits, and Greatest Hits above Live in Berlin
    (Live), whose penalty of 200 outweighs the 100 of a greatest-hits title;
    sorting the three puts them in that order. *)
Theorem canonical_ranking_of_three_titles (r : ReleaseGroupRecord) (i1 i2 i3 : string) :
  let low := retitled "Low" r in
  let live := retitled "Live in Berlin (Live)" r in
  let hits := retitled "Greatest Hits" r in
  (rg_score i2 live < rg_score i3 hits < rg_score i1 low)%Z /\
  sorted_rgs [(i1, low); (i2, live); (i3, hits)] = [(i1, low); (i3, hits); (i2, live)].
Proof.
  intros low live hits.
  assert (Hlow : rg_score i1 low = (997 + if opt_truthy (rgr_image_url r) then 50 else 0)%Z)
    by (unfold low; rewrite rg_score_retitled; reflexivity).
  assert (Hlive : rg_score i2 live = (-221 + if opt_truthy (rgr_image_url r) then 50 else 0)%Z)
    by (unfold live; rewrite rg_score_retitled; reflexivity).
  assert (Hhits : rg_score i3 hits = (-113 + if opt_truthy (rgr_image_url r) then 50 else 0)%Z)
    by (unfold hits; rewrite rg_score_retitled; reflexivity).
  split; [rewrite Hlow, Hlive, Hhits; lia|].
  unfold sorted_rgs. cbn [sorted_desc insert_desc].
  change (item_score (i2, live)) with (rg_score i2 live).
  change (item_score (i3, hits)) with (rg_score i3 hits).
  rewrite Hlive, Hhits.
  replace (_ <? _)%Z with true by (destruct (opt_truthy (rgr_image_url r)); reflexivity).
  cbn [insert_desc].
  change (item_score (i1, low)) with (rg_score i1 low).
  change (item_score (i3, hits)) with (rg_score i3 hits).
  rewrite Hlow, Hhits.
  destruct (opt_truthy (rgr_image_url r)); reflexivity.
Qed.

(** C6 as stated fails: Live in Berlin (Live) does not score above
    Greatest Hits. *)
Lemma live_title_not_above_greatest_hits :
  let plain t := {| rgr_title := t; rgr_type := None; rgr_track_count := 0;
                    rgr_image_url := None; rgr_tracks := [] |} in
  ~ ((rg_score "a" (plain "Low") > rg_score "b" (plain "Live in Berlin (Live)"))%Z /\
     (rg_score "b" (plain "Live in Berlin (Live)") > rg_score "c" (plain "Greatest Hits"))%Z).
Proof.
  intros plain [_ H]. vm_compute in H. discriminate H.
Qed.

(** ** The lookup builder *)

Lemma tracks_release_groups g ts lk :
  release_groups (fold_left (track_step g) ts lk) = release_groups lk.
Proof.
  revert lk. induction ts as [|t ts IH]; intros lk; simpl; [done|].
  rewrite IH. unfold track_step. by destruct (negb (str_truthy (te_id t))).
Qed.

Lemma tracks_recordings g r ts lk :
  od_get r (recordings (fold_left (track_step g) ts lk)) =
  match od_get r (recordings lk) with
  | Some x => Some x
  | None =>
      if str_truthy r && existsb (fun t => String.eqb (te_id t) r) ts
      then Some g else None
  end.
Proof.
  revert lk. induction ts as [|t ts IH]; intros lk; simpl.
  - rewrite andb_false_r. by destruct (od_get r (recordings lk)).
  - rewrite IH. unfold track_step.
    destruct (str_truthy (te_id t)) eqn:Ht; simpl.
    + unfold od_mem.
      destruct (od_get (te_id t) (recordings lk)) eqn:Hg; simpl.
      * destruct (String.eqb (te_id t) r) eqn:E; simpl; [|done].
        apply String.eqb_eq in E. subst r. by rewrite Hg.
      * rewrite od_get_set.
        destruct (String.eqb (te_id t) r) eqn:E; simpl.
        -- apply String.eqb_eq in E. subst r. by rewrite Hg, Ht.
        -- done.
    + destruct (String.eqb (te_id t) r) eqn:E; simpl; [|done].
      apply String.eqb_eq in E. subst r. rewrite Ht. simpl.
      by destruct (od_get (te_id t) (recordings lk)).
Qed.

Lemma populate_release_groups items lk :
  release_groups (populate items lk) =
  fold_left (fun rgs item => od_set (fst item) (rg_entry (snd item)) rgs)
    items (release_groups lk).
Proof.
  revert lk. unfold populate.
  induction items as [|item items IH]; intros lk; simpl; [done|].
  rewrite IH. unfold group_step. by rewrite tracks_release_groups.
Qed.

Lemma fold_set_fresh (items : list (string * ReleaseGroupRecord)) (rgs : odict RGEntry) :
  NoDup (od_keys rgs ++ od_keys items) ->
  fold_left (fun rgs item => od_set (fst item) (rg_entry (snd item)) rgs) items rgs =
  rgs ++ map (fun item => (fst item, rg_entry (snd item))) items.
Proof.
  revert rgs. induction items as [|item items IH]; intros rgs Hnd; simpl.
  - by rewrite app_nil_r.
  - simpl in Hnd. apply NoDup_app in Hnd as (Hr & Hdisj & Hi).
    rewrite od_set_fresh.
    + rewrite IH.
      * by rewrite <- app_assoc.
      * unfold od_keys. rewrite map_app. simpl.
        rewrite <- app_assoc. simpl.
        apply NoDup_app. split_and!; [done| |done].
        intros x Hx. by apply Hdisj.
    + intros Hin. apply (Hdisj (fst item)); [by apply list_elem_of_In|]. by left.
Qed.

Lemma populate_recordings r items lk :
  od_get r (recordings (populate items lk)) =
  match od_get r (recordings lk) with
  | Some x => Some x
  | None => if str_truthy r then fst <$> first_claim r items else None
  end.
Proof.
  revert lk. unfold populate, first_claim.
  induction items as [|[g data] items IH]; intros lk; simpl.
  - destruct (od_get r (recordings lk)); [done|]. by destruct (str_truthy r).
  - rewrite IH. unfold group_step. rewrite tracks_recordings. simpl.
    destruct (od_get r (recordings lk)); [done|].
    unfold contains.
    destruct (str_truthy r); simpl; [|done].
    by destruct (existsb _ (rgr_tracks data)).
Qed.

Lemma first_claim_split r items item :
  first_claim r items = Some item ->
  exists before after,
    items = before ++ item :: after /\
    contains r (snd item) = true /\
    Forall (fun x => contains r (snd x) = false) before.
Proof.
  unfold first_claim. induction items as [|x items IH]; simpl; [done|].
  destruct (contains r (snd x)) eqn:E.
  - intros [= ->]. by exists [], items.
  - intros H. destruct (IH H) as (before & after & -> & Hc & Hb).
    exists (x :: before), after. split_and!; [done|done|by constructor].
Qed.

Lemma first_claim_some r items item :
  In item items -> contains r (snd item) = true -> is_Some (first_claim r items).
Proof.
  unfold first_claim. intros Hin Hc.
  destruct (List.find _ items) eqn:E; [done|].
  eapply find_none in E; [|exact Hin]. simpl in E. congruence.
Qed.

Lemma StronglySorted_drop_prefix {A : Type} (R : A -> A -> Prop) (l1 l2 : list A) :
  StronglySorted R (l1 ++ l2) -> StronglySorted R l2.
Proof.
  induction l1 as [|x l1 IH]; simpl; [done|].
  intros H. apply StronglySorted_inv in H as [H _]. by apply IH.
Qed.

(** C5: the release groups are emitted in the descending order of their
    scores, and a recording held by several groups maps to the first group
    of that order which has it, whose score no other holder exceeds. *)
Theorem lookup_order_and_first_claim (full_db : Database) :
  od_wf full_db ->
  let out := build_lookup full_db in
  let order := sorted_rgs full_db in
  Permutation full_db order /\
  StronglySorted (desc item_score) order /\
  release_groups out = map (fun item => (fst item, rg_entry (snd item))) order /\
  forall r g data,
    str_truthy r = true -> In (g, data) full_db -> contains r data = true ->
    exists before winner after,
      order = before ++ winner :: after /\
      contains r (snd winner) = true /\
      Forall (fun x => contains r (snd x) = false) before /\
      od_get r (recordings out) = Some (fst winner) /\
      (rg_score g data <= rg_score (fst winner) (snd winner))%Z.
Proof.
  intros Hwf out order.
  assert (Hperm : Permutation full_db order) by apply sorted_desc_perm.
  assert (Hsorted : StronglySorted (desc item_score) order) by apply sorted_desc_sorted.
  split_and!; [done|done| |].
  - unfold out, build_lookup. rewrite populate_release_groups. simpl.
    rewrite fold_set_fresh; [done|]. simpl.
    unfold od_wf, od_keys, order in *. by rewrite <- Hperm.
  - intros r g data Hr Hin Hc.
    assert (Hin' : In (g, data) order).
    { apply list_elem_of_In. rewrite <- Hperm. by apply list_elem_of_In. }
    destruct (first_claim_some r order (g, data) Hin' Hc) as [winner Hw].
    destruct (first_claim_split _ _ _ Hw) as (before & after & Ho & Hcw & Hb).
    exists before, winner, after. split_and!; [done|done|done| |].
    + unfold out, build_lookup. rewrite populate_recordings.
      unfold order in Hw. rewrite Hw, Hr. reflexivity.
    + rewrite Ho in Hin'. apply in_app_or in Hin' as [Hin'|[Heq|Hin']].
      * rewrite Forall_forall in Hb. apply list_elem_of_In in Hin'.
        specialize (Hb _ Hin'). simpl in Hb. congruence.
      * rewrite Heq. simpl. lia.
      * rewrite Ho in Hsorted. apply StronglySorted_drop_prefix in Hsorted.
        apply StronglySorted_inv in Hsorted as [_ Hall].
        rewrite Forall_forall in Hall. apply list_elem_of_In in Hin'.
        apply (Hall _ Hin').
Qed.

Lemma demo_db_wf : od_wf demo_db.
Proof.
  unfold od_wf, demo_db. simpl.
  apply NoDup_cons_2; [|apply NoDup_singleton].
  intros H. apply list_elem_of_singleton in H. discriminate H.
Defined.

Lemma lookup_order_and_first_claim_witness :
  od_wf demo_db /\
  release_groups (build_lookup demo_db) =
    map (fun item => (fst item, rg_entry (snd item))) (sorted_rgs demo_db) /\
  exists before winner after,
    sorted_rgs demo_db = before ++ winner :: after /\
    od_get "rec-1" (recordings (build_lookup demo_db)) = Some (fst winner).
Proof.
  split; [exact demo_db_wf|].
  destruct (lookup_order_and_first_claim demo_db demo_db_wf) as (_ & _ & Hrg & Hrec).
  split; [exact Hrg|].
  destruct (Hrec "rec-1" "rg-live" (demo_group "Live" [demo_track "rec-1" 2000]))
    as (before & winner & after & Ho & _ & _ & Hget & _);
    [reflexivity | by left | reflexivity |].
  by exists before, winner, after.
Defined.

(** ** Track durations *)

Lemma tracks_durations g ts lk :
  track_durations (fold_left (track_step g) ts lk) =
  fold_left dur_step ts (track_durations lk).
Proof.
  revert lk. induction ts as [|t ts IH]; intros lk; simpl; [done|].
  rewrite IH. f_equal. unfold track_step, dur_step.
  by destruct (str_truthy (te_id t)).
Qed.

Lemma populate_durations items lk :
  track_durations (populate items lk) =
  fold_left dur_step (all_tracks items) (track_durations lk).
Proof.
  revert lk. unfold populate, all_tracks.
  induction items as [|item items IH]; intros lk; simpl; [done|].
  rewrite IH, fold_left_app. f_equal.
  unfold group_step. by rewrite tracks_durations.
Qed.

Lemma fold_dur_get r ts d :
  od_get r (fold_left dur_step ts d) =
  match (if str_truthy r then last_duration r ts else None) with
  | Some z => Some z
  | None => od_get r d
  end.
Proof.
  revert d. induction ts as [|t ts IH]; intros d; simpl.
  - by destruct (str_truthy r).
  - rewrite IH. destruct (str_truthy r) eqn:Hr; simpl.
    + destruct (last_duration r ts); [done|].
      unfold dur_step, timed.
      destruct (String.eqb (te_id t) r) eqn:E; simpl.
      * apply String.eqb_eq in E. subst r. rewrite Hr. simpl.
        destruct (int_truthy (te_duration_ms t)); [|done].
        apply od_get_set_eq.
      * destruct (str_truthy (te_id t) && int_truthy (te_duration_ms t)); [|done].
        apply od_get_set_ne. by apply String.eqb_neq.
    + unfold dur_step.
      destruct (str_truthy (te_id t) && int_truthy (te_duration_ms t)) eqn:E; [|done].
      apply od_get_set_ne. intros Heq. rewrite Heq in E.
      apply andb_true_iff in E as [E _]. congruence.
Qed.

Lemma last_duration_Some r ts z :
  last_duration r ts = Some z ->
  exists t, In t ts /\ te_id t = r /\ te_duration_ms t = z /\ z <> 0%Z.
Proof.
  induction ts as [|t ts IH]; simpl; [done|].
  destruct (last_duration r ts) as [z'|].
  - intros [= ->]. destruct (IH eq_refl) as (t' & ? & ? & ? & ?).
    exists t'. split_and!; [by right|done..].
  - destruct (timed r t) eqn:E; [|done]. intros [= <-].
    apply andb_true_iff in E as [E1 E2].
    apply String.eqb_eq in E1. apply int_truthy_true in E2.
    exists t. split_and!; [by left|done..].
Qed.

Lemma last_duration_is_Some r ts :
  is_Some (last_duration r ts) <->
  exists t, In t ts /\ te_id t = r /\ te_duration_ms t <> 0%Z.
Proof.
  split.
  - intros [z Hz]. destruct (last_duration_Some _ _ _ Hz) as (t & ? & ? & ? & ?).
    exists t. split_and!; [done..|congruence].
  - intros (t & Hin & Hid & Hd). induction ts as [|t' ts IH]; simpl; [done|].
    destruct (last_duration r ts) eqn:E; [done|].
    destruct Hin as [->|Hin].
    + unfold timed. apply String.eqb_eq in Hid. apply int_truthy_true in Hd.
      by rewrite Hid, Hd.
    + destruct (IH Hin) as [? ?]. done.
Qed.

Lemma all_tracks_In items t :
  In t (all_tracks items) <->
  exists g data, In (g, data) items /\ In t (rgr_tracks data).
Proof.
  unfold all_tracks. rewrite in_flat_map. split.
  - intros ([g data] & ? & ?). by exists g, data.
  - intros (g & data & ? & ?). by exists (g, data).
Qed.

(** A single value where the timed sightings of a recording agree. *)
Lemma last_duration_agree r ts z :
  (forall t, In t ts -> te_id t = r -> te_duration_ms t <> 0%Z -> te_duration_ms t = z) ->
  is_Some (last_duration r ts) -> last_duration r ts = Some z.
Proof.
  intros Hall [z' Hz']. rewrite Hz'.
  destruct (last_duration_Some _ _ _ Hz') as (t & Hin & Hid & Hd & Hnz).
  f_equal. rewrite <- Hd. apply Hall; [done|done|congruence].
Qed.

Lemma durations_get items r :
  od_get r (track_durations (populate items empty_lookup)) =
  if str_truthy r then last_duration r (all_tracks items) else None.
Proof.
  rewrite populate_durations, fold_dur_get. simpl.
  destruct (str_truthy r); [|done]. by destruct (last_duration _ _).
Qed.

Lemma all_tracks_perm items items' t :
  Permutation items items' -> In t (all_tracks items) -> In t (all_tracks items').
Proof.
  intros Hp. rewrite !all_tracks_In. intros (g & data & Hin & Ht).
  exists g, data. split; [|done]. eapply Permutation_in; eauto.
Qed.

Lemma durations_is_Some items r :
  is_Some (od_get r (track_durations (populate items empty_lookup))) <->
  str_truthy r = true /\
  exists t, In t (all_tracks items) /\ te_id t = r /\ te_duration_ms t <> 0%Z.
Proof.
  rewrite durations_get. destruct (str_truthy r).
  - rewrite last_duration_is_Some. tauto.
  - split; [by intros [? ?] | by intros [? _]].
Qed.

(** C9, as the code has it.  A recording id (a non-empty one: an empty id
    is skipped as no id) has an entry exactly when some group lists it with
    a non-zero duration; every value is such a non-zero duration; the value
    kept is that of the last such sighting in iteration order, each
    assignment overwriting the one before.  So the set of keys does not
    depend on the order of the groups, and the values do not either where
    the non-zero durations of each recording agree. *)
Theorem track_durations_content (full_db : Database) :
  let durations := track_durations (build_lookup full_db) in
  let sighting r z :=
    exists g data t,
      In (g, data) full_db /\ In t (rgr_tracks data) /\
      te_id t = r /\ te_duration_ms t = z in
  (forall r, is_Some (od_get r durations) <->
     str_truthy r = true /\ exists z, z <> 0%Z /\ sighting r z) /\
  (forall r z, od_get r durations = Some z -> z <> 0%Z /\ sighting r z) /\
  (forall r, str_truthy r = true ->
     od_get r durations = last_duration r (all_tracks (sorted_rgs full_db))) /\
  (forall items, Permutation (sorted_rgs full_db) items ->
     forall r, is_Some (od_get r durations) <->
               is_Some (od_get r (track_durations (populate items empty_lookup)))) /\
  (forall items, Permutation (sorted_rgs full_db) items ->
     (forall r z1 z2, z1 <> 0%Z -> z2 <> 0%Z -> sighting r z1 -> sighting r z2 -> z1 = z2) ->
     od_equiv durations (track_durations (populate items empty_lookup))).
Proof.
  intros durations sighting. unfold durations, build_lookup.
  assert (Hperm : Permutation full_db (sorted_rgs full_db)) by apply sorted_desc_perm.
  assert (Hsight : forall items, Permutation (sorted_rgs full_db) items ->
            forall r z, (exists t, In t (all_tracks items) /\ te_id t = r /\ te_duration_ms t = z)
                        <-> sighting r z).
  { intros items Hp r z. split.
    - intros (t & Hin & Hid & Hd).
      apply (all_tracks_perm items full_db) in Hin; [|by rewrite Hperm, Hp].
      apply all_tracks_In in Hin as (g & data & ? & ?). by exists g, data, t.
    - intros (g & data & t & Hin & Ht & Hid & Hd). exists t. split; [|done].
      apply (all_tracks_perm full_db items); [by rewrite Hperm, Hp|].
      apply all_tracks_In. by exists g, data. }
  assert (Hkeys : forall items, Permutation (sorted_rgs full_db) items ->
            forall r, is_Some (od_get r (track_durations (populate items empty_lookup))) <->
                      str_truthy r = true /\ exists z, z <> 0%Z /\ sighting r z).
  { intros items Hp r. rewrite durations_is_Some. split.
    - intros [Hr (t & Hin & Hid & Hd)]. split; [done|].
      exists (te_duration_ms t). split; [done|]. apply (Hsight items Hp). by exists t.
    - intros [Hr (z & Hz & Hs)]. split; [done|].
      apply (Hsight items Hp) in Hs as (t & ? & ? & ?). exists t. split_and!; [done..|congruence]. }
  split_and!.
  - by apply Hkeys.
  - intros r z Hget. rewrite durations_get in Hget.
    destruct (str_truthy r); [|done].
    apply last_duration_Some in Hget as (t & Hin & Hid & Hd & Hz).
    split; [done|]. apply (Hsight (sorted_rgs full_db)); [done|]. by exists t.
  - intros r Hr. by rewrite durations_get, Hr.
  - intros items Hp r. rewrite (Hkeys items Hp). by apply Hkeys.
  - intros items Hp Hagree r.
    destruct (od_get r (track_durations (populate (sorted_rgs full_db) empty_lookup))) as [z|] eqn:E1.
    + assert (Hs : is_Some (od_get r (track_durations (populate items empty_lookup)))).
      { apply (Hkeys items Hp). apply (Hkeys (sorted_rgs full_db)); [done|]. by rewrite E1. }
      destruct Hs as [z' E2]. rewrite E2. f_equal.
      rewrite durations_get in E1, E2. destruct (str_truthy r); [|done].
      apply last_duration_Some in E1 as (t1 & ? & ? & ? & ?).
      apply last_duration_Some in E2 as (t2 & ? & ? & ? & ?).
      apply (Hagree r); [done|done| |].
      * apply (Hsight (sorted_rgs full_db)); [done|]. by exists t1.
      * apply (Hsight items Hp). by exists t2.
    + destruct (od_get r (track_durations (populate items empty_lookup))) as [z'|] eqn:E2; [|done].
      assert (Hs : is_Some (od_get r (track_durations (populate (sorted_rgs full_db) empty_lookup)))).
      { apply (Hkeys (sorted_rgs full_db)); [done|]. apply (Hkeys items Hp). by rewrite E2. }
      rewrite E1 in Hs. by destruct Hs.
Qed.

(** C9 as stated fails: in [demo_db] the recording rec-1 lasts 1000 in one
    group and 2000 in the other; the build keeps the 2000 of the group that
    ranks last, and the reverse order of iteration keeps the 1000. *)
Lemma track_durations_depend_on_order : ~ durations_order_independent.
Proof.
  intros H.
  specialize (H demo_db (rev (sorted_rgs demo_db)) demo_db_wf (Permutation_rev _) "rec-1").
  vm_compute in H. discriminate H.
Qed.

Lemma track_durations_content_witness :
  od_get "rec-1" (track_durations (build_lookup demo_db)) =
    last_duration "rec-1" (all_tracks (sorted_rgs demo_db)) /\
  (is_Some (od_get "rec-2" (track_durations (build_lookup demo_db))) <->
   is_Some (od_get "rec-2" (track_durations (populate (rev (sorted_rgs demo_db)) empty_lookup)))).
Proof.
  destruct (track_durations_content demo_db) as (_ & _ & Hlast & Hkeys & _).
  split.
  - apply Hlast. reflexivity.
  - apply Hkeys. apply Permutation_rev.
Defined.

(** ** The name index *)

Lemma entry_eqb_eq a b : entry_eqb a b = true <-> a = b.
Proof.
  destruct a as [a1 a2], b as [b1 b2]. unfold entry_eqb. simpl.
  rewrite andb_true_iff, !String.eqb_eq. split; [by intros [-> ->] | by intros [= -> ->]].
Qed.

Lemma entry_in_In e l : entry_in e l = true <-> In e l.
Proof.
  unfold entry_in. rewrite existsb_exists. split.
  - intros (x & Hin & Heq). apply entry_eqb_eq in Heq. by subst.
  - intros Hin. exists e. split; [done|]. by apply entry_eqb_eq.
Qed.

Lemma occurrences_NoDup e l : NoDup l -> In e l -> occurrences e l = 1.
Proof.
  unfold occurrences. induction 1 as [|x l Hx Hnd IH]; simpl; [done|].
  intros [->|Hin].
  - replace (entry_eqb e e) with true by (symmetry; by apply entry_eqb_eq).
    simpl. f_equal. apply length_zero_iff_nil.
    destruct (List.filter (entry_eqb e) l) as [|y ys] eqn:E; [done|].
    assert (Hy : In y (List.filter (entry_eqb e) l)) by (rewrite E; by left).
    apply filter_In in Hy as [Hy1 Hy2]. apply entry_eqb_eq in Hy2. subst y.
    exfalso. apply Hx. by apply list_elem_of_In.
  - destruct (entry_eqb e x) eqn:E.
    + apply entry_eqb_eq in E. subst x. exfalso. apply Hx. by apply list_elem_of_In.
    + by apply IH.
Qed.

Lemma process_metadata_scan full_db :
  process_metadata full_db = name_scan (tagged_tracks full_db) od_empty.
Proof.
  unfold process_metadata, name_scan, tagged_tracks. generalize (@od_empty (list (string * string))).
  induction full_db as [|item items IH]; intros nm; simpl; [done|].
  rewrite fold_left_app, IH. f_equal.
  unfold name_group_step. generalize (fst item). intros g.
  revert nm. induction (rgr_tracks (snd item)) as [|t ts IHt]; intros nm; simpl; [done|].
  by rewrite IHt.
Qed.

Lemma name_step_skip g nm t : name_key t = None -> name_step g nm t = nm.
Proof.
  unfold name_key, name_step. destruct (te_title t) as [name|]; [|done].
  destruct (str_truthy (te_id t)), (str_truthy name); simpl; done.
Qed.

Lemma name_step_get g nm t k k' :
  name_key t = Some k ->
  od_get k' (name_step g nm t) =
  if String.eqb k k' then Some (extended (te_id t, g) (candidates k nm)) else od_get k' nm.
Proof.
  unfold name_key, name_step, extended. destruct (te_title t) as [name|]; [|done].
  destruct (str_truthy (te_id t) && str_truthy name) eqn:Hq; [|done].
  intros [= <-]. apply andb_true_iff in Hq as [-> ->]. simpl.
  unfold od_mem, candidates.
  destruct (od_get (lower name) nm) as [l|] eqn:Hl; simpl.
  - rewrite Hl. destruct (entry_in (te_id t, g) l); simpl.
    + destruct (String.eqb (lower name) k') eqn:E; [|done].
      apply String.eqb_eq in E. by subst.
    + apply od_get_set.
  - rewrite od_get_set_eq. simpl. rewrite !od_get_set.
    by destruct (String.eqb (lower name) k').
Qed.

Lemma extended_In e l : In e (extended e l).
Proof.
  unfold extended. destruct (entry_in e l) eqn:E.
  - by apply entry_in_In.
  - apply in_or_app. right. by left.
Qed.

Lemma extended_incl e l x : In x l -> In x (extended e l).
Proof.
  unfold extended. destruct (entry_in e l); [done|]. intros. apply in_or_app. by left.
Qed.

Lemma extended_NoDup e l : NoDup l -> NoDup (extended e l).
Proof.
  unfold extended. destruct (entry_in e l) eqn:E; [done|]. intros Hnd.
  apply NoDup_app. split_and!; [done| |apply NoDup_singleton].
  intros x Hx Hx'. apply list_elem_of_singleton in Hx'. subst x.
  apply list_elem_of_In, entry_in_In in Hx. congruence.
Qed.

Lemma name_step_distinct g nm t : lists_distinct nm -> lists_distinct (name_step g nm t).
Proof.
  intros Hd k' l. destruct (name_key t) as [k|] eqn:Hk.
  - rewrite (name_step_get g nm t k k' Hk).
    destruct (String.eqb k k'); [|apply Hd].
    intros [= <-]. apply extended_NoDup. unfold candidates.
    destruct (od_get k nm) as [l0|] eqn:E; [by apply (Hd k)|constructor].
  - rewrite name_step_skip; [apply Hd|done].
Qed.

Lemma name_step_grows g nm t k l x :
  od_get k nm = Some l -> In x l ->
  exists l', od_get k (name_step g nm t) = Some l' /\ In x l'.
Proof.
  intros Hl Hx. destruct (name_key t) as [k0|] eqn:Hk.
  - rewrite (name_step_get g nm t k0 k Hk).
    destruct (String.eqb k0 k) eqn:E; [|by exists l].
    apply String.eqb_eq in E. subst k0. eexists. split; [done|].
    apply extended_incl. unfold candidates. by rewrite Hl.
  - rewrite name_step_skip; [by exists l|done].
Qed.

Lemma name_scan_distinct ps nm : lists_distinct nm -> lists_distinct (name_scan ps nm).
Proof.
  revert nm. unfold name_scan. induction ps as [|p ps IH]; intros nm Hd; simpl; [done|].
  apply IH. by apply name_step_distinct.
Qed.

Lemma name_scan_grows ps nm k l x :
  od_get k nm = Some l -> In x l ->
  exists l', od_get k (name_scan ps nm) = Some l' /\ In x l'.
Proof.
  revert nm l. unfold name_scan. induction ps as [|p ps IH]; intros nm l Hl Hx; simpl.
  - by exists l.
  - destruct (name_step_grows (fst p) nm (snd p) k l x Hl Hx) as (l' & Hl' & Hx').
    by apply (IH _ l').
Qed.

Lemma name_scan_indexed ps nm g t k :
  In (g, t) ps -> name_key t = Some k ->
  exists l, od_get k (name_scan ps nm) = Some l /\ In (te_id t, g) l.
Proof.
  revert nm. induction ps as [|p ps IH]; intros nm Hin Hk; [done|].
  destruct Hin as [->|Hin].
  - change (name_scan ((g, t) :: ps) nm) with (name_scan ps (name_step g nm t)).
    eapply name_scan_grows.
    + rewrite (name_step_get g nm t k k Hk), String.eqb_refl. done.
    + apply extended_In.
  - change (name_scan (p :: ps) nm) with (name_scan ps (name_step (fst p) nm (snd p))).
    by apply IH.
Qed.

Lemma tagged_tracks_In items g t :
  In (g, t) (tagged_tracks items) <->
  exists data, In (g, data) items /\ In t (rgr_tracks data).
Proof.
  unfold tagged_tracks. rewrite in_flat_map. split.
  - intros ([g' data] & Hin & Ht). simpl in Ht.
    apply in_map_iff in Ht as (t' & [= <- <-] & Ht). by exists data.
  - intros (data & Hin & Ht). exists (g, data). split; [done|].
    simpl. apply in_map_iff. by exists t.
Qed.

Lemma name_key_Some t name :
  str_truthy (te_id t) = true -> te_title t = Some name -> str_truthy name = true ->
  name_key t = Some (lower name).
Proof.
  unfold name_key. by intros -> -> ->.
Qed.

(** C10: every track with a recording id and a title has its (recording
    id, release-group id) pair exactly once in the list of its lower-cased
    title; no list repeats a pair; and tracks of different groups whose
    titles lower-case alike have their pairs in one and the same list. *)
Theorem name_map_complete_and_distinct (full_db : Database) :
  let name_map := process_metadata full_db in
  (forall g data t name,
     In (g, data) full_db -> In t (rgr_tracks data) ->
     str_truthy (te_id t) = true -> te_title t = Some name -> str_truthy name = true ->
     exists l, od_get (lower name) name_map = Some l /\
               occurrences (te_id t, g) l = 1) /\
  (forall k l, od_get k name_map = Some l -> NoDup l) /\
  (forall g1 data1 t1 name1 g2 data2 t2 name2,
     In (g1, data1) full_db -> In t1 (rgr_tracks data1) ->
     str_truthy (te_id t1) = true -> te_title t1 = Some name1 -> str_truthy name1 = true ->
     In (g2, data2) full_db -> In t2 (rgr_tracks data2) ->
     str_truthy (te_id t2) = true -> te_title t2 = Some name2 -> str_truthy name2 = true ->
     lower name1 = lower name2 ->
     exists l, od_get (lower name1) name_map = Some l /\
               In (te_id t1, g1) l /\ In (te_id t2, g2) l).
Proof.
  intros name_map. unfold name_map. rewrite process_metadata_scan.
  assert (Hd : lists_distinct (name_scan (tagged_tracks full_db) od_empty)).
  { apply name_scan_distinct. intros k l. done. }
  assert (Hin : forall g data t name,
     In (g, data) full_db -> In t (rgr_tracks data) ->
     str_truthy (te_id t) = true -> te_title t = Some name -> str_truthy name = true ->
     exists l, od_get (lower name) (name_scan (tagged_tracks full_db) od_empty) = Some l /\
               In (te_id t, g) l).
  { intros g data t name Hg Ht Hid Htitle Hname.
    apply name_scan_indexed.
    - apply tagged_tracks_In. by exists data.
    - by apply name_key_Some. }
  split_and!.
  - intros g data t name Hg Ht Hid Htitle Hname.
    destruct (Hin g data t name) as (l & Hl & Hx); [done..|].
    exists l. split; [done|]. apply occurrences_NoDup; [by apply (Hd _ _ Hl)|done].
  - exact Hd.
  - intros g1 data1 t1 name1 g2 data2 t2 name2 ? ? ? ? ? ? ? ? ? ? Heq.
    destruct (Hin g1 data1 t1 name1) as (l1 & Hl1 & Hx1); [done..|].
    destruct (Hin g2 data2 t2 name2) as (l2 & Hl2 & Hx2); [done..|].
    rewrite <- Heq in Hl2. rewrite Hl1 in Hl2. injection Hl2 as <-.
    by exists l1.
Qed.

Lemma name_map_complete_and_distinct_witness :
  exists l, od_get "sound and vision" (process_metadata names_db) = Some l /\
            In ("rec-1", "rg-a") l /\ In ("rec-2", "rg-b") l.
Proof.
  destruct (name_map_complete_and_distinct names_db) as (_ & _ & H).
  apply (H "rg-a" names_group_a (named_track "rec-1" "Sound and Vision") "Sound and Vision"
           "rg-b" names_group_b (named_track "rec-2" "SOUND AND VISION") "SOUND AND VISION");
    try reflexivity; simpl; auto.
Defined.

(** ** The fetcher *)

Section Fetcher.
Context {B : Type}.
Implicit Types (net : nat -> outcome B).

Lemma good_body_Some (o : outcome B) (b : B) : good_body o = Some b <-> o = Response 200 (Some b).
Proof.
  destruct o as [status [b'|]|]; simpl; try (split; congruence).
  destruct (Z.eqb_spec status 200) as [->|Hne]; split; congruence.
Qed.

Lemma fetch_loop_fst net a rest :
  fst (fetch_loop net (a :: rest)) =
  match good_body (net a) with
  | Some b => Some b
  | None => fst (fetch_loop net rest)
  end.
Proof.
  simpl. destruct (net a) as [status [b|]|]; simpl; [| |done].
  - destruct (status =? 200)%Z; [done|]. by destruct (status =? 503)%Z.
  - destruct (status =? 200)%Z; [done|]. by destruct (status =? 503)%Z.
Qed.

Lemma fetch_loop_gets net a rest :
  gets (snd (fetch_loop net (a :: rest))) =
  match good_body (net a) with
  | Some _ => 1
  | None => S (gets (snd (fetch_loop net rest)))
  end.
Proof.
  simpl. destruct (net a) as [status [b|]|]; simpl; [| |done].
  - destruct (status =? 200)%Z; [done|]. by destruct (status =? 503)%Z.
  - destruct (status =? 200)%Z; [done|]. by destruct (status =? 503)%Z.
Qed.

Lemma fetch_loop_bound net attempts :
  gets (snd (fetch_loop net attempts)) <= length attempts.
Proof.
  induction attempts as [|a rest IH]; [done|].
  rewrite fetch_loop_gets. simpl. destruct (good_body (net a)); lia.
Qed.

Lemma fetch_loop_none net attempts :
  (forall i, In i attempts -> good_body (net i) = None) ->
  fst (fetch_loop net attempts) = None /\
  gets (snd (fetch_loop net attempts)) = length attempts.
Proof.
  induction attempts as [|a rest IH]; intros Hall; [done|].
  rewrite fetch_loop_fst, fetch_loop_gets, (Hall a) by (by left).
  destruct IH as [IH1 IH2]; [intros; apply Hall; by right|].
  simpl. by rewrite IH1, IH2.
Qed.

Lemma fetch_loop_first net before i after b :
  (forall j, In j before -> good_body (net j) = None) ->
  good_body (net i) = Some b ->
  fst (fetch_loop net (before ++ i :: after)) = Some b /\
  gets (snd (fetch_loop net (before ++ i :: after))) = S (length before).
Proof.
  induction before as [|a before IH]; intros Hall Hi.
  - simpl app. by rewrite fetch_loop_fst, fetch_loop_gets, Hi.
  - simpl app. rewrite fetch_loop_fst, fetch_loop_gets, (Hall a) by (by left).
    destruct IH as [IH1 IH2]; [intros; apply Hall; by right|done|].
    simpl. by rewrite IH1, IH2.
Qed.

End Fetcher.

(** C8, as the code has it: [fetch_json] sends at most 5 requests; it
    returns the body of the first attempt that is answered with status 200
    and a body that parses, right after that attempt (a 200 whose body does
    not parse is caught like a failed request and retried); with no such
    attempt among the 5 it returns [None] after the 5 requests.  It always
    returns: no status and no raised request ends it otherwise. *)
Theorem fetch_json_result {B : Type} (net : nat -> outcome B) :
  gets (snd (fetch_json net)) <= 5 /\
  (forall i b,
     i < 5 ->
     net i = Response 200 (Some b) ->
     (forall j b', j < i -> net j <> Response 200 (Some b')) ->
     fst (fetch_json net) = Some b /\ gets (snd (fetch_json net)) = S i) /\
  ((forall i b, i < 5 -> net i <> Response 200 (Some b)) ->
   fst (fetch_json net) = None /\ gets (snd (fetch_json net)) = 5).
Proof.
  unfold fetch_json. split_and!.
  - apply (fetch_loop_bound net (seq 0 5)).
  - intros i b Hi Hnet Hbefore.
    assert (Hsplit : seq 0 5 = seq 0 i ++ i :: seq (S i) (4 - i)).
    { replace 5 with (i + S (4 - i)) at 1 by lia. by rewrite seq_app. }
    rewrite Hsplit.
    destruct (fetch_loop_first net (seq 0 i) i (seq (S i) (4 - i)) b) as [H1 H2].
    + intros j Hj. apply in_seq in Hj.
      destruct (good_body (net j)) as [b'|] eqn:E; [|done].
      apply good_body_Some in E. exfalso. apply (Hbefore j b'); [lia|done].
    + by apply good_body_Some.
    + by rewrite H1, H2, length_seq.
  - intros Hnone. apply (fetch_loop_none net (seq 0 5)).
    intros i Hi. apply in_seq in Hi.
    destruct (good_body (net i)) as [b|] eqn:E; [|done].
    apply good_body_Some in E. exfalso. apply (Hnone i b); [lia|done].
Qed.

(** C8 as stated fails: the first attempt answered with 200 is attempt 0,
    its body does not parse, and the call returns the body of attempt 1. *)
Lemma fetch_json_skips_unparsable_200 : ~ returns_body_of_first_200.
Proof.
  intros H. specialize (H net_bad_then_good 0).
  assert (Hres : fst (fetch_json net_bad_then_good) = Some 7%Z) by reflexivity.
  rewrite Hres in H. simpl in H.
  assert (Hfalse : Some 7%Z = None); [|discriminate Hfalse].
  apply H; [lia|reflexivity|intros j Hj; lia].
Qed.

Lemma fetch_json_result_witness :
  fst (fetch_json net_bad_then_good) = Some 7%Z /\
  gets (snd (fetch_json net_bad_then_good)) = 2.
Proof.
  destruct (fetch_json_result net_bad_then_good) as (_ & H & _).
  apply (H 1 7%Z); [lia | reflexivity |].
  intros j b' Hj. assert (j = 0) as -> by lia. discriminate.
Defined.

(** ** The merge *)

Lemma merge_track_spec acc t :
  acc_consistent acc ->
  acc_consistent (merge_track acc t) /\
  acc_tracks (merge_track acc t) = append_track (acc_tracks acc) t /\
  current_rel_track_count (merge_track acc t) = (current_rel_track_count acc + 1)%Z.
Proof.
  unfold acc_consistent, merge_track, append_track. intros Hc.
  destruct (rec_id (trk_recording t)) as [id|]; [|done].
  rewrite Hc.
  assert (Hdec : bool_decide (id ∈ (list_to_set (track_ids (acc_tracks acc)) : gset string)) =
                 bool_decide (id ∈ track_ids (acc_tracks acc))).
  { apply bool_decide_ext. apply elem_of_list_to_set. }
  rewrite Hdec.
  destruct (str_truthy id && negb (bool_decide (id ∈ track_ids (acc_tracks acc)))); simpl; [|done].
  split_and!; [|done|done].
  unfold track_ids. rewrite map_app, list_to_set_app_L. simpl.
  rewrite (right_id_L ∅ (∪)). apply (comm_L (∪)).
Qed.

Lemma merge_tracks_spec ts acc :
  acc_consistent acc ->
  acc_consistent (fold_left merge_track ts acc) /\
  acc_tracks (fold_left merge_track ts acc) = append_tracks (acc_tracks acc) ts /\
  current_rel_track_count (fold_left merge_track ts acc) =
    (current_rel_track_count acc + Z.of_nat (length ts))%Z.
Proof.
  revert acc. induction ts as [|t ts IH]; intros acc Hc; simpl.
  - split_and!; [done|done|lia].
  - destruct (merge_track_spec acc t Hc) as (Hc' & Ht & Hn).
    destruct (IH _ Hc') as (IH1 & IH2 & IH3).
    split_and!; [done| |].
    + rewrite IH2, Ht. done.
    + rewrite IH3, Hn. lia.
Qed.

Lemma merge_media_flat media acc :
  fold_left merge_medium media acc = fold_left merge_track (flat_map med_tracks media) acc.
Proof.
  revert acc. induction media as [|m media IH]; intros acc; simpl; [done|].
  by rewrite IH, fold_left_app.
Qed.

(** The record after the merge, with the loops read on the track list. *)
Lemma merge_record_spec old rel details :
  let r1 := set_image rel (match old with Some r => r | None => new_record rel end) in
  merge_record old rel details =
  {| rgr_title := rgr_title r1;
     rgr_type := rgr_type r1;
     rgr_track_count := Z.max (rgr_track_count r1) (Z.of_nat (length (details_tracks details)));
     rgr_image_url := rgr_image_url r1;
     rgr_tracks := append_tracks (rgr_tracks r1) (details_tracks details) |}.
Proof.
  intros r1. unfold merge_record. fold r1.
  rewrite merge_media_flat. fold (details_tracks details).
  set (acc0 := {| acc_tracks := rgr_tracks r1;
                  existing_track_ids := list_to_set (map te_id (rgr_tracks r1));
                  current_rel_track_count := 0 |}).
  destruct (merge_tracks_spec (details_tracks details) acc0) as (_ & Ht & Hn); [done|].
  rewrite Ht, Hn. simpl. done.
Qed.

(** *** The track list only grows, and without repeating an id *)

Lemma append_track_prefix tracks t : exists added, append_track tracks t = tracks ++ added.
Proof.
  unfold append_track. destruct (rec_id (trk_recording t)) as [id|].
  - destruct (str_truthy id && _); [by eexists|]. exists []. by rewrite app_nil_r.
  - exists []. by rewrite app_nil_r.
Qed.

Lemma append_tracks_prefix ts tracks : exists added, append_tracks tracks ts = tracks ++ added.
Proof.
  revert tracks. unfold append_tracks.
  induction ts as [|t ts IH]; intros tracks; simpl.
  - exists []. by rewrite app_nil_r.
  - destruct (append_track_prefix tracks t) as [a1 ->].
    destruct (IH (tracks ++ a1)) as [a2 ->].
    exists (a1 ++ a2). by rewrite app_assoc.
Qed.

Lemma append_track_NoDup tracks t :
  NoDup (track_ids tracks) -> NoDup (track_ids (append_track tracks t)).
Proof.
  unfold append_track. intros Hnd.
  destruct (rec_id (trk_recording t)) as [id|]; [|done].
  destruct (str_truthy id); simpl; [|done].
  destruct (bool_decide (id ∈ track_ids tracks)) eqn:E; simpl; [done|].
  apply bool_decide_eq_false in E.
  unfold track_ids in *. rewrite map_app. simpl.
  apply NoDup_app. split_and!; [done| |apply NoDup_singleton].
  intros x Hx Hx'. apply list_elem_of_singleton in Hx'. by subst.
Qed.

Lemma append_tracks_NoDup ts tracks :
  NoDup (track_ids tracks) -> NoDup (track_ids (append_tracks tracks ts)).
Proof.
  revert tracks. unfold append_tracks.
  induction ts as [|t ts IH]; intros tracks Hnd; simpl; [done|].
  by apply IH, append_track_NoDup.
Qed.

(** *** A second pass over the same tracks appends nothing *)

Lemma append_track_noop tracks t :
  (forall id, rec_id (trk_recording t) = Some id -> str_truthy id = true ->
              In id (track_ids tracks)) ->
  append_track tracks t = tracks.
Proof.
  unfold append_track. intros H. destruct (rec_id (trk_recording t)) as [id|]; [|done].
  destruct (str_truthy id) eqn:E; simpl; [|done].
  rewrite bool_decide_eq_true_2; [done|]. apply list_elem_of_In. by apply H.
Qed.

Lemma append_tracks_noop ts tracks :
  (forall t id, In t ts -> rec_id (trk_recording t) = Some id -> str_truthy id = true ->
                In id (track_ids tracks)) ->
  append_tracks tracks ts = tracks.
Proof.
  unfold append_tracks. induction ts as [|t ts IH]; intros H; simpl; [done|].
  rewrite append_track_noop; [|intros; eapply H; eauto; by left].
  apply IH. intros; eapply H; eauto; by right.
Qed.

Lemma track_ids_grow ts tracks id :
  In id (track_ids tracks) -> In id (track_ids (append_tracks tracks ts)).
Proof.
  intros H. destruct (append_tracks_prefix ts tracks) as [added ->].
  unfold track_ids. rewrite map_app. apply in_or_app. by left.
Qed.

Lemma append_track_covers tracks t id :
  rec_id (trk_recording t) = Some id -> str_truthy id = true ->
  In id (track_ids (append_track tracks t)).
Proof.
  unfold append_track. intros -> ->. simpl.
  destruct (bool_decide (id ∈ track_ids tracks)) eqn:E; simpl.
  - apply bool_decide_eq_true in E. by apply list_elem_of_In.
  - unfold track_ids. rewrite map_app. apply in_or_app. right. by left.
Qed.

Lemma append_tracks_cover ts tracks t id :
  In t ts -> rec_id (trk_recording t) = Some id -> str_truthy id = true ->
  In id (track_ids (append_tracks tracks ts)).
Proof.
  revert tracks. induction ts as [|t' ts IH]; intros tracks Hin Hid Hty; [done|].
  change (append_tracks tracks (t' :: ts)) with (append_tracks (append_track tracks t') ts).
  destruct Hin as [->|Hin].
  - apply track_ids_grow. by apply append_track_covers.
  - by apply IH.
Qed.

Lemma append_tracks_idem ts tracks :
  append_tracks (append_tracks tracks ts) ts = append_tracks tracks ts.
Proof.
  apply append_tracks_noop. intros t id Hin Hid Hty. by apply append_tracks_cover with t.
Qed.

(** *** The first sighting of a recording gives its entry *)

Lemma sightings_app id l1 l2 : sightings id (l1 ++ l2) = sightings id l1 ++ sightings id l2.
Proof. apply List.filter_app. Qed.

Lemma sightings_nil id tracks : ~ In id (track_ids tracks) -> sightings id tracks = [].
Proof.
  unfold sightings, track_ids. induction tracks as [|e tracks IH]; simpl; [done|].
  intros H. destruct (String.eqb (te_id e) id) eqn:E.
  - apply String.eqb_eq in E. tauto.
  - apply IH. tauto.
Qed.

Lemma append_track_seen id tracks t :
  In id (track_ids tracks) -> sightings id (append_track tracks t) = sightings id tracks.
Proof.
  unfold append_track. intros Hin.
  destruct (rec_id (trk_recording t)) as [id'|]; [|done].
  destruct (str_truthy id'); simpl; [|done].
  destruct (bool_decide (id' ∈ track_ids tracks)) eqn:E; simpl; [done|].
  apply bool_decide_eq_false in E.
  rewrite sightings_app. simpl.
  destruct (String.eqb id' id) eqn:E'; [|by rewrite app_nil_r].
  apply String.eqb_eq in E'. subst id'. exfalso. apply E. by apply list_elem_of_In.
Qed.

Lemma append_tracks_seen id ts tracks :
  In id (track_ids tracks) -> sightings id (append_tracks tracks ts) = sightings id tracks.
Proof.
  revert tracks. induction ts as [|t ts IH]; intros tracks Hin; [done|].
  change (append_tracks tracks (t :: ts)) with (append_tracks (append_track tracks t) ts).
  rewrite IH.
  - by apply append_track_seen.
  - by apply (track_ids_grow [t]).
Qed.

Lemma append_track_other id tracks t :
  rec_id (trk_recording t) <> Some id ->
  sightings id (append_track tracks t) = sightings id tracks /\
  (~ In id (track_ids tracks) -> ~ In id (track_ids (append_track tracks t))).
Proof.
  unfold append_track. intros Hne.
  destruct (rec_id (trk_recording t)) as [id'|]; [|done].
  destruct (str_truthy id' && negb (bool_decide (id' ∈ track_ids tracks))); [|done].
  assert (id' <> id) by congruence.
  split.
  - rewrite sightings_app. simpl.
    replace (String.eqb id' id) with false by (symmetry; by apply String.eqb_neq).
    by rewrite app_nil_r.
  - unfold track_ids. rewrite map_app. simpl. intros Hn Hin.
    apply in_app_or in Hin as [Hin|[Hin|[]]]; [by apply Hn|done].
Qed.

Lemma append_tracks_first id tracks before t after :
  ~ In id (track_ids tracks) ->
  str_truthy id = true ->
  rec_id (trk_recording t) = Some id ->
  (forall t', In t' before -> rec_id (trk_recording t') <> Some id) ->
  sightings id (append_tracks tracks (before ++ t :: after)) = [entry_of id t].
Proof.
  revert tracks. induction before as [|t' before IH]; intros tracks Hnew Hty Hid Hbefore.
  - simpl app.
    change (append_tracks tracks (t :: after)) with (append_tracks (append_track tracks t) after).
    assert (Hstep : append_track tracks t = tracks ++ [entry_of id t]).
    { unfold append_track. rewrite Hid, Hty. simpl.
      rewrite bool_decide_eq_false_2; [done|]. intros H. by apply Hnew, list_elem_of_In. }
    rewrite append_tracks_seen.
    + rewrite Hstep, sightings_app, (sightings_nil id tracks Hnew). simpl.
      by rewrite String.eqb_refl.
    + rewrite Hstep. unfold track_ids. rewrite map_app. apply in_or_app. right. by left.
  - simpl app.
    change (append_tracks tracks (t' :: before ++ t :: after))
      with (append_tracks (append_track tracks t') (before ++ t :: after)).
    destruct (append_track_other id tracks t') as [_ Hstill]; [apply Hbefore; by left|].
    apply IH; [by apply Hstill|done|done|].
    intros. apply Hbefore. by right.
Qed.

(** *** The database after a merge *)

Lemma set_image_tracks rel r : rgr_tracks (set_image rel r) = rgr_tracks r.
Proof. unfold set_image. by destruct (_ && _). Qed.

Lemma merge_record_tracks old rel details :
  rgr_tracks (merge_record old rel details) =
  append_tracks (tracks_before old) (details_tracks details).
Proof.
  rewrite merge_record_spec. simpl. rewrite set_image_tracks. by destruct old.
Qed.

Lemma merge_release_get db g g' rel details :
  od_get g' (merge_release db g rel details) =
  if String.eqb g g' then Some (merge_record (od_get g db) rel details) else od_get g' db.
Proof. unfold merge_release. apply od_get_set. Qed.

Lemma set_image_settled rel r :
  negb (opt_truthy (rgr_image_url (set_image rel r))) && rel_front rel = false.
Proof.
  unfold set_image.
  destruct (negb (opt_truthy (rgr_image_url r)) && rel_front rel) eqn:E; [|done].
  reflexivity.
Qed.

Lemma set_image_noop rel r :
  negb (opt_truthy (rgr_image_url r)) && rel_front rel = false -> set_image rel r = r.
Proof. unfold set_image. by intros ->. Qed.

Lemma merge_record_image old rel details :
  rgr_image_url (merge_record old rel details) =
  rgr_image_url (set_image rel (match old with Some r => r | None => new_record rel end)).
Proof. by rewrite merge_record_spec. Qed.

Lemma merge_record_idem old rel details :
  merge_record (Some (merge_record old rel details)) rel details =
  merge_record old rel details.
Proof.
  assert (Ht : append_tracks (rgr_tracks (merge_record old rel details))
                 (details_tracks details) = rgr_tracks (merge_record old rel details)).
  { rewrite merge_record_tracks. apply append_tracks_idem. }
  assert (Hc : Z.max (rgr_track_count (merge_record old rel details))
                 (Z.of_nat (length (details_tracks details))) =
               rgr_track_count (merge_record old rel details)).
  { rewrite merge_record_spec. simpl. lia. }
  assert (Hi : set_image rel (merge_record old rel details) = merge_record old rel details).
  { apply set_image_noop. rewrite merge_record_image. apply set_image_settled. }
  rewrite (merge_record_spec (Some _)). cbv zeta. rewrite Hi, Ht, Hc.
  by destruct (merge_record old rel details).
Qed.

Lemma merge_release_unique db g rel details :
  unique_tracks db -> unique_tracks (merge_release db g rel details).
Proof.
  intros Hu g' r. rewrite merge_release_get.
  destruct (String.eqb g g'); [|apply Hu].
  intros [= <-]. rewrite merge_record_tracks. apply append_tracks_NoDup.
  destruct (od_get g db) as [r0|] eqn:E; simpl; [by apply (Hu g)|constructor].
Qed.

(** C2: merging the same release with the same detail a second time leaves
    the database, and so the record of the group, as the first merge made
    it: the same tracks, the same image, the same track count. *)
Theorem merge_release_idempotent (db : Database) (g : string) (rel : SourceRelease)
    (details : Details) :
  let once := merge_release db g rel details in
  let twice := merge_release once g rel details in
  twice = once /\
  od_get g twice = Some (merge_record (od_get g db) rel details) /\
  od_get g once = Some (merge_record (od_get g db) rel details).
Proof.
  intros once twice.
  assert (Hget : od_get g once = Some (merge_record (od_get g db) rel details)).
  { unfold once. by rewrite merge_release_get, String.eqb_refl. }
  assert (Heq : twice = once).
  { unfold twice, merge_release at 1. rewrite Hget, merge_record_idem.
    unfold once, merge_release. apply od_set_set. }
  split_and!; [done| |done]. by rewrite Heq.
Qed.

(** ** The detail phase *)

Section DetailPhase.
Variable net : nat -> outcome Details.

Lemma crawl_step_seen st rel :
  rel_id rel ∈ processed_rel_ids st -> crawl_step net st rel = st.
Proof.
  intros Hin. unfold crawl_step. by rewrite bool_decide_eq_true_2.
Qed.

Lemma crawl_step_no_group st rel :
  has_group rel = false -> crawl_step net st rel = st.
Proof.
  unfold has_group, crawl_step, opt_truthy. intros Hg.
  destruct (bool_decide _); [done|].
  destruct (rg_id (rel_release_group rel)) as [g|]; [|done].
  by rewrite Hg.
Qed.

Lemma crawl_step_failed st rel :
  rel_id rel ∉ processed_rel_ids st ->
  has_group rel = true ->
  fetch_ok (fst (fetched net st)) = false ->
  crawl_step net st rel =
  {| final_db := final_db st;
     processed_rel_ids := processed_rel_ids st;
     processed_this_run := processed_this_run st + 1;
     requests := requests st + gets (snd (fetched net st));
     trace := trace st ++ [Fetch (rel_id rel) (fst (fetched net st))] |}.
Proof.
  unfold has_group, crawl_step, opt_truthy, fetched, fetch_ok. intros Hnew Hg Hfail.
  rewrite bool_decide_eq_false_2 by done.
  destruct (rg_id (rel_release_group rel)) as [g|]; [|done].
  rewrite Hg. simpl.
  destruct (fst (fetch_json _)) as [d|]; [|done].
  by rewrite Hfail.
Qed.

Lemma crawl_step_merged st rel :
  rel_id rel ∉ processed_rel_ids st ->
  has_group rel = true ->
  fetch_ok (fst (fetched net st)) = true ->
  exists g d,
    rg_id (rel_release_group rel) = Some g /\ str_truthy g = true /\
    fst (fetched net st) = Some d /\ details_truthy d = true /\
    crawl_step net st rel =
    {| final_db := merge_release (final_db st) g rel d;
       processed_rel_ids := {[ rel_id rel ]} ∪ processed_rel_ids st;
       processed_this_run := processed_this_run st + 1;
       requests := requests st + gets (snd (fetched net st));
       trace := (trace st ++ [Fetch (rel_id rel) (Some d)]) ++
                (if ((processed_this_run st + 1) mod 10 =? 0)%Z
                 then [Checkpoint (merge_release (final_db st) g rel d)
                         ({[ rel_id rel ]} ∪ processed_rel_ids st)]
                 else []) |}.
Proof.
  unfold has_group, crawl_step, opt_truthy, fetched, fetch_ok. intros Hnew Hg Hok.
  rewrite bool_decide_eq_false_2 by done.
  destruct (rg_id (rel_release_group rel)) as [g|]; [|done].
  rewrite Hg. simpl.
  destruct (fst (fetch_json _)) as [d|]; [|done].
  rewrite Hok. exists g, d. split_and!; [done..|].
  destruct (_ =? 0)%Z; [done|]. by rewrite app_nil_r.
Qed.

(** The three outcomes of a step. *)
Lemma crawl_step_cases st rel :
  let st' := crawl_step net st rel in
  (st' = st /\ step_events net st rel = [] /\
   (rel_id rel ∈ processed_rel_ids st \/ has_group rel = false)) \/
  ((rel_id rel ∉ processed_rel_ids st) /\ has_group rel = true /\
   fetch_ok (fst (fetched net st)) = false /\
   final_db st' = final_db st /\
   processed_rel_ids st' = processed_rel_ids st /\
   processed_this_run st' = (processed_this_run st + 1)%Z /\
   step_events net st rel = [Fetch (rel_id rel) (fst (fetched net st))]) \/
  ((rel_id rel ∉ processed_rel_ids st) /\ has_group rel = true /\
   fetch_ok (fst (fetched net st)) = true /\
   (exists g d, rg_id (rel_release_group rel) = Some g /\ fst (fetched net st) = Some d /\
                final_db st' = merge_release (final_db st) g rel d) /\
   processed_rel_ids st' = {[ rel_id rel ]} ∪ processed_rel_ids st /\
   processed_this_run st' = (processed_this_run st + 1)%Z /\
   step_events net st rel =
     Fetch (rel_id rel) (fst (fetched net st)) ::
     (if (processed_this_run st' mod 10 =? 0)%Z
      then [Checkpoint (final_db st') (processed_rel_ids st')] else [])).
Proof.
  intros st'. unfold st', step_events.
  destruct (decide (rel_id rel ∈ processed_rel_ids st)) as [Hin|Hnew].
  { left. rewrite crawl_step_seen by done. rewrite bool_decide_eq_true_2 by done. auto. }
  destruct (has_group rel) eqn:Hg.
  2:{ left. rewrite crawl_step_no_group by done. rewrite orb_true_r. auto. }
  rewrite bool_decide_eq_false_2 by done. simpl.
  destruct (fetch_ok (fst (fetched net st))) eqn:Hok.
  - right. right.
    destruct (crawl_step_merged st rel Hnew Hg Hok) as (g & d & Hgid & _ & Hd & _ & ->).
    simpl. split_and!; [done..| |done|done|done]. by exists g, d.
  - right. left. rewrite crawl_step_failed by done. simpl. by split_and!.
Qed.

Lemma crawl_step_trace st rel :
  trace (crawl_step net st rel) = trace st ++ step_events net st rel.
Proof.
  unfold step_events.
  destruct (decide (rel_id rel ∈ processed_rel_ids st)) as [Hin|Hnew].
  { rewrite crawl_step_seen by done. rewrite bool_decide_eq_true_2 by done.
    simpl. by rewrite app_nil_r. }
  destruct (has_group rel) eqn:Hg.
  2:{ rewrite crawl_step_no_group by done. rewrite orb_true_r. by rewrite app_nil_r. }
  rewrite bool_decide_eq_false_2 by done. simpl.
  destruct (fetch_ok (fst (fetched net st))) eqn:Hok.
  - destruct (crawl_step_merged st rel Hnew Hg Hok) as (g & d & Hgid & _ & Hd & _ & ->).
    simpl. rewrite Hd. by rewrite <- app_assoc.
  - rewrite crawl_step_failed by done. done.
Qed.

End DetailPhase.

Section ProcessedSet.
Variable net : nat -> outcome Details.

Lemma crawl_step_processed st rel :
  processed_rel_ids (crawl_step net st rel) =
  if negb (bool_decide (rel_id rel ∈ processed_rel_ids st)) && has_group rel
     && fetch_ok (fst (fetched net st))
  then {[ rel_id rel ]} ∪ processed_rel_ids st
  else processed_rel_ids st.
Proof.
  destruct (crawl_step_cases net st rel) as
    [(-> & _ & [Hin|Hg]) | [(Hnew & Hg & Hok & _ & -> & _) | (Hnew & Hg & Hok & _ & -> & _)]].
  - by rewrite bool_decide_eq_true_2.
  - rewrite Hg. by rewrite andb_false_r.
  - by rewrite Hok, andb_false_r.
  - by rewrite bool_decide_eq_false_2, Hg, Hok.
Qed.

Lemma detail_phase_cons rel releases st :
  detail_phase net (rel :: releases) st = detail_phase net releases (crawl_step net st rel).
Proof. reflexivity. Qed.

Lemma detail_phase_grows releases st :
  processed_rel_ids st ⊆ processed_rel_ids (detail_phase net releases st).
Proof.
  revert st. induction releases as [|rel releases IH]; intros st; [done|].
  rewrite detail_phase_cons. etrans; [|apply IH].
  rewrite crawl_step_processed. destruct (_ && _); [apply union_subseteq_r|done].
Qed.

(** The events the detail phase adds, and what they say of the processed
    ids: an id is processed at the end when it was at the start or one of
    its fetches succeeded, and only releases with a group whose id was not
    processed at the start are ever fetched. *)
Lemma detail_phase_events releases st :
  exists evs,
    trace (detail_phase net releases st) = trace st ++ evs /\
    (forall x, x ∈ processed_rel_ids (detail_phase net releases st) <->
               x ∈ processed_rel_ids st \/
               exists d, In (Fetch x d) evs /\ fetch_ok d = true) /\
    (forall x d, In (Fetch x d) evs ->
               (x ∉ processed_rel_ids st) /\
               exists rel, In rel releases /\ rel_id rel = x /\ has_group rel = true).
Proof.
  revert st. induction releases as [|rel releases IH]; intros st.
  - exists []. simpl. rewrite app_nil_r. split_and!; [done| |done].
    intros x. split; [by left|]. by intros [?|(d & [] & _)].
  - rewrite detail_phase_cons.
    destruct (IH (crawl_step net st rel)) as (evs & Htr & Hps & Hev).
    exists (step_events net st rel ++ evs).
    rewrite Htr, crawl_step_trace, <- app_assoc. split; [done|].
    destruct (crawl_step_cases net st rel) as
      [(Hst & Hevs & _) | [(Hnew & Hg & Hok & _ & Hp & _ & Hevs)
                          | (Hnew & Hg & Hok & _ & Hp & _ & Hevs)]].
    + rewrite Hevs. simpl. rewrite Hst in Hps, Hev |- *. split; [done|].
      intros x d Hin. destruct (Hev x d Hin) as (? & rel' & ? & ? & ?).
      split; [done|]. exists rel'. split_and!; [by right|done..].
    + rewrite Hevs. rewrite Hp in Hps, Hev. split.
      * intros x. rewrite Hps. split.
        -- intros [?|(d & Hin & Hd)]; [by left|]. right. exists d. split; [by right|done].
        -- intros [?|(d & [Hin|Hin] & Hd)]; [by left| |right; by exists d].
           injection Hin as <- <-. congruence.
      * intros x d [Hin|Hin].
        -- injection Hin as <- <-. split; [done|]. exists rel. split_and!; [by left|done..].
        -- destruct (Hev x d Hin) as (? & rel' & ? & ? & ?).
           split; [done|]. exists rel'. split_and!; [by right|done..].
    + rewrite Hevs. rewrite Hp in Hps, Hev. split.
      * intros x. rewrite Hps. split.
        -- intros [Hx|(d & Hin & Hd)].
           ++ apply elem_of_union in Hx as [Hx|Hx]; [|by left].
              apply elem_of_singleton in Hx. subst x. right.
              exists (fst (fetched net st)). split; [by left|done].
           ++ right. exists d. split; [|done]. right. apply in_or_app. by right.
        -- intros [?|(d & [Hin|Hin] & Hd)].
           ++ left. apply elem_of_union. by right.
           ++ injection Hin as <- <-. left. apply elem_of_union. left.
              by apply elem_of_singleton.
           ++ apply in_app_or in Hin as [Hin|Hin].
              ** destruct (_ =? 0)%Z; [|done]. by destruct Hin as [|[]].
              ** right. by exists d.
      * intros x d [Hin|Hin].
        -- injection Hin as <- <-. split; [done|]. exists rel. split_and!; [by left|done..].
        -- apply in_app_or in Hin as [Hin|Hin].
           { destruct (_ =? 0)%Z; [|done]. by destruct Hin as [|[]]. }
           destruct (Hev x d Hin) as (Hx & rel' & ? & ? & ?). split.
           ++ intros Hx'. apply Hx. apply elem_of_union. by right.
           ++ exists rel'. split_and!; [by right|done..].
Qed.

End ProcessedSet.

(** C3, with success read as the crawler tests it on line 91
    ([if not details]): a step adds the id of its release to the processed
    set exactly when the id was not in it, the release has a release-group
    id and the detail fetch returned a body that is not the empty object
    ([None] and the empty object are one case to the crawler); a known id
    and a release without a group leave the whole state as it was, so
    nothing is fetched; a fetch that fails in that sense leaves set and
    database as they were; and over a run the set only grows, by the ids
    whose fetch passed the test. *)
Theorem processed_set_discipline (net : nat -> outcome Details) :
  (forall st rel,
     let st' := crawl_step net st rel in
     processed_rel_ids st' =
       (if negb (bool_decide (rel_id rel ∈ processed_rel_ids st)) && has_group rel
           && fetch_ok (fst (fetched net st))
        then {[ rel_id rel ]} ∪ processed_rel_ids st
        else processed_rel_ids st) /\
     (rel_id rel ∈ processed_rel_ids st -> st' = st) /\
     (has_group rel = false -> st' = st) /\
     (rel_id rel ∉ processed_rel_ids st -> has_group rel = true ->
      fetch_ok (fst (fetched net st)) = false ->
      processed_rel_ids st' = processed_rel_ids st /\
      final_db st' = final_db st /\
      trace st' = trace st ++ [Fetch (rel_id rel) (fst (fetched net st))])) /\
  (forall releases st,
     processed_rel_ids st ⊆ processed_rel_ids (detail_phase net releases st)) /\
  (forall db ps releases,
     let final := get_all_recordings net db ps releases in
     (forall x, x ∈ processed_rel_ids final <->
                x ∈ ps \/ exists d, In (Fetch x d) (trace final) /\ fetch_ok d = true) /\
     (forall x d, In (Fetch x d) (trace final) ->
                (x ∉ ps) /\
                exists rel, In rel releases /\ rel_id rel = x /\ has_group rel = true)).
Proof.
  split_and!.
  - intros st rel st'. split_and!.
    + apply crawl_step_processed.
    + apply crawl_step_seen.
    + apply crawl_step_no_group.
    + intros Hnew Hg Hfail. unfold st'. by rewrite crawl_step_failed.
  - intros releases st. apply detail_phase_grows.
  - intros db ps releases final.
    destruct (detail_phase_events net releases (initial_state db ps)) as (evs & Htr & Hps & Hev).
    simpl in Htr, Hps, Hev.
    assert (Hin : forall x d, In (Fetch x d) (trace final) <-> In (Fetch x d) evs).
    { intros x d. unfold final, get_all_recordings. simpl. rewrite Htr, in_app_iff.
      split; [|by left]. by intros [?|[?|[]]]. }
    split.
    + intros x. unfold final at 1, get_all_recordings. simpl. rewrite Hps.
      split.
      * intros [?|(d & Hd & ?)]; [by left|]. right. exists d.
        split; [by apply (proj2 (Hin x d))|done].
      * intros [?|(d & Hd & ?)]; [by left|]. right. exists d.
        split; [by apply (proj1 (Hin x d))|done].
    + intros x d Hx. apply (proj1 (Hin x d)) in Hx. exact (Hev x d Hx).
Qed.

(** ** Checkpoints *)

Lemma periodic_app n l1 l2 :
  periodic n (l1 ++ l2) = periodic n l1 ++ periodic (n + Z.of_nat (length l1)) l2.
Proof.
  revert n. induction l1 as [|ok l1 IH]; intros n.
  - simpl. by rewrite Z.add_0_r.
  - cbn [app periodic length]. rewrite IH, <- app_assoc.
    replace (n + 1 + Z.of_nat (length l1))%Z with (n + Z.of_nat (S (length l1)))%Z by lia.
    reflexivity.
Qed.

Lemma outcomes_app l1 l2 : outcomes (l1 ++ l2) = outcomes l1 ++ outcomes l2.
Proof. unfold outcomes. apply flat_map_app. Qed.

Section Checkpoints.
Variable net : nat -> outcome Details.

Lemma crawl_step_periodic st rel :
  periodic_state st -> periodic_state (crawl_step net st rel).
Proof.
  intros [Hn Hshape]. unfold periodic_state.
  rewrite crawl_step_trace, outcomes_app, map_app, periodic_app, length_app, <- Hshape, <- Hn.
  rewrite Z.add_0_l.
  destruct (crawl_step_cases net st rel) as
    [(-> & -> & _) | [(_ & _ & Hok & _ & _ & -> & ->) | (_ & _ & Hok & _ & _ & Hn' & ->)]].
  - simpl. split; [lia|done].
  - simpl. rewrite Hok. simpl. split; [lia|done].
  - rewrite Hn'.
    destruct ((processed_this_run st + 1) mod 10 =? 0)%Z eqn:E;
      simpl; rewrite Hok; simpl; rewrite ?E; (split; [lia|done]).
Qed.

Lemma detail_phase_periodic releases st :
  periodic_state st -> periodic_state (detail_phase net releases st).
Proof.
  revert st. induction releases as [|rel releases IH]; intros st Hst; [done|].
  apply IH. by apply crawl_step_periodic.
Qed.

End Checkpoints.

(** *** Runs without a failed fetch *)

Lemma periodic_all_ok oks n closed :
  Forall (eq true) oks ->
  (0 <= n)%Z ->
  Forall (eq 10%Z) closed ->
  Forall (eq 10%Z) (fst (fold_left span_step (periodic n oks) (closed, (n mod 10)%Z))) /\
  snd (fold_left span_step (periodic n oks) (closed, (n mod 10)%Z)) =
    ((n + Z.of_nat (length oks)) mod 10)%Z /\
  Z.of_nat (length (fst (fold_left span_step (periodic n oks) (closed, (n mod 10)%Z)))) =
    (Z.of_nat (length closed) + (n + Z.of_nat (length oks)) / 10 - n / 10)%Z.
Proof.
  revert n closed. induction oks as [|ok oks IH]; intros n closed Hall Hn Hclosed.
  - simpl. rewrite Z.add_0_r. split_and!; [done|done|lia].
  - apply Forall_cons in Hall as [<- Hall].
    assert (Hlen : (n + Z.of_nat (length (true :: oks)) = n + 1 + Z.of_nat (length oks))%Z)
      by (simpl length; lia).
    rewrite Hlen. cbn [periodic andb fold_left app span_step fst snd].
    destruct ((n + 1) mod 10 =? 0)%Z eqn:E; cbn [fold_left app span_step fst snd].
    + apply Z.eqb_eq in E.
      assert (Hcur : (n mod 10 + 1 = 10)%Z) by (Z.div_mod_to_equations; lia).
      rewrite Hcur.
      pose proof (IH (n + 1)%Z (closed ++ [10%Z])) as IH'. rewrite E in IH'.
      destruct IH' as (H1 & H2 & H3);
        [done|lia|by apply Forall_app; split; [|repeat constructor]|].
      split_and!; [done|done|].
      rewrite H3, length_app. simpl length.
      Z.div_mod_to_equations; lia.
    + apply Z.eqb_neq in E.
      assert (Hcur : (n mod 10 + 1 = (n + 1) mod 10)%Z) by (Z.div_mod_to_equations; lia).
      rewrite Hcur.
      destruct (IH (n + 1)%Z closed) as (H1 & H2 & H3); [done|lia|done|].
      split_and!; [done|done|].
      rewrite H3.
      Z.div_mod_to_equations; lia.
Qed.

Lemma periodic_no_final n oks : ~ In TFinal (periodic n oks).
Proof.
  revert n. induction oks as [|ok oks IH]; intros n; simpl; [tauto|].
  intros [H|H]; [done|]. apply in_app_or in H as [H|H]; [|by apply (IH (n + 1)%Z)].
  destruct (ok && _); [by destruct H as [|[]]|done].
Qed.

Lemma no_final_count tr : ~ In TFinal (map tag_of tr) -> count_events is_final tr = 0%Z.
Proof.
  unfold count_events. induction tr as [|e tr IH]; simpl; [done|].
  intros H. destruct e; simpl in *; [apply IH; tauto|apply IH; tauto|tauto].
Qed.

Lemma count_events_app p l1 l2 :
  count_events p (l1 ++ l2) = (count_events p l1 + count_events p l2)%Z.
Proof. unfold count_events. rewrite List.filter_app, length_app. lia. Qed.

Lemma span_fold_length tags s :
  length (fst (fold_left span_step tags s)) =
  length (fst s) + length (List.filter (fun t => match t with TCheckpoint => true | _ => false end) tags).
Proof.
  revert s. induction tags as [|t tags IH]; intros s; simpl; [lia|].
  rewrite IH. destruct t; simpl; [lia| |lia]. rewrite length_app. simpl. lia.
Qed.

Lemma spans_length tr : Z.of_nat (length (spans tr)) = count_events is_checkpoint tr.
Proof.
  unfold spans, count_events. rewrite span_fold_length. simpl. f_equal.
  induction tr as [|e tr IH]; simpl; [done|]. destruct e; simpl; by rewrite ?IH.
Qed.

Lemma spans_final tr db ps : spans (tr ++ [FinalWrite db ps]) = spans tr.
Proof. unfold spans. by rewrite map_app, fold_left_app. Qed.

(** Where the checkpoints of a run are.  The counter that triggers them
    counts the releases whose detail was fetched: a periodic checkpoint of
    the database and the processed set as they then are is written right
    after a successful fetch when that count is a multiple of 10.  The run
    ends with one final write of the final state.  When no fetch of the run
    fails, every span between periodic checkpoints holds exactly 10
    successes, and there is one checkpoint for every 10 releases
    processed. *)
Theorem checkpoints_follow_fetch_count (net : nat -> outcome Details) (db : Database)
    (ps : gset string) (releases : list SourceRelease) :
  let run := get_all_recordings net db ps releases in
  let phase := detail_phase net releases (initial_state db ps) in
  (forall st rel, trace (crawl_step net st rel) = trace st ++ step_events net st rel) /\
  trace run = trace phase ++ [FinalWrite (final_db phase) (processed_rel_ids phase)] /\
  map tag_of (trace phase) = periodic 0 (outcomes (trace phase)) /\
  count_events is_final (trace run) = 1%Z /\
  processed_this_run run = Z.of_nat (length (outcomes (trace run))) /\
  (Forall (eq true) (outcomes (trace run)) ->
   Forall (eq 10%Z) (spans (trace run)) /\
   count_events is_checkpoint (trace run) = (processed_this_run run / 10)%Z).
Proof.
  intros run phase.
  assert (Hper : periodic_state phase).
  { apply detail_phase_periodic. split; reflexivity. }
  destruct Hper as [Hn Hshape].
  assert (Htr : trace run = trace phase ++ [FinalWrite (final_db phase) (processed_rel_ids phase)])
    by reflexivity.
  assert (Hout : outcomes (trace run) = outcomes (trace phase)).
  { rewrite Htr, outcomes_app. simpl. by rewrite app_nil_r. }
  split_and!.
  - apply crawl_step_trace.
  - done.
  - done.
  - rewrite Htr, count_events_app, no_final_count; [done|].
    rewrite Hshape. apply periodic_no_final.
  - by rewrite Hout.
  - intros Hall. rewrite Hout in Hall.
    destruct (periodic_all_ok (outcomes (trace phase)) 0 [] Hall) as (H1 & _ & H3);
      [lia|constructor|].
    rewrite Htr, spans_final, count_events_app, <- spans_length.
    unfold spans. rewrite Hshape. split; [done|].
    change (0 mod 10)%Z with 0%Z in H3. rewrite H3.
    change (processed_this_run run) with (processed_this_run phase). rewrite Hn.
    simpl length. rewrite Z.add_0_l, Z.add_0_r.
    change (0 / 10)%Z with 0%Z. change (Z.of_nat 0) with 0%Z.
    replace (0 + Z.of_nat (length (outcomes (trace phase))))%Z
      with (Z.of_nat (length (outcomes (trace phase)))) by lia.
    lia.
Qed.

(** *** Sample runs *)

(** With ten releases of which the first cannot be fetched, the checkpoint
    comes at the tenth release, after 9 successes: not every span holds 10. *)
Lemma checkpoint_after_nine_successes : ~ checkpoint_every_10_successes.
Proof.
  intros H. specialize (H net_flaky [] ∅ (demo_releases 10)).
  assert (Hspans : spans (trace (get_all_recordings net_flaky [] ∅ (demo_releases 10))) = [9%Z])
    by (vm_compute; reflexivity).
  rewrite Hspans in H. apply Forall_cons in H as [H _]. discriminate H.
Qed.

Lemma all_true_forallb (l : list bool) : forallb (fun b => b) l = true -> Forall (eq true) l.
Proof.
  induction l as [|b l IH]; simpl; [constructor|].
  intros H. apply andb_true_iff in H as [-> H]. constructor; [done|by apply IH].
Qed.

(** A run over 150 releases without a failure: 15 periodic checkpoints and
    the final write. *)
Lemma checkpoints_follow_fetch_count_witness :
  let run := get_all_recordings net_ok [] ∅ (demo_releases 150) in
  Forall (eq true) (outcomes (trace run)) /\
  processed_this_run run = 150%Z /\
  Forall (eq 10%Z) (spans (trace run)) /\
  count_events is_checkpoint (trace run) = 15%Z /\
  count_events is_final (trace run) = 1%Z.
Proof.
  intros run.
  assert (Hall : Forall (eq true) (outcomes (trace run))).
  { apply all_true_forallb. vm_compute. reflexivity. }
  assert (Hn : processed_this_run run = 150%Z) by (vm_compute; reflexivity).
  destruct (checkpoints_follow_fetch_count net_ok [] ∅ (demo_releases 150))
    as (_ & _ & _ & Hfinal & _ & Hspans).
  destruct (Hspans Hall) as [H10 Hcount].
  fold run in Hcount, Hfinal. rewrite Hn in Hcount.
  split_and!; [done|done|done|exact Hcount|exact Hfinal].
Defined.

Lemma processed_set_discipline_witness :
  let st := initial_state [] {[ release_name 1 ]} in
  crawl_step net_ok st (demo_release 1) = st /\
  processed_rel_ids (crawl_step net_ok (initial_state [] ∅) (demo_release 1)) =
    {[ release_name 1 ]} ∪ ∅.
Proof.
  intros st. destruct (processed_set_discipline net_ok) as (Hstep & _). split.
  - destruct (Hstep st (demo_release 1)) as (_ & Hseen & _).
    apply Hseen. unfold st. simpl. apply elem_of_singleton_2. reflexivity.
  - destruct (Hstep (initial_state [] ∅) (demo_release 1)) as (Heq & _).
    exact Heq.
Defined.

(** C3 as stated fails: a detail request answered with status 200 and the
    empty object is a fetch that succeeded, [fetch_json] returns the body,
    and yet the id of the release is not added. *)
Lemma empty_body_is_not_processed : ~ added_exactly_when_fetched.
Proof.
  intros H.
  specialize (H net_empty_body (initial_state [] ∅) (demo_release 1)).
  assert (Hnew : rel_id (demo_release 1) ∉ processed_rel_ids (initial_state [] ∅))
    by apply not_elem_of_empty.
  apply H in Hnew as [_ Hadd].
  assert (Hin : rel_id (demo_release 1) ∈
                processed_rel_ids (crawl_step net_empty_body (initial_state [] ∅) (demo_release 1))).
  { apply Hadd. split; reflexivity. }
  assert (Hps : processed_rel_ids (crawl_step net_empty_body (initial_state [] ∅) (demo_release 1)) = ∅).
  { assert (Hok : fetch_ok (fst (fetched net_empty_body (initial_state [] ∅))) = false)
      by reflexivity.
    rewrite crawl_step_processed, Hok. by rewrite andb_false_r. }
  rewrite Hps in Hin. by apply not_elem_of_empty in Hin.
Qed.

(** *** Failed fetches count towards the ten *)

Lemma periodic_no_checkpoint n oks :
  (forall i, ((n + Z.of_nat i + 1) mod 10 = 0)%Z -> nth i oks false = false) ->
  ~ In TCheckpoint (periodic n oks).
Proof.
  revert n. induction oks as [|ok oks IH]; intros n Hten; simpl; [tauto|].
  intros [H|H]; [done|]. apply in_app_or in H as [H|H].
  - destruct ok; simpl in H; [|done].
    destruct ((n + 1) mod 10 =? 0)%Z eqn:E; [|done]. apply Z.eqb_eq in E.
    specialize (Hten 0). simpl in Hten. rewrite Z.add_0_r in Hten. by specialize (Hten E).
  - apply (IH (n + 1)%Z); [|done]. intros i Hi. apply (Hten (S i)).
    by replace (n + Z.of_nat (S i) + 1)%Z with (n + 1 + Z.of_nat i + 1)%Z by lia.
Qed.

Lemma no_checkpoint_count tr :
  ~ In TCheckpoint (map tag_of tr) -> count_events is_checkpoint tr = 0%Z.
Proof.
  unfold count_events. induction tr as [|e tr IH]; simpl; [done|].
  intros H. destruct e; simpl in *; [apply IH; tauto|tauto|apply IH; tauto].
Qed.

(** C7 on the code: the counter that triggers the checkpoints is raised on
    line 83, before the fetch, and the test of line 127 is reached by a
    successful fetch only.  So the counter counts the fetches of the run,
    failed ones included, a checkpoint follows a fetch when that fetch
    succeeded and the count is a multiple of 10, and a run in which every
    tenth fetch fails writes no periodic checkpoint at all, however many
    releases it merges.  The final write is made once in every run. *)
Theorem failed_fetches_disturb_checkpoints (net : nat -> outcome Details) (db : Database)
    (ps : gset string) (releases : list SourceRelease) :
  let run := get_all_recordings net db ps releases in
  let oks := outcomes (trace run) in
  (forall st rel,
     rel_id rel ∉ processed_rel_ids st -> has_group rel = true ->
     let st' := crawl_step net st rel in
     processed_this_run st' = (processed_this_run st + 1)%Z /\
     trace st' = trace st ++
       Fetch (rel_id rel) (fst (fetched net st)) ::
       (if fetch_ok (fst (fetched net st)) && (processed_this_run st' mod 10 =? 0)%Z
        then [Checkpoint (final_db st') (processed_rel_ids st')]
        else [])) /\
  processed_this_run run = Z.of_nat (length oks) /\
  ((forall i, ((Z.of_nat i + 1) mod 10 = 0)%Z -> nth i oks false = false) ->
   count_events is_checkpoint (trace run) = 0%Z) /\
  count_events is_final (trace run) = 1%Z.
Proof.
  intros run oks.
  set (phase := detail_phase net releases (initial_state db ps)).
  assert (Hper : periodic_state phase).
  { apply detail_phase_periodic. split; reflexivity. }
  destruct Hper as [Hn Hshape].
  assert (Htr : trace run = trace phase ++ [FinalWrite (final_db phase) (processed_rel_ids phase)])
    by reflexivity.
  assert (Hout : oks = outcomes (trace phase)).
  { unfold oks. rewrite Htr, outcomes_app. simpl. by rewrite app_nil_r. }
  split_and!.
  - intros st rel Hnew Hg st'. split.
    + unfold st'.
      destruct (crawl_step_cases net st rel) as
        [(_ & _ & [Hin|Hg']) | [(_ & _ & _ & _ & _ & -> & _) | (_ & _ & _ & _ & _ & -> & _)]];
        [done|congruence|done|done].
    + unfold st'. rewrite crawl_step_trace. unfold step_events.
      rewrite bool_decide_eq_false_2 by done. by rewrite Hg.
  - by rewrite Hout.
  - intros Hten. rewrite Htr, count_events_app. rewrite no_checkpoint_count; [done|].
    rewrite Hshape, <- Hout. apply periodic_no_checkpoint.
    intros i Hi. apply Hten. by rewrite Z.add_0_l in Hi.
  - rewrite Htr, count_events_app, no_final_count; [done|].
    rewrite Hshape. apply periodic_no_final.
Qed.

(** Thirty releases of which the tenth, the twentieth and the thirtieth
    cannot be fetched: 27 releases are merged and no periodic checkpoint is
    written, where one after every 10 successes would give two. *)
Lemma failed_fetches_disturb_checkpoints_witness :
  let run := get_all_recordings net_tenth_fails [] ∅ (demo_releases 30) in
  successes (trace run) = 27%Z /\
  count_events is_checkpoint (trace run) = 0%Z /\
  count_events is_checkpoint (trace run) <> (successes (trace run) / 10)%Z /\
  count_events is_final (trace run) = 1%Z.
Proof.
  intros run.
  assert (Hs : successes (trace run) = 27%Z) by (vm_compute; reflexivity).
  assert (Hoks : outcomes (trace run) =
                 flat_map (fun _ => repeat true 9 ++ [false]) (seq 0 3))
    by (vm_compute; reflexivity).
  destruct (failed_fetches_disturb_checkpoints net_tenth_fails [] ∅ (demo_releases 30))
    as (_ & _ & Hnone & Hfinal).
  fold run in Hnone, Hfinal.
  assert (Hc : count_events is_checkpoint (trace run) = 0%Z).
  { apply Hnone. rewrite Hoks. intros i Hi.
    do 30 (destruct i as [|i]; [first [reflexivity | vm_compute in Hi; discriminate Hi]|]).
    by destruct i. }
  split_and!; [done|done| |done].
  rewrite Hc, Hs. discriminate.
Defined.

(** ** Unique recording ids *)

Lemma crawl_step_unique net st rel :
  unique_tracks (final_db st) -> unique_tracks (final_db (crawl_step net st rel)).
Proof.
  intros Hu.
  destruct (crawl_step_cases net st rel) as
    [(-> & _) | [(_ & _ & _ & -> & _) | (_ & _ & _ & (g & d & _ & _ & ->) & _)]];
    [done|done|].
  by apply merge_release_unique.
Qed.

Lemma detail_phase_unique net releases st :
  unique_tracks (final_db st) -> unique_tracks (final_db (detail_phase net releases st)).
Proof.
  revert st. induction releases as [|rel releases IH]; intros st Hu; [done|].
  apply IH. by apply crawl_step_unique.
Qed.

(** C1: no track list repeats a recording id.  The empty database has the
    property, every merge keeps it, and so does a whole run.  A merge
    leaves the entries a group already has as they are and in place,
    adding new ones after them.  When a release brings a recording the
    group did not have, and a second release of the group is merged after
    it, the group has exactly one entry for the recording: the one made
    from the first track of the first release that has it. *)
Theorem track_ids_stay_unique :
  unique_tracks od_empty /\
  (forall db g rel details,
     unique_tracks db -> unique_tracks (merge_release db g rel details)) /\
  (forall net db ps releases,
     unique_tracks db ->
     unique_tracks (final_db (get_all_recordings net db ps releases))) /\
  (forall db g rel details,
     exists r added,
       od_get g (merge_release db g rel details) = Some r /\
       rgr_tracks r = tracks_before (od_get g db) ++ added) /\
  (forall db g rel1 details1 rel2 details2 id before t after,
     ~ In id (track_ids (tracks_before (od_get g db))) ->
     str_truthy id = true ->
     details_tracks details1 = before ++ t :: after ->
     rec_id (trk_recording t) = Some id ->
     (forall t', In t' before -> rec_id (trk_recording t') <> Some id) ->
     exists r,
       od_get g (merge_release (merge_release db g rel1 details1) g rel2 details2) = Some r /\
       sightings id (rgr_tracks r) = [entry_of id t]).
Proof.
  split_and!.
  - intros g r. done.
  - intros. by apply merge_release_unique.
  - intros net db ps releases Hu.
    by apply (detail_phase_unique net releases (initial_state db ps)).
  - intros db g rel details.
    destruct (append_tracks_prefix (details_tracks details) (tracks_before (od_get g db)))
      as [added Hadd].
    exists (merge_record (od_get g db) rel details), added.
    rewrite merge_release_get, String.eqb_refl. split; [done|].
    by rewrite merge_record_tracks.
  - intros db g rel1 details1 rel2 details2 id before t after Hnew Hty Hsplit Hid Hbefore.
    eexists. rewrite merge_release_get, String.eqb_refl. split; [reflexivity|].
    rewrite merge_record_tracks, merge_release_get, String.eqb_refl.
    cbn [tracks_before]. rewrite merge_record_tracks.
    assert (Hfirst : sightings id (append_tracks (tracks_before (od_get g db))
                                     (details_tracks details1)) = [entry_of id t]).
    { rewrite Hsplit. by apply append_tracks_first. }
    rewrite append_tracks_seen; [done|].
    apply append_tracks_cover with t; [|done|done].
    rewrite Hsplit. apply in_or_app. right. by left.
Qed.

Lemma track_ids_stay_unique_witness :
  exists r,
    od_get "rg-low"
      (merge_release (merge_release [] "rg-low" (demo_release 1) (details_with [first_track]))
         "rg-low" (demo_release 2) (details_with [later_track])) = Some r /\
    sightings "rec-1" (rgr_tracks r) =
      [ {| te_id := "rec-1"; te_title := Some "Speed of Life"; te_duration_ms := 167000 |} ].
Proof.
  destruct track_ids_stay_unique as (_ & _ & _ & _ & H).
  apply (H [] "rg-low" (demo_release 1) (details_with [first_track])
           (demo_release 2) (details_with [later_track]) "rec-1" [] first_track []).
  - simpl. tauto.
  - reflexivity.
  - reflexivity.
  - reflexivity.
  - intros t' [].
Defined.

(** ** Crashes during a checkpoint *)

Lemma files_distinct :
  tmp_file <> OUTPUT_FILE /\ tmp_file <> PROGRESS_FILE /\ OUTPUT_FILE <> PROGRESS_FILE.
Proof. split_and!; discriminate. Qed.

(** The store once the new dump of the database has been renamed. *)
Lemma after_replace (fs : gmap string file) db ps :
  crash_after 3 (checkpoint_ops db ps) fs =
  <[ OUTPUT_FILE := Whole (DbJson db) ]>
    (delete tmp_file (<[ tmp_file := Whole (DbJson db) ]> (<[ tmp_file := Torn ]> fs))).
Proof.
  unfold crash_after, checkpoint_ops. cbn [take fold_left apply_op].
  by rewrite lookup_insert_eq.
Qed.

(** The database file is replaced in one step: at every crash point it is
    the file it was or the whole new dump. *)
Lemma checkpoint_database_atomic (fs : gmap string file) db ps k :
  crash_after k (checkpoint_ops db ps) fs !! OUTPUT_FILE = fs !! OUTPUT_FILE \/
  crash_after k (checkpoint_ops db ps) fs !! OUTPUT_FILE = Some (Whole (DbJson db)).
Proof.
  destruct files_distinct as (H1 & H2 & H3).
  destruct k as [|[|[|k]]].
  - by left.
  - left. unfold crash_after, checkpoint_ops. cbn [take fold_left apply_op].
    by rewrite lookup_insert_ne by discriminate.
  - left. unfold crash_after, checkpoint_ops. cbn [take fold_left apply_op].
    by rewrite !lookup_insert_ne by discriminate.
  - right.
    assert (Hsplit : crash_after (S (S (S k))) (checkpoint_ops db ps) fs =
              fold_left apply_op (take k [OpenW PROGRESS_FILE;
                                          DumpClose PROGRESS_FILE (IdsJson (elements ps))])
                (crash_after 3 (checkpoint_ops db ps) fs)) by reflexivity.
    rewrite Hsplit, after_replace.
    destruct k as [|[|k]]; cbn [take fold_left apply_op].
    + by rewrite lookup_insert_eq.
    + rewrite lookup_insert_ne by discriminate. by rewrite lookup_insert_eq.
    + rewrite take_nil. cbn [fold_left apply_op].
      rewrite !lookup_insert_ne by discriminate. by rewrite lookup_insert_eq.
Qed.

(** C4 on the code: the processed ids are written in place.  A process
    that dies between the opening of the progress file and the end of its
    dump leaves that file torn: neither the list it held nor the new one.
    The database file, written aside and renamed, is whole at every crash
    point. *)
Theorem checkpoint_tears_progress_file (fs : gmap string file) (db : Database)
    (ps : gset string) :
  crash_after 4 (checkpoint_ops db ps) fs !! PROGRESS_FILE = Some Torn /\
  (forall k,
     crash_after k (checkpoint_ops db ps) fs !! OUTPUT_FILE = fs !! OUTPUT_FILE \/
     crash_after k (checkpoint_ops db ps) fs !! OUTPUT_FILE = Some (Whole (DbJson db))) /\
  crash_after 5 (checkpoint_ops db ps) fs !! PROGRESS_FILE =
    Some (Whole (IdsJson (elements ps))).
Proof.
  assert (H4 : crash_after 4 (checkpoint_ops db ps) fs =
            <[ PROGRESS_FILE := Torn ]> (crash_after 3 (checkpoint_ops db ps) fs))
    by reflexivity.
  assert (H5 : crash_after 5 (checkpoint_ops db ps) fs =
            <[ PROGRESS_FILE := Whole (IdsJson (elements ps)) ]>
              (<[ PROGRESS_FILE := Torn ]> (crash_after 3 (checkpoint_ops db ps) fs)))
    by reflexivity.
  split_and!.
  - by rewrite H4, lookup_insert_eq.
  - intros k. apply checkpoint_database_atomic.
  - by rewrite H5, lookup_insert_eq.
Qed.

(** A store holding both files whole, and the crash that tears the list
    of processed ids. *)
Lemma checkpoint_tears_progress_file_witness :
  let old := IdsJson ["r001"] in
  let fs : gmap string file :=
    <[ PROGRESS_FILE := Whole old ]> (<[ OUTPUT_FILE := Whole (DbJson []) ]> ∅) in
  let after := crash_after 4 (checkpoint_ops demo_db {[ "r001"; "r002" ]}) fs in
  after !! PROGRESS_FILE <> Some (Whole old) /\
  after !! PROGRESS_FILE <> Some (Whole (IdsJson (elements ({[ "r001"; "r002" ]} : gset string)))) /\
  after !! OUTPUT_FILE = Some (Whole (DbJson demo_db)).
Proof.
  intros old fs after.
  destruct (checkpoint_tears_progress_file fs demo_db {[ "r001"; "r002" ]}) as (Htorn & _).
  fold after in Htorn. rewrite Htorn. split_and!; [done|done|].
  destruct files_distinct as (H1 & H2 & H3).
  change after with (<[ PROGRESS_FILE := Torn ]>
                       (crash_after 3 (checkpoint_ops demo_db {[ "r001"; "r002" ]}) fs)).
  rewrite after_replace, lookup_insert_ne by discriminate. by rewrite lookup_insert_eq.
Defined.

(** The final write of lines 134-137 opens both files in place: a crash
    right after the first opening leaves the database file torn. *)
Lemma final_write_in_place (fs : gmap string file) (db : Database) (ps : gset string) :
  crash_after 1 (final_ops db ps) fs !! OUTPUT_FILE = Some Torn.
Proof.
  unfold crash_after, final_ops. cbn [take fold_left apply_op].
  by rewrite lookup_insert_eq.
Qed.

(* ===================================================================== *)
(** * Further properties of the code                                       *)
(* ===================================================================== *)

(** ** Pacing and backoff of [fetch_json] *)

Section Pacing.
Context {B : Type}.
Implicit Types (net : nat -> outcome B).

Lemma fetch_loop_paced net attempts :
  Forall (fun a => a <= 4) attempts -> paced (snd (fetch_loop net attempts)).
Proof.
  induction attempts as [|a rest IH]; intros Hall; [constructor|].
  apply Forall_cons in Hall as [Ha Hall]. specialize (IH Hall).
  assert (Hp : (3000 <= 3000 * (Z.of_nat a + 1) <= 15000)%Z) by lia.
  simpl. destruct (net a) as [status [b|]|]; simpl.
  - destruct (status =? 200)%Z; [constructor|].
    destruct (status =? 503)%Z; constructor; (lia || done).
  - destruct (status =? 200)%Z; [by constructor|].
    destruct (status =? 503)%Z; constructor; (lia || done).
  - by constructor.
Qed.

Lemma paced_before_get (es l1 l2 : list effect) :
  paced es -> es = l1 ++ Get :: l2 -> exists l0, l1 = l0 ++ [Sleep 1100].
Proof.
  intros Hp. revert l1. induction Hp as [| |p rest Hb Hrest IH]; intros l1 Heq.
  - by destruct l1.
  - destruct l1 as [|e1 [|e2 l1]]; simplify_eq/=.
    + by exists [].
    + by destruct l1.
  - destruct l1 as [|e1 [|e2 [|e3 l1]]]; simplify_eq/=.
    + by exists [].
    + destruct (IH l1 eq_refl) as [l0 ->].
      by exists (Sleep 1100 :: Get :: Sleep p :: l0).
Qed.

Lemma paced_after_get (es l1 l2 : list effect) :
  paced es -> es = l1 ++ Get :: l2 ->
  l2 = [] \/ exists p l3, l2 = Sleep p :: l3 /\ (3000 <= p <= 15000)%Z.
Proof.
  intros Hp. revert l1. induction Hp as [| |p rest Hb Hrest IH]; intros l1 Heq.
  - by destruct l1.
  - destruct l1 as [|e1 [|e2 l1]]; simplify_eq/=.
    + by left.
    + by destruct l1.
  - destruct l1 as [|e1 [|e2 [|e3 l1]]]; simplify_eq/=.
    + right. by exists p, rest.
    + by apply (IH l1).
Qed.

Lemma paced_total_sleep (es : list effect) :
  paced es -> (1100 * Z.of_nat (gets es) <= total_sleep es <= 16100 * Z.of_nat (gets es))%Z.
Proof.
  induction 1 as [| |p rest Hb Hrest IH].
  - unfold gets. simpl. lia.
  - unfold gets. simpl. lia.
  - change (gets (Sleep 1100 :: Get :: Sleep p :: rest)) with (S (gets rest)).
    change (total_sleep (Sleep 1100 :: Get :: Sleep p :: rest))
      with (1100 + (p + total_sleep rest))%Z.
    rewrite Nat2Z.inj_succ. lia.
Qed.

Lemma fetch_loop_sleeps_first net a rest :
  exists es, snd (fetch_loop net (a :: rest)) = Sleep 1100 :: Get :: es.
Proof.
  simpl. destruct (net a) as [status [b|]|]; simpl; [| |by eexists].
  - destruct (status =? 200)%Z; [by eexists|]. by destruct (status =? 503)%Z; eexists.
  - destruct (status =? 200)%Z; [by eexists|]. by destruct (status =? 503)%Z; eexists.
Qed.

End Pacing.

(** X1: every request of a call is sent right after the pacing sleep of
    1.1 s; what follows a request is the end of the call or a pause of 3 to
    15 s before the next round; and a call sleeps 1.1 s at least and 80.5 s
    at most. *)
Theorem fetch_json_pacing {B : Type} (net : nat -> outcome B) :
  let es := snd (fetch_json net) in
  (forall l1 l2, es = l1 ++ Get :: l2 -> exists l0, l1 = l0 ++ [Sleep 1100]) /\
  (forall l1 l2, es = l1 ++ Get :: l2 ->
     l2 = [] \/ exists p l3, l2 = Sleep p :: l3 /\ (3000 <= p <= 15000)%Z) /\
  (1100 <= total_sleep es <= 80500)%Z /\
  1 <= gets es.
Proof.
  intros es.
  assert (Hp : paced es).
  { apply fetch_loop_paced. repeat constructor; lia. }
  assert (Hb : gets es <= 5) by apply (fetch_loop_bound net (seq 0 5)).
  assert (H1 : 1 <= gets es).
  { unfold es, fetch_json. change (seq 0 5) with (0 :: seq 1 4).
    destruct (fetch_loop_sleeps_first net 0 (seq 1 4)) as [es' ->]. unfold gets. simpl. lia. }
  pose proof (paced_total_sleep es Hp) as Ht.
  split_and!.
  - intros l1 l2. by apply paced_before_get.
  - intros l1 l2. by apply paced_after_get.
  - lia.
  - lia.
  - done.
Qed.

Lemma fetch_json_pacing_witness :
  exists l0, [Sleep 1100; Get; Sleep 3000; Sleep 1100] = l0 ++ [Sleep 1100].
Proof.
  destruct (fetch_json_pacing net_bad_then_good) as (H & _).
  apply (H [Sleep 1100; Get; Sleep 3000; Sleep 1100] []). reflexivity.
Defined.

Lemma fetch_loop_rounds {B : Type} (net : nat -> outcome B) (attempts : list nat) :
  snd (fetch_loop net attempts) =
  flat_map (round_effects net) (take (gets (snd (fetch_loop net attempts))) attempts).
Proof.
  induction attempts as [|a rest IH]; [done|].
  rewrite fetch_loop_gets.
  destruct (good_body (net a)) as [b|] eqn:Hg.
  - apply good_body_Some in Hg. cbn [take flat_map]. rewrite app_nil_r.
    unfold round_effects. simpl. rewrite Hg. reflexivity.
  - cbn [take flat_map]. rewrite <- IH. unfold round_effects. rewrite Hg.
    unfold backoff. simpl. destruct (net a) as [status [b|]|]; simpl in *; [| |done].
    + destruct (status =? 200)%Z; [done|]. by destruct (status =? 503)%Z.
    + destruct (status =? 200)%Z; [done|]. by destruct (status =? 503)%Z.
Qed.

(** X2: the effects of a call are those of its rounds, one per request
    made: after a failed attempt the call sleeps 15 s when the status was
    503, 5 s for another status than 200, and 3 s times the number of the
    attempt (counted from 1) when the request raised or the body of a 200
    did not parse; a call whose five requests all raise sleeps 50.5 s. *)
Theorem fetch_json_backoff {B : Type} (net : nat -> outcome B) :
  snd (fetch_json net) =
    flat_map (round_effects net) (seq 0 (gets (snd (fetch_json net)))) /\
  ((forall i, i < 5 -> net i = Raised) ->
   snd (fetch_json net) =
     [Sleep 1100; Get; Sleep 3000; Sleep 1100; Get; Sleep 6000; Sleep 1100; Get; Sleep 9000;
      Sleep 1100; Get; Sleep 12000; Sleep 1100; Get; Sleep 15000] /\
   total_sleep (snd (fetch_json net)) = 50500%Z).
Proof.
  assert (Hrounds : snd (fetch_json net) =
            flat_map (round_effects net) (seq 0 (gets (snd (fetch_json net))))).
  { unfold fetch_json. rewrite fetch_loop_rounds at 1.
    assert (Hb : gets (snd (fetch_loop net (seq 0 5))) <= 5) by apply (fetch_loop_bound net (seq 0 5)).
    destruct (gets (snd (fetch_loop net (seq 0 5)))) as [|[|[|[|[|[|n]]]]]]; try reflexivity. lia. }
  split; [exact Hrounds|].
  intros Hall.
  assert (Hn : gets (snd (fetch_json net)) = 5).
  { apply (fetch_loop_none net (seq 0 5)). intros i Hi. apply in_seq in Hi.
    rewrite Hall by lia. reflexivity. }
  assert (Heff : snd (fetch_json net) =
     [Sleep 1100; Get; Sleep 3000; Sleep 1100; Get; Sleep 6000; Sleep 1100; Get; Sleep 9000;
      Sleep 1100; Get; Sleep 12000; Sleep 1100; Get; Sleep 15000]).
  { rewrite Hrounds, Hn. simpl. unfold round_effects.
    rewrite !Hall by lia. reflexivity. }
  split; [exact Heff|]. rewrite Heff. reflexivity.
Qed.

Lemma fetch_json_backoff_witness :
  total_sleep (snd (fetch_json (fun _ => @Raised Z))) = 50500%Z.
Proof.
  destruct (fetch_json_backoff (fun _ => @Raised Z)) as (_ & H).
  apply H. intros i Hi. reflexivity.
Defined.

(** ** Stability of the ranking *)

Lemma insert_desc_filter {A : Type} (key : A -> Z) (k : Z) (x : A) (l : list A) :
  List.filter (fun y => (key y =? k)%Z) (insert_desc key x l) =
  List.filter (fun y => (key y =? k)%Z) (x :: l).
Proof.
  induction l as [|y l IH]; [done|].
  cbn [insert_desc]. destruct (Z.ltb_spec (key x) (key y)) as [Hlt|Hge]; [|done].
  cbn [List.filter] in *. rewrite IH.
  destruct (Z.eqb_spec (key x) k) as [Hx|Hx]; [|done].
  destruct (Z.eqb_spec (key y) k) as [Hy|Hy]; [lia|done].
Qed.

Lemma sorted_desc_filter {A : Type} (key : A -> Z) (k : Z) (l : list A) :
  List.filter (fun y => (key y =? k)%Z) (sorted_desc key l) =
  List.filter (fun y => (key y =? k)%Z) l.
Proof.
  induction l as [|x l IH]; [done|].
  cbn [sorted_desc]. rewrite insert_desc_filter. cbn [List.filter]. by rewrite IH.
Qed.

(** X3: the ranking is stable: the release groups of one score come out
    in the order the database has them. *)
Theorem sorted_rgs_stable (full_db : Database) (score : Z) :
  List.filter (fun item => (rg_score (fst item) (snd item) =? score)%Z) (sorted_rgs full_db) =
  List.filter (fun item => (rg_score (fst item) (snd item) =? score)%Z) full_db.
Proof. apply (sorted_desc_filter item_score). Qed.

(** ** The tiers of the score *)

Lemma lower_length s : String.length (lower s) = String.length s.
Proof. induction s as [|c s IH]; simpl; congruence. Qed.

Lemma penalty_range word title p : (0 <= p)%Z -> (0 <= penalty word title p <= p)%Z.
Proof. unfold penalty. destruct (str_in word title); lia. Qed.

Lemma rg_score_formula g data :
  rg_score g data =
  ((if is_canonical (lower (rgr_title data))
    then 1000 - len (lower (rgr_title data))
    else 0 - penalties (lower (rgr_title data)) - len (lower (rgr_title data))) +
   image_bonus data)%Z.
Proof.
  unfold rg_score, image_bonus, penalties.
  destruct (is_canonical _), (opt_truthy _); lia.
Qed.

Lemma penalties_range title : (0 <= penalties title <= 1100)%Z.
Proof.
  unfold penalties.
  pose proof (penalty_range "live" title 200).
  pose proof (penalty_range "collection" title 100).
  pose proof (penalty_range "best of" title 100).
  pose proof (penalty_range "anthology" title 100).
  pose proof (penalty_range "greatest hits" title 100).
  destruct (String.eqb "best" title); lia.
Qed.

(** X4: a group whose lower-cased title holds a canonical album name, and
    is shorter than 950 characters, scores above every group whose title
    holds none, with or without images; and no score leaves the range from
    -1100 - len(title) to 1050, the length being that of the lower-cased
    title, as in the code. *)
Theorem canonical_tier_outranks (g1 g2 : string) (d1 d2 : ReleaseGroupRecord) :
  is_canonical (lower (rgr_title d1)) = true ->
  is_canonical (lower (rgr_title d2)) = false ->
  (len (lower (rgr_title d1)) < 950)%Z ->
  (rg_score g2 d2 < rg_score g1 d1)%Z /\
  (-1100 - len (lower (rgr_title d2)) <= rg_score g2 d2 <= 50)%Z /\
  (50 < rg_score g1 d1 <= 1050)%Z.
Proof.
  intros H1 H2 Hlen. rewrite !rg_score_formula, H1, H2.
  pose proof (penalties_range (lower (rgr_title d2))).
  assert (0 <= len (lower (rgr_title d1)))%Z by (unfold len; lia).
  assert (0 <= len (lower (rgr_title d2)))%Z by (unfold len; lia).
  unfold image_bonus. destruct (opt_truthy (rgr_image_url d1)), (opt_truthy (rgr_image_url d2)); lia.
Qed.

Lemma canonical_tier_outranks_witness :
  (rg_score "b" (demo_group "Greatest Hits" []) < rg_score "a" (demo_group "Low (Remastered)" []))%Z.
Proof.
  apply (canonical_tier_outranks "a" "b" (demo_group "Low (Remastered)" [])
           (demo_group "Greatest Hits" [])); reflexivity.
Defined.

(** *** The test [canon in title] *)

Lemma prefix_app (s1 s2 : string) :
  String.prefix s1 s2 = true <-> exists post, s2 = String.append s1 post.
Proof.
  revert s2. induction s1 as [|c s1 IH]; intros s2.
  - destruct s2; simpl; split; eauto.
  - destruct s2 as [|c' s2]; simpl.
    + split; [done|]. by intros [post ?].
    + destruct (Ascii.ascii_dec c c') as [->|Hne].
      * rewrite IH. split; intros [post Hp]; exists post.
        -- change (String c' s2 = String c' (String.append s1 post)). by rewrite Hp.
        -- change (String c' s2 = String c' (String.append s1 post)) in Hp. by injection Hp.
      * split; [done|]. intros [post Hp].
        change (String c' s2 = String c (String.append s1 post)) in Hp. congruence.
Qed.

Lemma append_cons (c : ascii) (s t : string) :
  String.append (String c s) t = String c (String.append s t).
Proof. reflexivity. Qed.

Lemma str_in_app (needle hay : string) :
  str_in needle hay = true <->
  exists pre post, hay = String.append pre (String.append needle post).
Proof.
  induction hay as [|c hay IH]; cbn [str_in].
  - rewrite orb_false_r, prefix_app. split.
    + intros [post Hp]. by exists EmptyString, post.
    + intros (pre & post & Hp). destruct pre as [|c pre]; [by exists post|].
      rewrite append_cons in Hp. discriminate Hp.
  - rewrite orb_true_iff, prefix_app, IH. split.
    + intros [[post Hp]|(pre & post & Hp)].
      * by exists EmptyString, post.
      * exists (String c pre), post. by rewrite append_cons, Hp.
    + intros (pre & post & Hp). destruct pre as [|c' pre].
      * left. by exists post.
      * right. rewrite append_cons in Hp. injection Hp as -> ->. by exists pre, post.
Qed.

(** X5: a title is in the canonical tier exactly when its lower-cased form
    holds one of the names of the list as a contiguous part, anywhere in
    it; its score is then 1000 less the length of the lower-cased title,
    plus 50 with an image. *)
Theorem canonical_by_substring (g : string) (data : ReleaseGroupRecord) :
  (is_canonical (lower (rgr_title data)) = true <->
   exists canon pre post,
     In canon CANONICAL_ALBUMS /\
     lower (rgr_title data) = String.append pre (String.append canon post)) /\
  (is_canonical (lower (rgr_title data)) = true ->
   rg_score g data = (1000 - len (lower (rgr_title data)) + image_bonus data)%Z).
Proof.
  split.
  - unfold is_canonical. rewrite existsb_exists. split.
    + intros (canon & Hin & Hs). apply str_in_app in Hs as (pre & post & Hs).
      by exists canon, pre, post.
    + intros (canon & pre & post & Hin & Hs). exists canon. split; [done|].
      apply str_in_app. by exists pre, post.
  - intros Hc. by rewrite rg_score_formula, Hc.
Qed.

Lemma canonical_by_substring_witness :
  rg_score "g" (demo_group "Yellow Submarine" []) = (1000 - 16 + 0)%Z.
Proof.
  destruct (canonical_by_substring "g" (demo_group "Yellow Submarine" [])) as [Hiff Hscore].
  apply Hscore. apply Hiff. exists "low", "yel", " submarine".
  split; [|reflexivity]. unfold CANONICAL_ALBUMS. simpl. tauto.
Defined.

(** ** Integrity of the lookup index *)

Lemma od_get_Some_In {V : Type} (k : string) (v : V) (d : odict V) :
  od_wf d -> (od_get k d = Some v <-> In (k, v) d).
Proof.
  unfold od_wf, od_keys. induction d as [|[k' v'] d IH]; simpl; intros Hnd.
  - split; [done|tauto].
  - apply NoDup_cons in Hnd as [Hk Hnd]. specialize (IH Hnd).
    destruct (String.eqb k' k) eqn:E.
    + apply String.eqb_eq in E. subst k'. split.
      * intros [= ->]. by left.
      * intros [[= ->]|Hin]; [done|]. exfalso. apply Hk.
        apply list_elem_of_In. apply in_map_iff. by exists (k, v).
    + apply String.eqb_neq in E. rewrite IH. split; [by right|].
      intros [Heq|Hin]; [congruence|done].
Qed.

Lemma od_get_perm {V : Type} (k : string) (d d' : odict V) :
  od_wf d -> Permutation d d' -> od_get k d = od_get k d'.
Proof.
  intros Hwf Hp.
  assert (Hwf' : od_wf d').
  { unfold od_wf, od_keys in *. by rewrite <- Hp. }
  destruct (od_get k d) as [v|] eqn:E.
  - symmetry. apply od_get_Some_In; [done|]. eapply Permutation_in; [exact Hp|].
    by apply od_get_Some_In.
  - destruct (od_get k d') as [v'|] eqn:E'; [|done].
    apply od_get_Some_In in E'; [|done].
    assert (Hin : In (k, v') d) by (eapply Permutation_in; [symmetry; exact Hp|done]).
    apply od_get_Some_In in Hin; [|done]. congruence.
Qed.

Lemma od_get_map {V W : Type} (f : V -> W) (k : string) (d : odict V) :
  od_get k (map (fun item => (fst item, f (snd item))) d) = f <$> od_get k d.
Proof.
  induction d as [|[k' v'] d IH]; simpl; [done|].
  by destruct (String.eqb k' k).
Qed.

Lemma release_groups_get (full_db : Database) (g : string) :
  od_wf full_db ->
  release_groups (build_lookup full_db) =
    map (fun item => (fst item, rg_entry (snd item))) (sorted_rgs full_db) /\
  od_get g (release_groups (build_lookup full_db)) = rg_entry <$> od_get g full_db.
Proof.
  intros Hwf.
  assert (Hrg : release_groups (build_lookup full_db) =
                map (fun item => (fst item, rg_entry (snd item))) (sorted_rgs full_db)).
  { unfold build_lookup. rewrite populate_release_groups. simpl.
    rewrite fold_set_fresh; [done|]. simpl.
    assert (Hp : Permutation full_db (sorted_rgs full_db)) by apply sorted_desc_perm.
    unfold od_wf, od_keys in *. by rewrite <- Hp. }
  split; [done|]. rewrite Hrg, od_get_map. f_equal. symmetry.
  apply od_get_perm; [done|]. apply sorted_desc_perm.
Qed.



Lemma first_claim_In r items item :
  first_claim r items = Some item -> In item items /\ contains r (snd item) = true.
Proof.
  intros H. destruct (first_claim_split _ _ _ H) as (before & after & -> & Hc & _).
  split; [|done]. apply in_or_app. right. by left.
Qed.

Lemma first_claim_None r items :
  first_claim r items = None <-> forall item, In item items -> contains r (snd item) = false.
Proof.
  unfold first_claim. split.
  - intros H item Hin. by apply (find_none _ _ H item).
  - intros H. destruct (List.find _ items) as [item|] eqn:E; [|done].
    apply find_some in E as [Hin Hc]. rewrite (H item Hin) in Hc. done.
Qed.

(** X7: the owner of a recording is a release group of the database that
    lists it, and has its entry in [release_groups]; a recording has an
    owner exactly when its id is not empty and some group lists it; and
    every recording with a duration has an owner. *)
Theorem recordings_integrity (full_db : Database) :
  od_wf full_db ->
  let out := build_lookup full_db in
  (forall r g, od_get r (recordings out) = Some g ->
     str_truthy r = true /\
     exists data, od_get g full_db = Some data /\ contains r data = true /\
                  od_get g (release_groups out) = Some (rg_entry data)) /\
  (forall r, is_Some (od_get r (recordings out)) <->
     str_truthy r = true /\
     exists g data, In (g, data) full_db /\ contains r data = true) /\
  (forall r, is_Some (od_get r (track_durations out)) -> is_Some (od_get r (recordings out))).
Proof.
  intros Hwf out.
  assert (Hp : Permutation full_db (sorted_rgs full_db)) by apply sorted_desc_perm.
  assert (Hrec : forall r, od_get r (recordings out) =
            if str_truthy r then fst <$> first_claim r (sorted_rgs full_db) else None).
  { intros r. unfold out, build_lookup. by rewrite populate_recordings. }
  assert (Hsome : forall r, is_Some (od_get r (recordings out)) <->
     str_truthy r = true /\
     exists g data, In (g, data) full_db /\ contains r data = true).
  { intros r. rewrite Hrec. destruct (str_truthy r).
    - split.
      + intros [g Hg]. split; [done|].
        destruct (first_claim r (sorted_rgs full_db)) as [[g' data]|] eqn:E; [|done].
        apply first_claim_In in E as [Hin Hc]. exists g', data. split; [|done].
        eapply Permutation_in; [symmetry; exact Hp|done].
      + intros [_ (g & data & Hin & Hc)].
        destruct (first_claim_some r (sorted_rgs full_db) (g, data)) as [item ->]; [|done|done].
        eapply Permutation_in; [exact Hp|done].
    - split; [by intros [? ?]|by intros [? _]]. }
  split_and!.
  - intros r g Hg. rewrite Hrec in Hg. destruct (str_truthy r); [|done].
    split; [done|].
    destruct (first_claim r (sorted_rgs full_db)) as [[g' data]|] eqn:E; [|done].
    simpl in Hg. injection Hg as ->.
    apply first_claim_In in E as [Hin Hc]. simpl in Hc.
    assert (Hget : od_get g full_db = Some data).
    { apply od_get_Some_In; [done|]. eapply Permutation_in; [symmetry; exact Hp|done]. }
    exists data. split_and!; [done|done|].
    unfold out. destruct (release_groups_get full_db g Hwf) as [_ ->]. by rewrite Hget.
  - exact Hsome.
  - intros r Hd. apply Hsome. apply durations_is_Some in Hd as [Hr (t & Hin & Hid & Hz)].
    split; [done|]. apply all_tracks_In in Hin as (g & data & Hin & Ht).
    exists g, data. split; [eapply Permutation_in; [symmetry; exact Hp|done]|].
    unfold contains. apply existsb_exists. exists t. split; [done|].
    by apply String.eqb_eq.
Qed.

Lemma recordings_integrity_witness :
  is_Some (od_get "rec-2" (recordings (build_lookup demo_db))).
Proof.
  destruct (recordings_integrity demo_db demo_db_wf) as (_ & H & _).
  apply H. split; [reflexivity|].
  eexists _, _. split; [right; left; reflexivity|reflexivity].
Defined.

(** ** What the name index holds *)

Lemma ascii_lower_idem c : ascii_lower (ascii_lower c) = ascii_lower c.
Proof. destruct c as [[] [] [] [] [] [] [] []]; reflexivity. Qed.

Lemma lower_idem s : lower (lower s) = lower s.
Proof. induction s as [|c s IH]; simpl; [done|]. by rewrite ascii_lower_idem, IH. Qed.

Lemma name_key_inv t k :
  name_key t = Some k ->
  exists name, te_title t = Some name /\ lower name = k /\
               str_truthy (te_id t) = true /\ str_truthy name = true.
Proof.
  unfold name_key. destruct (te_title t) as [name|]; [|done].
  destruct (str_truthy (te_id t)) eqn:E1, (str_truthy name) eqn:E2; simpl; try done.
  intros [= <-]. by exists name.
Qed.

Lemma extended_inv e l x : In x (extended e l) -> x = e \/ In x l.
Proof.
  unfold extended. destruct (entry_in e l); [by right|].
  intros H. apply in_app_or in H as [H|[H|[]]]; [by right|by left].
Qed.

Lemma candidates_In k (nm : NameMap) x :
  In x (candidates k nm) -> exists l, od_get k nm = Some l /\ In x l.
Proof.
  unfold candidates. destruct (od_get k nm) as [l|]; [|done]. intros. by exists l.
Qed.

Lemma name_step_from Q g t nm :
  name_map_from Q nm ->
  name_map_from (fun p => Q p \/ p = (g, t)) (name_step g nm t).
Proof.
  intros Hfrom k' l. destruct (name_key t) as [k|] eqn:Hk.
  - rewrite (name_step_get g nm t k k' Hk).
    destruct (String.eqb k k') eqn:E.
    + apply String.eqb_eq in E. subst k'. intros [= <-]. split.
      * intros Hnil. pose proof (extended_In (te_id t, g) (candidates k nm)) as Hin.
        by rewrite Hnil in Hin.
      * intros r g' Hin. apply extended_inv in Hin as [[= -> ->]|Hin].
        -- exists t. split_and!; [by right|done|done].
        -- apply candidates_In in Hin as (l0 & Hl0 & Hin).
           destruct (Hfrom k l0 Hl0) as [_ Hsrc].
           destruct (Hsrc r g' Hin) as (t' & ? & ? & ?). exists t'. split_and!; [by left|done|done].
    + intros Hl. destruct (Hfrom k' l Hl) as [Hne Hsrc]. split; [done|].
      intros r g' Hin. destruct (Hsrc r g' Hin) as (t' & ? & ? & ?).
      exists t'. split_and!; [by left|done|done].
  - rewrite name_step_skip by done. intros Hl.
    destruct (Hfrom k' l Hl) as [Hne Hsrc]. split; [done|].
    intros r g' Hin. destruct (Hsrc r g' Hin) as (t' & ? & ? & ?).
    exists t'. split_and!; [by left|done|done].
Qed.

Lemma name_scan_from ps Q nm :
  name_map_from Q nm ->
  name_map_from (fun p => Q p \/ In p ps) (name_scan ps nm).
Proof.
  revert Q nm. induction ps as [|[g t] ps IH]; intros Q nm Hfrom.
  - intros k l Hl. destruct (Hfrom k l Hl) as [Hne Hsrc]. split; [done|].
    intros r g Hin. destruct (Hsrc r g Hin) as (t & ? & ? & ?).
    exists t. split_and!; [by left|done|done].
  - change (name_scan ((g, t) :: ps) nm) with (name_scan ps (name_step g nm t)).
    intros k l Hl.
    destruct (IH _ _ (name_step_from Q g t nm Hfrom) k l Hl) as [Hne Hsrc].
    split; [done|]. intros r g' Hin. destruct (Hsrc r g' Hin) as (t' & HQ & ? & ?).
    exists t'. split_and!; [|done|done].
    destruct HQ as [[HQ|HQ]|HQ]; [by left|right; left; congruence|right; by right].
Qed.

(** X8: the name index holds nothing but what the database gives: a key
    is a lower-cased title (lower-casing it again changes nothing), its
    list is never empty, and every pair of the list comes from a track of
    that release group with that recording id, a non-empty id and a
    non-empty title that lower-cases to the key. *)
Theorem name_map_sound (full_db : Database) (k : string) (l : list (string * string)) :
  od_get k (process_metadata full_db) = Some l ->
  l <> [] /\
  lower k = k /\
  forall r g, In (r, g) l ->
    exists data t name,
      In (g, data) full_db /\ In t (rgr_tracks data) /\ te_id t = r /\
      te_title t = Some name /\ lower name = k /\
      str_truthy r = true /\ str_truthy name = true.
Proof.
  rewrite process_metadata_scan. intros Hl.
  assert (Hfrom : name_map_from (fun p => False \/ In p (tagged_tracks full_db))
                    (name_scan (tagged_tracks full_db) od_empty)).
  { apply name_scan_from. intros k' l' Hl'. done. }
  destruct (Hfrom k l Hl) as [Hne Hsrc].
  assert (Hall : forall r g, In (r, g) l ->
    exists data t name,
      In (g, data) full_db /\ In t (rgr_tracks data) /\ te_id t = r /\
      te_title t = Some name /\ lower name = k /\
      str_truthy r = true /\ str_truthy name = true).
  { intros r g Hin. destruct (Hsrc r g Hin) as (t & [[]|Ht] & Hk & Hid).
    apply tagged_tracks_In in Ht as (data & Hdb & Ht).
    apply name_key_inv in Hk as (name & Htitle & Hlow & Hr & Hn).
    exists data, t, name. subst r. by split_and!. }
  split_and!; [done| |done].
  destruct l as [|[r g] l]; [done|].
  destruct (Hall r g) as (_ & _ & name & _ & _ & _ & _ & <- & _); [by left|].
  apply lower_idem.
Qed.

Lemma name_map_sound_witness :
  lower "sound and vision" = "sound and vision".
Proof.
  apply (name_map_sound names_db "sound and vision"
           [("rec-1", "rg-a"); ("rec-2", "rg-b")]).
  reflexivity.
Defined.

(** ** What a merge changes and what it keeps *)

Lemma merge_record_count old rel details :
  rgr_track_count (merge_record old rel details) =
  Z.max (count_before old) (Z.of_nat (length (details_tracks details))).
Proof.
  rewrite merge_record_spec. simpl. destruct old as [r|]; simpl.
  - unfold set_image. by destruct (_ && _).
  - unfold set_image. by destruct (_ && _).
Qed.

Lemma append_tracks_length ts tracks :
  length (append_tracks tracks ts) <= length tracks + length ts.
Proof.
  revert tracks. unfold append_tracks.
  induction ts as [|t ts IH]; intros tracks; simpl; [lia|].
  etrans; [apply IH|]. unfold append_track.
  destruct (rec_id (trk_recording t)) as [id|]; [|lia].
  destruct (_ && _); [|lia]. rewrite length_app. simpl. lia.
Qed.

(** X9: the track count of a group after a merge is the larger of the
    count it had (0 for a new group) and the number of tracks of the
    release, those without a recording id included; so two merges give the
    same count in either order, and a new group never lists more tracks
    than it counts. *)
Theorem track_count_is_maximum (db : Database) (g : string)
    (rel1 rel2 : SourceRelease) (d1 d2 : Details) :
  let n1 := Z.of_nat (length (details_tracks d1)) in
  let n2 := Z.of_nat (length (details_tracks d2)) in
  let merged12 := merge_release (merge_release db g rel1 d1) g rel2 d2 in
  let merged21 := merge_release (merge_release db g rel2 d2) g rel1 d1 in
  (exists r, od_get g (merge_release db g rel1 d1) = Some r /\
             rgr_track_count r = Z.max (count_before (od_get g db)) n1 /\
             (od_get g db = None -> (Z.of_nat (length (rgr_tracks r)) <= rgr_track_count r)%Z)) /\
  (exists r12 r21, od_get g merged12 = Some r12 /\ od_get g merged21 = Some r21 /\
                   rgr_track_count r12 = rgr_track_count r21 /\
                   rgr_track_count r12 = Z.max (Z.max (count_before (od_get g db)) n1) n2).
Proof.
  intros n1 n2 merged12 merged21. split.
  - eexists. rewrite merge_release_get, String.eqb_refl. split; [reflexivity|].
    rewrite merge_record_count. split; [done|].
    intros Hnew. rewrite merge_record_tracks, Hnew. simpl.
    pose proof (append_tracks_length (details_tracks d1) []). simpl in *. fold n1. lia.
  - eexists _, _. unfold merged12, merged21.
    rewrite !merge_release_get, !String.eqb_refl. split_and!; [reflexivity|reflexivity| |].
    + rewrite !merge_record_count. cbn [count_before]. rewrite !merge_record_count.
      fold n1 n2. lia.
    + rewrite !merge_record_count. cbn [count_before]. rewrite !merge_record_count. done.
Qed.

Lemma set_image_fields rel r :
  rgr_title (set_image rel r) = rgr_title r /\
  rgr_type (set_image rel r) = rgr_type r /\
  rgr_track_count (set_image rel r) = rgr_track_count r.
Proof. unfold set_image. by destruct (_ && _). Qed.

Lemma merge_record_fields r0 rel details :
  rgr_title (merge_record (Some r0) rel details) = rgr_title r0 /\
  rgr_type (merge_record (Some r0) rel details) = rgr_type r0.
Proof.
  rewrite merge_record_spec. simpl. destruct (set_image_fields rel r0) as (-> & -> & _). done.
Qed.

(** X10: the image of a group is that of the first release with front
    cover art: a merge sets it from the release when the group has none and
    the release has front art, and leaves it as it is otherwise, whether
    the group has one already or the release has no front art. *)
Theorem image_first_release_wins (db : Database) (g : string) (rel : SourceRelease)
    (details : Details) :
  let before := match od_get g db with Some r => rgr_image_url r | None => None end in
  exists r,
    od_get g (merge_release db g rel details) = Some r /\
    rgr_image_url r =
      (if opt_truthy before then before
       else if rel_front rel then Some (image_of (rel_id rel))
       else before) /\
    opt_truthy (Some (image_of (rel_id rel))) = true.
Proof.
  intros before. eexists. rewrite merge_release_get, String.eqb_refl.
  split; [reflexivity|]. split; [|reflexivity].
  rewrite merge_record_image. unfold before, set_image.
  destruct (od_get g db) as [r0|]; simpl.
  - destruct (opt_truthy (rgr_image_url r0)); simpl; [done|]. by destruct (rel_front rel).
  - by destruct (rel_front rel).
Qed.

(** ** The database only grows *)

Lemma grown_refl r : grown r r.
Proof.
  unfold grown. split_and!; [done..| |lia]. exists []. by rewrite app_nil_r.
Qed.

Lemma grown_trans r0 r1 r2 : grown r0 r1 -> grown r1 r2 -> grown r0 r2.
Proof.
  intros (Ht1 & Hy1 & Hi1 & [a1 Ha1] & Hc1) (Ht2 & Hy2 & Hi2 & [a2 Ha2] & Hc2).
  unfold grown. split_and!; [congruence|congruence| | |lia].
  - intros Htr. rewrite Hi2; [by apply Hi1|]. by rewrite Hi1.
  - exists (a1 ++ a2). by rewrite Ha2, Ha1, app_assoc.
Qed.

Lemma merge_record_grown r0 rel details : grown r0 (merge_record (Some r0) rel details).
Proof.
  destruct (merge_record_fields r0 rel details) as [Ht Hy].
  unfold grown. split_and!; [done|done| | |].
  - intros Htr. rewrite merge_record_image. unfold set_image. by rewrite Htr.
  - rewrite merge_record_tracks. apply append_tracks_prefix.
  - rewrite merge_record_count. simpl. lia.
Qed.

Lemma od_keys_set {V : Type} (k : string) (v : V) (d : odict V) :
  od_keys (od_set k v d) = if od_mem k d then od_keys d else od_keys d ++ [k].
Proof.
  unfold od_keys, od_mem. induction d as [|[k' v'] d IH]; simpl; [done|].
  destruct (String.eqb k' k) eqn:E; simpl.
  - apply String.eqb_eq in E. by subst.
  - rewrite IH. by destruct (od_get k d).
Qed.

Lemma od_set_wf {V : Type} (k : string) (v : V) (d : odict V) :
  od_wf d -> od_wf (od_set k v d).
Proof.
  unfold od_wf. rewrite od_keys_set. unfold od_mem.
  destruct (od_get k d) eqn:E; [done|]. intros Hnd.
  apply NoDup_app. split_and!; [done| |apply NoDup_singleton].
  intros x Hx Hx'. apply list_elem_of_singleton in Hx'. subst x.
  apply od_get_None_keys in E. apply E. by apply list_elem_of_In.
Qed.

Lemma db_grown_refl db : db_grown db db.
Proof.
  split; [exists []; by rewrite app_nil_r|].
  intros g r0 H. exists r0. split; [done|apply grown_refl].
Qed.

Lemma db_grown_trans db0 db1 db2 : db_grown db0 db1 -> db_grown db1 db2 -> db_grown db0 db2.
Proof.
  intros [[m1 Hk1] Hr1] [[m2 Hk2] Hr2]. split.
  - exists (m1 ++ m2). by rewrite Hk2, Hk1, app_assoc.
  - intros g r0 H0. destruct (Hr1 g r0 H0) as (r1 & H1 & Hg1).
    destruct (Hr2 g r1 H1) as (r2 & H2 & Hg2).
    exists r2. split; [done|]. by apply grown_trans with r1.
Qed.

Lemma merge_release_grown db g rel details : db_grown db (merge_release db g rel details).
Proof.
  split.
  - unfold merge_release. rewrite od_keys_set. destruct (od_mem g db).
    + exists []. by rewrite app_nil_r.
    + by exists [g].
  - intros g' r0 H0. rewrite merge_release_get.
    destruct (String.eqb g g') eqn:E.
    + apply String.eqb_eq in E. subst g'. rewrite H0. eexists. split; [done|].
      apply merge_record_grown.
    + exists r0. split; [done|apply grown_refl].
Qed.

Lemma crawl_step_db net st rel :
  final_db (crawl_step net st rel) = final_db st \/
  exists g d, final_db (crawl_step net st rel) = merge_release (final_db st) g rel d.
Proof.
  destruct (crawl_step_cases net st rel) as
    [(-> & _) | [(_ & _ & _ & -> & _) | (_ & _ & _ & (g & d & _ & _ & ->) & _)]];
    [by left|by left|right; by exists g, d].
Qed.

(** X11: over a run nothing is taken from the database: the groups it had
    keep their place, their title and their type, an image they had stays
    the same, their tracks stay as they are and in place with new ones
    after them, and their track count does not shrink; new groups come
    after the old ones, and no group id comes to be there twice.  A merge
    touches the one group of the release only. *)
Theorem database_only_grows (net : nat -> outcome Details) (releases : list SourceRelease)
    (st : crawl_state) :
  db_grown (final_db st) (final_db (detail_phase net releases st)) /\
  (od_wf (final_db st) -> od_wf (final_db (detail_phase net releases st))) /\
  (forall db g rel details,
     od_keys (merge_release db g rel details) =
       (if od_mem g db then od_keys db else od_keys db ++ [g]) /\
     forall g', g' <> g -> od_get g' (merge_release db g rel details) = od_get g' db).
Proof.
  split_and!.
  - revert st. induction releases as [|rel releases IH]; intros st; [apply db_grown_refl|].
    rewrite detail_phase_cons. eapply db_grown_trans; [|apply IH].
    destruct (crawl_step_db net st rel) as [->|(g & d & ->)];
      [apply db_grown_refl|apply merge_release_grown].
  - revert st. induction releases as [|rel releases IH]; intros st Hwf; [done|].
    rewrite detail_phase_cons. apply IH.
    destruct (crawl_step_db net st rel) as [->|(g & d & ->)]; [done|].
    by apply od_set_wf.
  - intros db g rel details. split.
    + unfold merge_release. apply od_keys_set.
    + intros g' Hne. rewrite merge_release_get.
      destruct (String.eqb g g') eqn:E; [|done]. apply String.eqb_eq in E. congruence.
Qed.

Lemma database_only_grows_witness :
  od_wf (final_db (detail_phase net_ok (demo_releases 3) (initial_state demo_db ∅))).
Proof.
  apply (database_only_grows net_ok (demo_releases 3) (initial_state demo_db ∅)).
  exact demo_db_wf.
Defined.

(** ** Requests of a run, and reruns *)

Lemma detail_phase_trace net releases st :
  trace (detail_phase net releases st) = trace st ++ phase_events net releases st.
Proof.
  revert st. induction releases as [|rel releases IH]; intros st; cbn [phase_events].
  - by rewrite app_nil_r.
  - rewrite detail_phase_cons, IH, crawl_step_trace. by rewrite app_assoc.
Qed.

Lemma fetch_json_gets_range {B : Type} (net : nat -> outcome B) :
  1 <= gets (snd (fetch_json net)) <= 5.
Proof.
  split; [|apply (fetch_loop_bound net (seq 0 5))].
  unfold fetch_json. change (seq 0 5) with (0 :: seq 1 4).
  destruct (fetch_loop_sleeps_first net 0 (seq 1 4)) as [es ->]. unfold gets. simpl. lia.
Qed.

Lemma crawl_step_requests net st rel :
  let st' := crawl_step net st rel in
  let fetches := (processed_this_run st' - processed_this_run st)%Z in
  (0 <= fetches <= 1)%Z /\
  (fetches <= Z.of_nat (requests st') - Z.of_nat (requests st) <= 5 * fetches)%Z.
Proof.
  intros st' fetches. unfold fetches, st'.
  pose proof (fetch_json_gets_range (fun k => net (requests st + k))) as Hr.
  destruct (decide (rel_id rel ∈ processed_rel_ids st)) as [Hin|Hnew].
  { rewrite crawl_step_seen by done. lia. }
  destruct (has_group rel) eqn:Hg.
  2:{ rewrite crawl_step_no_group by done. lia. }
  destruct (fetch_ok (fst (fetched net st))) eqn:Hok.
  - destruct (crawl_step_merged net st rel Hnew Hg Hok) as (g & d & _ & _ & _ & _ & ->).
    simpl. unfold fetched. lia.
  - rewrite crawl_step_failed by done. simpl. unfold fetched. lia.
Qed.

(** X12: a run fetches at most once per release, and sends between one
    and five requests for each fetch and none otherwise: the requests of a
    run are at least the number of its fetches and at most five times that
    number, which is at most the number of releases. *)
Theorem requests_of_a_run (net : nat -> outcome Details) (releases : list SourceRelease)
    (st : crawl_state) :
  let st' := detail_phase net releases st in
  let fetches := (processed_this_run st' - processed_this_run st)%Z in
  (0 <= fetches <= Z.of_nat (length releases))%Z /\
  (fetches <= Z.of_nat (requests st') - Z.of_nat (requests st) <= 5 * fetches)%Z.
Proof.
  revert st. induction releases as [|rel releases IH]; intros st; cbv zeta.
  - change (detail_phase net [] st) with st. simpl length. lia.
  - specialize (IH (crawl_step net st rel)). cbv zeta in IH.
    pose proof (crawl_step_requests net st rel) as Hs. cbv zeta in Hs.
    rewrite detail_phase_cons. simpl length. lia.
Qed.

(** *** A rerun after a run *)

Lemma detail_phase_noop net releases st :
  (forall rel, In rel releases ->
     rel_id rel ∈ processed_rel_ids st \/ has_group rel = false) ->
  detail_phase net releases st = st.
Proof.
  induction releases as [|rel releases IH]; intros Hall; [done|].
  rewrite detail_phase_cons.
  assert (Hstep : crawl_step net st rel = st).
  { destruct (Hall rel) as [Hin|Hg]; [by left| |].
    - by apply crawl_step_seen.
    - by apply crawl_step_no_group. }
  rewrite Hstep. apply IH. intros rel' Hin. apply Hall. by right.
Qed.

Lemma detail_phase_all_ok net releases st :
  Forall (eq true) (outcomes (phase_events net releases st)) ->
  forall rel, In rel releases ->
    rel_id rel ∈ processed_rel_ids (detail_phase net releases st) \/ has_group rel = false.
Proof.
  revert st. induction releases as [|rel releases IH]; intros st Hall rel' Hin; [done|].
  simpl in Hall. rewrite outcomes_app in Hall. apply Forall_app in Hall as [Hstep Hrest].
  rewrite detail_phase_cons. destruct Hin as [<-|Hin]; [|by apply IH].
  destruct (has_group rel) eqn:Hg; [left|by right].
  apply (detail_phase_grows net releases (crawl_step net st rel)).
  destruct (crawl_step_cases net st rel) as
    [(-> & _ & [Hseen|Hng]) | [(_ & _ & Hok & _ & _ & _ & Hev) | (_ & _ & _ & _ & -> & _)]].
  - done.
  - congruence.
  - rewrite Hev in Hstep. simpl in Hstep. apply Forall_cons in Hstep as [Hbad _]. congruence.
  - apply elem_of_union. left. by apply elem_of_singleton.
Qed.

(** X13: a run that is started again after a run in which no fetch failed,
    from the database and the processed ids that run ended with and over
    the same releases, sends no request and changes nothing: all it does is
    the final write of the state it started from. *)
Theorem rerun_after_clean_run (net net' : nat -> outcome Details) (db : Database)
    (ps : gset string) (releases : list SourceRelease) :
  let run := get_all_recordings net db ps releases in
  Forall (eq true) (outcomes (trace run)) ->
  get_all_recordings net' (final_db run) (processed_rel_ids run) releases =
  {| final_db := final_db run;
     processed_rel_ids := processed_rel_ids run;
     processed_this_run := 0;
     requests := 0;
     trace := [FinalWrite (final_db run) (processed_rel_ids run)] |}.
Proof.
  intros run Hall.
  assert (Hout : outcomes (trace run) =
                 outcomes (phase_events net releases (initial_state db ps))).
  { unfold run, get_all_recordings. simpl. rewrite detail_phase_trace, !outcomes_app.
    simpl. by rewrite app_nil_r. }
  rewrite Hout in Hall.
  pose proof (detail_phase_all_ok net releases (initial_state db ps) Hall) as Hdone.
  unfold get_all_recordings at 1.
  rewrite detail_phase_noop; [done|].
  intros rel Hin. simpl. by apply Hdone.
Qed.

Lemma rerun_after_clean_run_witness :
  let run := get_all_recordings net_ok [] ∅ (demo_releases 3) in
  requests (get_all_recordings net_flaky (final_db run) (processed_rel_ids run)
              (demo_releases 3)) = 0.
Proof.
  intros run. unfold run.
  rewrite (rerun_after_clean_run net_ok net_flaky [] ∅ (demo_releases 3)); [reflexivity|].
  apply all_true_forallb. vm_compute. reflexivity.
Defined.

(** ** What the next start finds in the files *)

Lemma final_ops_store (fs : gmap string file) db ps :
  fold_left apply_op (final_ops db ps) fs =
  <[ PROGRESS_FILE := Whole (IdsJson (elements ps)) ]>
    (<[ PROGRESS_FILE := Torn ]>
       (<[ OUTPUT_FILE := Whole (DbJson db) ]> (<[ OUTPUT_FILE := Torn ]> fs))).
Proof. reflexivity. Qed.

Lemma checkpoint_ops_store (fs : gmap string file) db ps :
  fold_left apply_op (checkpoint_ops db ps) fs =
  <[ PROGRESS_FILE := Whole (IdsJson (elements ps)) ]>
    (<[ PROGRESS_FILE := Torn ]>
       (<[ OUTPUT_FILE := Whole (DbJson db) ]>
          (delete tmp_file (<[ tmp_file := Whole (DbJson db) ]> (<[ tmp_file := Torn ]> fs))))).
Proof.
  change (fold_left apply_op (checkpoint_ops db ps) fs)
    with (<[ PROGRESS_FILE := Whole (IdsJson (elements ps)) ]>
            (<[ PROGRESS_FILE := Torn ]> (crash_after 3 (checkpoint_ops db ps) fs))).
  by rewrite after_replace.
Qed.

Lemma load_written (fs : gmap string file) db (ps : gset string) :
  fs !! OUTPUT_FILE = Some (Whole (DbJson db)) ->
  fs !! PROGRESS_FILE = Some (Whole (IdsJson (elements ps))) ->
  load_db fs = Value db /\ load_processed fs = Value ps.
Proof.
  unfold load_db, load_processed. intros -> ->. split; [done|].
  by rewrite list_to_set_elements_L.
Qed.

Lemma store_after_snoc tr e (fs : gmap string file) :
  store_after (tr ++ [e]) fs = fold_left apply_op (event_ops e) (store_after tr fs).
Proof.
  unfold store_after. rewrite flat_map_app, fold_left_app. simpl. by rewrite app_nil_r.
Qed.

(** X14: the files a run leaves give its final state back: when all the
    writes of a run have run to their end, loading the two files as the
    next start does yields the database and the processed ids the run
    ended with; and a start without the files begins with an empty
    database and no processed id. *)
Theorem reload_after_run (net : nat -> outcome Details) (db : Database) (ps : gset string)
    (releases : list SourceRelease) (fs : gmap string file) :
  let run := get_all_recordings net db ps releases in
  let fs' := store_after (trace run) fs in
  load_db fs' = Value (final_db run) /\
  load_processed fs' = Value (processed_rel_ids run) /\
  load_db ∅ = Value od_empty /\
  load_processed ∅ = Value ∅.
Proof.
  intros run fs'.
  assert (Hload : load_db fs' = Value (final_db run) /\
                  load_processed fs' = Value (processed_rel_ids run)).
  { unfold fs', run, get_all_recordings. cbn [trace final_db processed_rel_ids].
    rewrite store_after_snoc. cbn [event_ops]. rewrite final_ops_store.
    apply load_written.
    - rewrite !lookup_insert_ne by discriminate. by rewrite lookup_insert_eq.
    - by rewrite lookup_insert_eq. }
  destruct Hload as [H1 H2]. by split_and!.
Qed.

(** X15: a checkpoint that runs to its end leaves the new database and
    the new processed ids in the two files, removes its temporary file, and
    touches no other file. *)
Theorem checkpoint_complete (fs : gmap string file) (db : Database) (ps : gset string) :
  let fs' := fold_left apply_op (checkpoint_ops db ps) fs in
  load_db fs' = Value db /\
  load_processed fs' = Value ps /\
  fs' !! tmp_file = None /\
  (forall path, path <> tmp_file -> path <> OUTPUT_FILE -> path <> PROGRESS_FILE ->
                fs' !! path = fs !! path).
Proof.
  intros fs'. unfold fs'. rewrite checkpoint_ops_store.
  assert (Hload : load_db (<[ PROGRESS_FILE := Whole (IdsJson (elements ps)) ]>
    (<[ PROGRESS_FILE := Torn ]>
       (<[ OUTPUT_FILE := Whole (DbJson db) ]>
          (delete tmp_file (<[ tmp_file := Whole (DbJson db) ]> (<[ tmp_file := Torn ]> fs)))))) = Value db /\
      load_processed (<[ PROGRESS_FILE := Whole (IdsJson (elements ps)) ]>
    (<[ PROGRESS_FILE := Torn ]>
       (<[ OUTPUT_FILE := Whole (DbJson db) ]>
          (delete tmp_file (<[ tmp_file := Whole (DbJson db) ]> (<[ tmp_file := Torn ]> fs)))))) = Value ps).
  { apply load_written.
    - rewrite !lookup_insert_ne by discriminate. by rewrite lookup_insert_eq.
    - by rewrite lookup_insert_eq. }
  destruct Hload as [H1 H2]. split_and!; [done|done| |].
  - rewrite !lookup_insert_ne by discriminate. by rewrite lookup_delete_eq.
  - intros path Ht Ho Hp.
    rewrite !lookup_insert_ne by congruence.
    rewrite lookup_delete_ne by congruence. by rewrite !lookup_insert_ne by congruence.
Qed.

(** X16: what a crash during the writes costs the next start.  Up to the
    renaming of the new database the files load as before; from the
    renaming on the database loads as the new one, while the processed ids
    still load as the old ones until their file is opened; and a crash
    between the opening of the progress file and the end of its dump, or
    right after the opening of the database file in the final write, makes
    the next start fail on [json.load]. *)
Theorem reload_after_crash (fs : gmap string file) (db : Database) (ps : gset string) :
  (forall k, k <= 2 ->
     load_db (crash_after k (checkpoint_ops db ps) fs) = load_db fs) /\
  (forall k, 3 <= k ->
     load_db (crash_after k (checkpoint_ops db ps) fs) = Value db) /\
  (forall k, k <= 3 ->
     load_processed (crash_after k (checkpoint_ops db ps) fs) = load_processed fs) /\
  load_processed (crash_after 4 (checkpoint_ops db ps) fs) = JsonError /\
  load_db (crash_after 1 (final_ops db ps) fs) = JsonError /\
  load_processed (crash_after 3 (final_ops db ps) fs) = JsonError.
Proof.
  assert (H3 : forall k, crash_after (S (S (S k))) (checkpoint_ops db ps) fs =
            fold_left apply_op (take k [OpenW PROGRESS_FILE;
                                        DumpClose PROGRESS_FILE (IdsJson (elements ps))])
              (crash_after 3 (checkpoint_ops db ps) fs)) by reflexivity.
  split_and!.
  - intros k Hk. unfold load_db.
    destruct k as [|[|[|k]]]; [done| | |lia];
      unfold crash_after, checkpoint_ops; cbn [take fold_left apply_op];
      by rewrite !lookup_insert_ne by discriminate.
  - intros k Hk. unfold load_db.
    destruct k as [|[|[|k]]]; [lia|lia|lia|]. rewrite H3, after_replace.
    destruct k as [|[|k]]; cbn [take fold_left apply_op]; rewrite ?take_nil;
      cbn [fold_left apply_op];
      rewrite ?lookup_insert_ne by discriminate; by rewrite lookup_insert_eq.
  - intros k Hk. unfold load_processed.
    destruct k as [|[|[|[|k]]]]; [done| | | |lia].
    + unfold crash_after, checkpoint_ops; cbn [take fold_left apply_op].
      by rewrite !lookup_insert_ne by discriminate.
    + unfold crash_after, checkpoint_ops; cbn [take fold_left apply_op].
      by rewrite !lookup_insert_ne by discriminate.
    + rewrite after_replace. rewrite lookup_insert_ne by discriminate.
      rewrite lookup_delete_ne by discriminate.
      by rewrite !lookup_insert_ne by discriminate.
  - unfold load_processed. rewrite (H3 1). cbn [take fold_left apply_op].
    by rewrite lookup_insert_eq.
  - unfold load_db, crash_after, final_ops. cbn [take fold_left apply_op].
    by rewrite lookup_insert_eq.
  - unfold load_processed, crash_after, final_ops. cbn [take fold_left apply_op].
    by rewrite lookup_insert_eq.
Qed.

Lemma reload_after_crash_witness :
  load_db (crash_after 2 (checkpoint_ops demo_db ∅) ∅) = Value od_empty.
Proof.
  destruct (reload_after_crash ∅ demo_db ∅) as (H & _).
  rewrite H by lia. reflexivity.
Defined.

Lemma checkpoint_complete_witness :
  fold_left apply_op (checkpoint_ops demo_db ∅) ∅ !! "notes.txt" = (∅ : gmap string file) !! "notes.txt".
Proof.
  destruct (checkpoint_complete ∅ demo_db ∅) as (_ & _ & _ & H).
  apply H; discriminate.
Defined.

(** ** The discovery loop *)

Lemma discovery_end_unfold net i :
  discovery_end net i =
  {| ds_all_releases := ds_all_releases (discovery_before net i) ++
                        page_yield (page_result net i);
     ds_offset := ds_offset (discovery_before net i);
     ds_requests := ds_requests (discovery_before net i) +
                    gets (snd (fetch_json (fun k => net (page_start net i + k))));
     ds_offsets := ds_offsets (discovery_before net i) ++ [ds_offset (discovery_before net i)] |}.
Proof.
  unfold discovery_end, discovery_before.
  cbn [ds_all_releases ds_offset ds_requests ds_offsets].
  rewrite !seq_S, flat_map_app, map_app. cbn [flat_map map Nat.add page_start].
  by rewrite app_nil_r.
Qed.

Lemma discovery_before_S net i :
  discovery_before net (S i) =
  {| ds_all_releases := ds_all_releases (discovery_before net i) ++
                        page_yield (page_result net i);
     ds_offset := (ds_offset (discovery_before net i) + 100)%Z;
     ds_requests := ds_requests (discovery_before net i) +
                    gets (snd (fetch_json (fun k => net (page_start net i + k))));
     ds_offsets := ds_offsets (discovery_before net i) ++ [ds_offset (discovery_before net i)] |}.
Proof.
  unfold discovery_before.
  cbn [ds_all_releases ds_offset ds_requests ds_offsets].
  rewrite !seq_S, flat_map_app, map_app. cbn [flat_map map Nat.add page_start].
  rewrite app_nil_r. f_equal. lia.
Qed.

Lemma discover_round fuel net i :
  discover (S fuel) net (discovery_before net i) =
  if page_full (page_result net i)
  then discover fuel net (discovery_before net (S i))
  else Some (discovery_end net i).
Proof.
  rewrite discovery_end_unfold, discovery_before_S.
  assert (Hreq : ds_requests (discovery_before net i) = page_start net i) by reflexivity.
  revert Hreq. generalize (discovery_before net i). intros st Hreq.
  cbn [discover]. unfold page_full, page_usable, page_yield.
  rewrite Hreq.
  change (fst (fetch_json (fun k => net (page_start net i + k)))) with (page_result net i).
  destruct (page_result net i) as [p|].
  - destruct (page_truthy p), (releases_truthy p); cbn [negb orb andb];
      rewrite ?app_nil_r; try by destruct st.
    by destruct (Z.of_nat (length (page_batch p)) <? 100)%Z.
  - cbn [andb]. rewrite app_nil_r. by destruct st.
Qed.

Lemma discover_from fuel net i n :
  (forall j, i <= j < i + n -> page_full (page_result net j) = true) ->
  page_full (page_result net (i + n)) = false ->
  n < fuel ->
  discover fuel net (discovery_before net i) = Some (discovery_end net (i + n)).
Proof.
  revert fuel i. induction n as [|n IH]; intros fuel i Hfull Hstop Hfuel.
  - destruct fuel as [|fuel]; [lia|]. rewrite Nat.add_0_r in *.
    by rewrite discover_round, Hstop.
  - destruct fuel as [|fuel]; [lia|].
    rewrite discover_round, Hfull by lia.
    replace (i + S n) with (S i + n) in * by lia.
    apply IH; [|done|lia]. intros j Hj. apply Hfull. lia.
Qed.

Lemma discover_endless fuel net i :
  (forall j, i <= j < i + fuel -> page_full (page_result net j) = true) ->
  discover fuel net (discovery_before net i) = None.
Proof.
  revert i. induction fuel as [|fuel IH]; intros i Hfull; [done|].
  rewrite discover_round, Hfull by lia. apply IH. intros j Hj. apply Hfull. lia.
Qed.

Lemma page_full_length data :
  page_full data = true -> 100 <= length (page_yield data).
Proof.
  unfold page_full. rewrite andb_true_iff, negb_true_iff, Z.ltb_ge. lia.
Qed.

Lemma full_pages_length net i :
  (forall j, j < i -> page_full (page_result net j) = true) ->
  100 * i <= length (flat_map (fun j => page_yield (page_result net j)) (seq 0 i)).
Proof.
  induction i as [|i IH]; intros Hfull; [simpl; lia|].
  rewrite seq_S, flat_map_app, length_app. simpl. rewrite app_nil_r.
  pose proof (page_full_length _ (Hfull i (Nat.lt_succ_diag_r i))).
  specialize (IH (fun j Hj => Hfull j (Nat.lt_lt_succ_r _ _ Hj))). lia.
Qed.

(** X17: the discovery ends with the first page that has no releases
    (the fetch failed, or the body has none) or fewer than 100: it returns
    the releases of all pages up to that one, in order, having asked for
    the offsets 0, 100, 200, ... one after the other, and so at least 100
    releases for each page before the last. *)
Theorem discover_stops (fuel : nat) (net : nat -> outcome Page) (i : nat) :
  (forall j, j < i -> page_full (page_result net j) = true) ->
  page_full (page_result net i) = false ->
  i < fuel ->
  discover fuel net discovery_start = Some (discovery_end net i) /\
  ds_offsets (discovery_end net i) = map (fun j => (100 * Z.of_nat j)%Z) (seq 0 (S i)) /\
  100 * i <= length (ds_all_releases (discovery_end net i)) /\
  (page_usable (page_result net i) = false ->
   ds_all_releases (discovery_end net i) =
     flat_map (fun j => page_yield (page_result net j)) (seq 0 i)).
Proof.
  intros Hfull Hstop Hfuel. split_and!.
  - change discovery_start with (discovery_before net 0).
    apply (discover_from fuel net 0 i); [|done|done]. intros j Hj. apply Hfull. lia.
  - reflexivity.
  - unfold discovery_end. cbn [ds_all_releases].
    rewrite seq_S, flat_map_app, length_app.
    pose proof (full_pages_length net i Hfull). lia.
  - intros Hbad. unfold discovery_end. cbn [ds_all_releases].
    rewrite seq_S, flat_map_app. simpl. rewrite app_nil_r.
    unfold page_usable, page_yield in *. destruct (page_result net i) as [p|].
    + rewrite Hbad. by rewrite app_nil_r.
    + by rewrite app_nil_r.
Qed.

(** X18: the discovery has no bound of its own: as long as every page
    comes with 100 releases or more the loop goes on, and against a
    catalog that always answers so it never ends. *)
Theorem discover_never_ends (fuel : nat) (net : nat -> outcome Page) :
  (forall j, j < fuel -> page_full (page_result net j) = true) ->
  discover fuel net discovery_start = None.
Proof.
  intros Hfull. change discovery_start with (discovery_before net 0).
  apply discover_endless. intros j Hj. apply Hfull. lia.
Qed.

Lemma discover_stops_witness :
  discover 5 net_two_pages discovery_start = Some (discovery_end net_two_pages 1) /\
  ds_all_releases (discovery_end net_two_pages 1) = demo_releases 150.
Proof.
  split; [|vm_compute; reflexivity].
  apply (discover_stops 5 net_two_pages 1); [|vm_compute; reflexivity|lia].
  intros j Hj. assert (j = 0) as -> by lia. vm_compute. reflexivity.
Defined.

Lemma net_full_pages_full j : page_full (page_result net_full_pages j) = true.
Proof.
  unfold page_result, net_full_pages. vm_compute. reflexivity.
Qed.

Lemma discover_never_ends_witness : discover 1000 net_full_pages discovery_start = None.
Proof.
  apply discover_never_ends. intros j _. apply net_full_pages_full.
Defined.

(** ** The supervisor *)

Lemma supervise_round fuel runs i :
  supervise (S fuel) runs i =
  if restarts (runs i)
  then match supervise fuel runs (S i) with
       | Some (e, rest) => Some (e, read_events (runs i) ++ Pause 30 :: rest)
       | None => None
       end
  else Some (exit_after (runs i), last_events (runs i)).
Proof.
  cbn [supervise]. unfold restarts, exit_after, last_events, read_events.
  destruct (run_ending (runs i)); [|done].
  by destruct (is_complete (run_lines (runs i))).
Qed.

Lemma supervise_from fuel runs i n :
  (forall j, i <= j < i + n -> restarts (runs j) = true) ->
  restarts (runs (i + n)) = false ->
  n < fuel ->
  supervise fuel runs i =
  Some (exit_after (runs (i + n)),
        flat_map (fun j => read_events (runs j) ++ [Pause 30]) (seq i n) ++
        last_events (runs (i + n))).
Proof.
  revert fuel i. induction n as [|n IH]; intros fuel i Hre Hstop Hfuel.
  - destruct fuel as [|fuel]; [lia|]. rewrite Nat.add_0_r in *.
    by rewrite supervise_round, Hstop.
  - destruct fuel as [|fuel]; [lia|].
    rewrite supervise_round, Hre by lia.
    replace (i + S n) with (S i + n) in * by lia.
    rewrite (IH fuel (S i)); [|intros j Hj; apply Hre; lia|done|lia].
    cbn [seq flat_map]. by rewrite <- !app_assoc.
Qed.

Lemma supervise_endless fuel runs i :
  (forall j, i <= j < i + fuel -> restarts (runs j) = true) ->
  supervise fuel runs i = None.
Proof.
  revert i. induction fuel as [|fuel IH]; intros i Hre; [done|].
  rewrite supervise_round, Hre by lia.
  rewrite IH; [done|]. intros j Hj. apply Hre. lia.
Qed.

Lemma restarts_same r1 r2 : same_but_code r1 r2 -> restarts r1 = restarts r2.
Proof.
  intros [Hl Hi]. unfold restarts. rewrite Hl.
  destruct (run_ending r1), (run_ending r2); try done.
  - destruct Hi as [_ Hi]. by specialize (Hi eq_refl).
  - destruct Hi as [Hi _]. by specialize (Hi eq_refl).
Qed.

Lemma supervise_same fuel runs runs' i :
  (forall j, same_but_code (runs j) (runs' j)) ->
  supervise fuel runs i = supervise fuel runs' i.
Proof.
  intros Hsame. revert i. induction fuel as [|fuel IH]; intros i; [done|].
  rewrite !supervise_round, IH, (restarts_same _ _ (Hsame i)).
  destruct (Hsame i) as [Hl Hi].
  unfold exit_after, last_events, read_events. rewrite Hl.
  destruct (run_ending (runs i)), (run_ending (runs' i)); try done.
  - destruct Hi as [_ Hi]. by specialize (Hi eq_refl).
  - destruct Hi as [Hi _]. by specialize (Hi eq_refl).
Qed.

(** X19: the supervisor runs the script again and again, 30 s after each
    run whose output has no line holding the completion marker, and stops
    with the first run that has one, or whose reading is interrupted (it
    then terminates the script and exits with 0).  Every line read is
    echoed, in order.  Without the interpreter of the virtual environment
    it exits with 1 before any run. *)
Theorem supervisor_stops (fuel : nat) (runs : nat -> script_run) (i : nat) :
  (forall j, j < i -> restarts (runs j) = true) ->
  restarts (runs i) = false ->
  i < fuel ->
  main true fuel runs =
    Some (exit_after (runs i),
          flat_map (fun j => read_events (runs j) ++ [Pause 30]) (seq 0 i) ++
          last_events (runs i)) /\
  main false fuel runs = Some (SysExit 1, []).
Proof.
  intros Hre Hstop Hfuel. split; [|reflexivity].
  unfold main. cbn [negb].
  apply (supervise_from fuel runs 0 i); [|done|done]. intros j Hj. apply Hre. lia.
Qed.

(** X20: the supervisor never gives up and never looks at the return
    code of the script: while no run prints the marker it starts the next
    one, whatever the codes, and two histories of runs that differ in
    return codes only are supervised alike. *)
Theorem supervisor_ignores_return_codes (fuel : nat) (runs runs' : nat -> script_run) :
  ((forall j, j < fuel -> restarts (runs j) = true) -> main true fuel runs = None) /\
  ((forall j, same_but_code (runs j) (runs' j)) ->
   main true fuel runs = main true fuel runs').
Proof.
  split.
  - intros Hre. unfold main. cbn [negb]. apply supervise_endless.
    intros j Hj. apply Hre. lia.
  - intros Hsame. unfold main. cbn [negb]. by apply supervise_same.
Qed.

Lemma supervisor_stops_witness :
  main true 10 two_crashes_then_done =
    Some (Returned,
          [Launch; Echo "Fetching all releases for David Bowie (with release-groups)...";
           Pause 30;
           Launch; Echo "Fetching all releases for David Bowie (with release-groups)...";
           Pause 30;
           Launch; Echo "Processing 150 releases to extract all possible MBIDs and Art...";
           Echo "Exhaustive fetch complete."]).
Proof.
  destruct (supervisor_stops 10 two_crashes_then_done 2) as [H _].
  - intros j Hj. destruct j as [|[|j]]; [reflexivity|reflexivity|lia].
  - reflexivity.
  - lia.
  - rewrite H. reflexivity.
Defined.

Lemma supervisor_ignores_return_codes_witness :
  main true 7 (fun _ => crashed_run) = None.
Proof.
  destruct (supervisor_ignores_return_codes 7 (fun _ => crashed_run) (fun _ => crashed_run))
    as [H _].
  apply H. intros j _. reflexivity.
Defined.
